(** * python-semantic-release: commit parsing, version algorithm, release history

    A shallow embedding of the core of [semantic_release]:
    - [semantic_release/version/version.py]     ([Version.bump])
    - [semantic_release/version/algorithm.py]   ([tags_and_versions],
      [_bfs_for_latest_version_in_history], [_increment_version], [next_version])
    - [semantic_release/commit_parser/angular.py], [tag.py], [token.py]
    - [semantic_release/changelog/release_history.py]
    - [semantic_release/hvcs/_base.py], [gitlab.py]
    - [semantic_release/cli/config.py]          ([select_branch_options])
    - [semantic_release/repository.py]          ([ArtifactRepo])

    Python [int]s are unbounded, so version components are [N].  Python
    strings are modelled as [string] (code points below 256).  Code that can
    raise returns a [result]. *)

From Stdlib Require Import NArith ZArith Bool List String Ascii Lia.
From Stdlib Require Import Permutation Sorted DecimalString.
Import ListNotations.

Local Open Scope string_scope.
Local Open Scope list_scope.

(** ** Exceptions and fallible results *)

Inductive exn : Type :=
| TypeError (msg : string)
| AttributeError (msg : string)
| ValueError (msg : string)
| IndexError (msg : string)
| KeyError (msg : string)
| RuntimeError (msg : string)
| NotImplementedError (msg : string)
| RecursionError
| CommitParseError (msg : string).

Inductive result (A : Type) : Type :=
| Ok (a : A)
| Raise (e : exn).

Arguments Ok {A} a.
Arguments Raise {A} e.

Definition bind {A B : Type} (r : result A) (f : A -> result B) : result B :=
  match r with
  | Ok a => f a
  | Raise e => Raise e
  end.

Notation "x <- c ;; k" := (bind c (fun x => k))
  (at level 61, c at next level, right associativity).
Notation "' pat <- c ;; k" :=
  (bind c (fun x => match x with pat => k end))
  (at level 61, pat pattern, c at next level, right associativity).

(** ** [semantic_release/enums.py]: LevelBump *)

Module LevelBump.

(** Modelled from the spec: [enums.py] is not part of the sources; the
    spec gives the totally ordered enumeration
    [NO_RELEASE < PATCH < MINOR < MAJOR]. *)
Inductive t : Type := NO_RELEASE | PATCH | MINOR | MAJOR.

Definition rank (l : t) : nat :=
  match l with
  | NO_RELEASE => 0
  | PATCH => 1
  | MINOR => 2
  | MAJOR => 3
  end.

Definition eqb (a b : t) : bool := Nat.eqb (rank a) (rank b).
Definition ltb (a b : t) : bool := Nat.ltb (rank a) (rank b).
Definition leb (a b : t) : bool := Nat.leb (rank a) (rank b).

(** Python's [min(a, b)] and [max(a, b)] return the first argument on ties. *)
Definition min (a b : t) : t := if ltb b a then b else a.
Definition max (a b : t) : t := if ltb a b then b else a.

(** [max(levels, default=NO_RELEASE)] over a collection of levels. *)
Definition max_default (levels : list t) (default : t) : t :=
  match levels with
  | [] => default
  | l :: ls => fold_left max ls l
  end.

End LevelBump.

Import LevelBump.

(** ** [semantic_release/version/version.py]: Version *)

(** [Version] extends [semver.VersionInfo] by [bump].  Its state is the
    value object of the spec's data model,
    [(major, minor, patch, prerelease_token?, prerelease_revision?, build?)]:
    the prerelease string of semver is [token.revision]. *)
Record Version : Type := mkVersion {
  major : N;
  minor : N;
  patch : N;
  prerelease_token : option string;
  prerelease_revision : option N;
  build : option string
}.

Definition full_version (ma mi pa : N) : Version :=
  mkVersion ma mi pa None None None.

Definition option_eqb {A} (eqb : A -> A -> bool) (a b : option A) : bool :=
  match a, b with
  | None, None => true
  | Some x, Some y => eqb x y
  | _, _ => false
  end.

(** Structural equality of all fields ([to_tuple] equality). *)
Definition version_eqb (a b : Version) : bool :=
  N.eqb (major a) (major b) && N.eqb (minor a) (minor b)
  && N.eqb (patch a) (patch b)
  && option_eqb String.eqb (prerelease_token a) (prerelease_token b)
  && option_eqb N.eqb (prerelease_revision a) (prerelease_revision b)
  && option_eqb String.eqb (build a) (build b).

(** Modelled from the spec: "is_prerelease <=> prerelease_token is set". *)
Definition is_prerelease (v : Version) : bool :=
  match prerelease_token v with
  | Some _ => true
  | None => false
  end.

(** [semver.VersionInfo.bump_major], [bump_minor], [bump_patch]: the
    next core triple, without prerelease and build. *)
Definition bump_major (v : Version) : Version :=
  full_version (major v + 1) 0 0.
Definition bump_minor (v : Version) : Version :=
  full_version (major v) (minor v + 1) 0.
Definition bump_patch (v : Version) : Version :=
  full_version (major v) (minor v) (patch v + 1).

(** [semver.VersionInfo.bump_prerelease(token)]: increments the trailing
    number of an existing prerelease (a suffix without a number, here a
    token without revision, stays as it is), otherwise starts [token.1];
    the build is dropped. *)
Definition bump_prerelease (v : Version) (token : string) : Version :=
  match prerelease_token v with
  | Some t =>
      mkVersion (major v) (minor v) (patch v) (Some t)
        (option_map N.succ (prerelease_revision v)) None
  | None =>
      mkVersion (major v) (minor v) (patch v)
        (Some (if String.eqb token "" then "rc" else token)) (Some 1%N) None
  end.

(** [Version.bump(self, level, prerelease=False, prerelease_token="beta")]. *)
Definition bump_full (self : Version) (level : LevelBump.t)
    (prerelease : bool) (prerelease_token : string) : Version :=
  match level with
  | NO_RELEASE => self
  | _ =>
      if is_prerelease self && prerelease then bump_prerelease self "rc"
      else
        let version :=
          match level with
          | MAJOR => bump_major self
          | MINOR => bump_minor self
          | PATCH => bump_patch self
          | NO_RELEASE => self
          end in
        if prerelease then bump_prerelease version prerelease_token
        else version
  end.

(** [v.bump(level)] with the defaults of the signature. *)
Definition bump (self : Version) (level : LevelBump.t) : Version :=
  bump_full self level false "beta".

(** *** SemVer precedence (build metadata ignored) *)

Definition compare_option_N (a b : option N) : comparison :=
  match a, b with
  | None, None => Eq
  | None, Some _ => Lt
  | Some _, None => Gt
  | Some x, Some y => N.compare x y
  end.

Definition lex (c1 c2 : comparison) : comparison :=
  match c1 with
  | Eq => c2
  | _ => c1
  end.

Definition compare_core (a b : Version) : comparison :=
  lex (N.compare (major a) (major b))
    (lex (N.compare (minor a) (minor b)) (N.compare (patch a) (patch b))).

(** A version without prerelease suffix is above the same core with one;
    two suffixes [token[.revision]] compare by token (ASCII order), then by
    revision (a missing revision is the shorter identifier list, hence
    lower). *)
Definition compare_prerelease (a b : Version) : comparison :=
  match prerelease_token a, prerelease_token b with
  | None, None => Eq
  | None, Some _ => Gt
  | Some _, None => Lt
  | Some ta, Some tb =>
      lex (String.compare ta tb)
        (compare_option_N (prerelease_revision a) (prerelease_revision b))
  end.

Definition version_compare (a b : Version) : comparison :=
  lex (compare_core a b) (compare_prerelease a b).

Definition version_ltb (a b : Version) : bool :=
  match version_compare a b with Lt => true | _ => false end.
Definition version_gtb (a b : Version) : bool :=
  match version_compare a b with Gt => true | _ => false end.
Definition version_geb (a b : Version) : bool := negb (version_ltb a b).

(** *** What [algorithm.py] asks of a version *)

(** [semver.VersionInfo.finalize_version]: the core triple alone. *)
Definition finalize_version (v : Version) : Version :=
  full_version (major v) (minor v) (patch v).

(** Modelled from the spec: the [Version] that [algorithm.py] relies on is
    not the class of [version.py]; "[to_prerelease(token, revision?)]
    attaches or replaces the prerelease suffix", a revision left out being
    revision 1. *)
Definition to_prerelease (v : Version) (token : string) (revision : option N)
  : Version :=
  mkVersion (major v) (minor v) (patch v) (Some token)
    (Some (match revision with Some r => r | None => 1%N end)) (build v).

(** Modelled from the spec: "Subtraction [a - b] returns the coarsest
    [LevelBump] that differs between the core triples". *)
Definition version_sub (a b : Version) : LevelBump.t :=
  if negb (N.eqb (major a) (major b)) then MAJOR
  else if negb (N.eqb (minor a) (minor b)) then MINOR
  else if negb (N.eqb (patch a) (patch b)) then PATCH
  else NO_RELEASE.

(** [Version(0, 0, 0, prerelease_token=token)] *)
Definition Version_init (ma mi pa : N) (token : string) : Version :=
  mkVersion ma mi pa (Some token) None None.

Definition str_of_N (n : N) : string := NilEmpty.string_of_uint (N.to_uint n).

(** [str(version)]: [major.minor.patch[-token[.revision]][+build]]. *)
Definition version_str (v : Version) : string :=
  str_of_N (major v) ++ "." ++ str_of_N (minor v) ++ "." ++ str_of_N (patch v)
  ++ match prerelease_token v with
     | Some t =>
         "-" ++ t ++ match prerelease_revision v with
                     | Some r => "." ++ str_of_N r
                     | None => ""
                     end
     | None => ""
     end
  ++ match build v with
     | Some b => "+" ++ b
     | None => ""
     end.

(** ** Python string helpers *)

(** [needle in s] *)
Definition py_str_in (needle s : string) : bool :=
  (fix go (s : string) : bool :=
     String.prefix needle s
     || match s with
        | EmptyString => false
        | String _ s' => go s'
        end) s.

(** [s.replace(old, new)]: every non-overlapping occurrence, left to
    right.  [skip] counts the characters of an occurrence still to drop. *)
Fixpoint replace_from (old new : string) (skip : nat) (s : string) : string :=
  match s with
  | EmptyString => EmptyString
  | String c s' =>
      match skip with
      | S n => replace_from old new n s'
      | O =>
          if String.prefix old s
          then new ++ replace_from old new (String.length old - 1) s'
          else String c (replace_from old new 0 s')
      end
  end.

Fixpoint intersperse_str (new s : string) : string :=
  match s with
  | EmptyString => new
  | String c s' => new ++ String c (intersperse_str new s')
  end.

Definition py_replace (s old new : string) : string :=
  match old with
  | EmptyString => intersperse_str new s
  | _ => replace_from old new 0 s
  end.

(** [str.isspace] on code points below 256; the class [\s] of [re]. *)
Definition is_space (c : ascii) : bool :=
  let n := nat_of_ascii c in
  ((9 <=? n) && (n <=? 13) || (28 <=? n) && (n <=? 32)
   || (n =? 133) || (n =? 160))%nat.

Fixpoint lstrip (s : string) : string :=
  match s with
  | String c s' => if is_space c then lstrip s' else s
  | EmptyString => EmptyString
  end.

Fixpoint rstrip (s : string) : string :=
  match s with
  | EmptyString => EmptyString
  | String c s' =>
      match rstrip s' with
      | EmptyString => if is_space c then EmptyString else String c EmptyString
      | r => String c r
      end
  end.

Definition py_strip (s : string) : string := rstrip (lstrip s).

Fixpoint drop_str (n : nat) (s : string) : string :=
  match n, s with
  | O, _ => s
  | S n', String _ s' => drop_str n' s'
  | S _, EmptyString => EmptyString
  end.

(** [s.split(sep)] for a non-empty separator; [acc] is the piece read so
    far and [skip] counts the characters of a separator still to drop. *)
Fixpoint split_from (sep : string) (skip : nat) (acc : string) (s : string)
  : list string :=
  match s with
  | EmptyString => [acc]
  | String c s' =>
      match skip with
      | S n => split_from sep n acc s'
      | O =>
          if String.prefix sep s
          then acc :: split_from sep (String.length sep - 1) EmptyString s'
          else split_from sep 0 (acc ++ String c EmptyString) s'
      end
  end.

Definition py_split (s sep : string) : list string :=
  split_from sep 0 EmptyString s.

(** ** A backtracking matcher for the [re] patterns of the sources *)

Module Re.

Inductive regex : Type :=
| Eps
| Chr (p : ascii -> bool)
| Seq (r1 r2 : regex)
| Alt (r1 r2 : regex)
| Star (r : regex)
| Group (name : string) (r : regex)
| Eos.

Definition groups : Type := list (string * string).

Fixpoint group (name : string) (g : groups) : option string :=
  match g with
  | [] => None
  | (n, v) :: g' => if String.eqb n name then Some v else group name g'
  end.

Definition Opt (r : regex) : regex := Alt r Eps.
Definition Plus (r : regex) : regex := Seq r (Star r).

Fixpoint Lit (s : string) : regex :=
  match s with
  | EmptyString => Eps
  | String c s' => Seq (Chr (Ascii.eqb c)) (Lit s')
  end.

(** ["|".join(alternatives)] with every alternative a literal. *)
Fixpoint Alts (l : list string) : regex :=
  match l with
  | [] => Eps
  | [s] => Lit s
  | s :: l' => Alt (Lit s) (Alts l')
  end.

Definition newline : ascii := ascii_of_nat 10.
Definition not_newline (c : ascii) : bool := negb (Ascii.eqb c newline).
Definition any_char (c : ascii) : bool := true.

(** [exec r s g k]: match [r] at the front of [s], then continue with [k]
    on the rest; alternatives and repetitions are tried in the order of a
    backtracking engine (left alternative first, longest repetition first).
    A repetition is bounded by the length of the input, since each round
    must consume a character. *)
Fixpoint exec {A : Type} (r : regex) (s : string) (g : groups)
    (k : string -> groups -> option A) {struct r} : option A :=
  match r with
  | Eps => k s g
  | Chr p =>
      match s with
      | String c s' => if p c then k s' g else None
      | EmptyString => None
      end
  | Seq r1 r2 => exec r1 s g (fun s' g' => exec r2 s' g' k)
  | Alt r1 r2 =>
      match exec r1 s g k with
      | Some a => Some a
      | None => exec r2 s g k
      end
  | Star r1 =>
      (fix star (fuel : nat) (s0 : string) (g0 : groups) {struct fuel}
         : option A :=
         match fuel with
         | O => k s0 g0
         | S fuel' =>
             match
               exec r1 s0 g0
                 (fun s' g' =>
                    if (String.length s' <? String.length s0)%nat
                    then star fuel' s' g' else None)
             with
             | Some a => Some a
             | None => k s0 g0
             end
         end) (String.length s) s g
  | Group name r1 =>
      exec r1 s g
        (fun s' g' =>
           k s' ((name,
                  String.substring 0 (String.length s - String.length s') s)
                 :: g'))
  | Eos =>
      match s with
      | EmptyString => k s g
      | String c EmptyString => if Ascii.eqb c newline then k s g else None
      | _ => None
      end
  end.

(** [pattern.match(s)]: anchored at the start, not at the end. *)
Definition re_match (r : regex) (s : string) : option groups :=
  exec r s [] (fun _ g => Some g).

(** What it means for a pattern to match: [matches r s g s' g'] when [r]
    matches the front of [s], leaving [s'], and extends the captures [g]
    to [g'].  A round of a repetition consumes at least one character. *)
Inductive matches : regex -> string -> groups -> string -> groups -> Prop :=
| m_eps s g : matches Eps s g s g
| m_chr (p : ascii -> bool) c s g :
    p c = true -> matches (Chr p) (String c s) g s g
| m_seq r1 r2 s g s1 g1 s2 g2 :
    matches r1 s g s1 g1 -> matches r2 s1 g1 s2 g2 ->
    matches (Seq r1 r2) s g s2 g2
| m_alt_l r1 r2 s g s' g' :
    matches r1 s g s' g' -> matches (Alt r1 r2) s g s' g'
| m_alt_r r1 r2 s g s' g' :
    matches r2 s g s' g' -> matches (Alt r1 r2) s g s' g'
| m_star_stop r s g : matches (Star r) s g s g
| m_star_round r s g s1 g1 s2 g2 :
    matches r s g s1 g1 -> (String.length s1 < String.length s)%nat ->
    matches (Star r) s1 g1 s2 g2 -> matches (Star r) s g s2 g2
| m_group name r s g s' g' :
    matches r s g s' g' ->
    matches (Group name r) s g s'
      ((name, String.substring 0 (String.length s - String.length s') s) :: g')
| m_eos g : matches Eos EmptyString g EmptyString g
| m_eos_newline g :
    matches Eos (String newline EmptyString) g (String newline EmptyString) g.

End Re.

(** Names of the capturing groups a pattern declares: [m.group(name)]
    raises [IndexError] for any other name. *)
Fixpoint group_names (r : Re.regex) : list string :=
  match r with
  | Re.Seq r1 r2 | Re.Alt r1 r2 => group_names r1 ++ group_names r2
  | Re.Star r1 => group_names r1
  | Re.Group name r1 => name :: group_names r1
  | _ => []
  end.

(** A compiled pattern's match object: the pattern and what was captured. *)
Record Match : Type := mkMatch {
  match_re : Re.regex;
  match_groups : Re.groups
}.

Definition py_match (r : Re.regex) (s : string) : option Match :=
  option_map (mkMatch r) (Re.re_match r s).

(** [m.group(name)]: [None] when the group took no part in the match. *)
Definition py_group (m : Match) (name : string) : result (option string) :=
  if existsb (String.eqb name) (group_names (match_re m))
  then Ok (Re.group name (match_groups m))
  else Raise (IndexError "no such group").

(** ** Git objects (the [Repo] capability of GitPython) *)

Definition Actor : Type := string.

(** A commit with its ancestry; commits compare by hash ([binsha]). *)
#[warnings="-register-all"]
Inductive Commit : Type :=
  mkCommit (hexsha : string) (message : string) (author : Actor)
           (author_tz_offset : Z) (committed_date : Z)
           (parents : list Commit).

Definition hexsha (c : Commit) : string :=
  let 'mkCommit h _ _ _ _ _ := c in h.
Definition message (c : Commit) : string :=
  let 'mkCommit _ m _ _ _ _ := c in m.
Definition author (c : Commit) : Actor :=
  let 'mkCommit _ _ a _ _ _ := c in a.
Definition author_tz_offset (c : Commit) : Z :=
  let 'mkCommit _ _ _ o _ _ := c in o.
Definition committed_date (c : Commit) : Z :=
  let 'mkCommit _ _ _ _ d _ := c in d.
Definition parents (c : Commit) : list Commit :=
  let 'mkCommit _ _ _ _ _ p := c in p.

Definition commit_eqb (a b : Commit) : bool :=
  String.eqb (hexsha a) (hexsha b).

(** [tag.object]: an annotated tag object pointing at a commit, or the
    commit itself for a lightweight tag. *)
Inductive TagTarget : Type :=
| TagObject (tagger : Actor) (tagger_tz_offset : Z) (tagged_date : Z)
            (object : Commit)
| CommitObject (c : Commit).

Module Tag.
Record t : Type := mk {
  name : string;
  object : TagTarget
}.

Definition commit (tag : t) : Commit :=
  match object tag with
  | TagObject _ _ _ c => c
  | CommitObject c => c
  end.
End Tag.

(** ** [semantic_release/commit_parser/token.py] *)

Module ParsedCommit.
Record t : Type := mk {
  bump : LevelBump.t;
  type : string;
  scope : option string;
  descriptions : list string;
  breaking_descriptions : list string;
  commit : Commit
}.
End ParsedCommit.

Module ParseError.
Record t : Type := mk {
  commit : Commit;
  error : string
}.

(** [raise_error(self) -> NoReturn]. *)
Definition raise_error {A : Type} (self : t) : result A :=
  Raise (CommitParseError (error self)).
End ParseError.

(** [ParseResult = Union[ParsedCommit, ParseError]]. *)
Inductive ParseResult : Type :=
| Parsed (p : ParsedCommit.t)
| Failed (e : ParseError.t).

Definition is_ParsedCommit (r : ParseResult) : bool :=
  match r with Parsed _ => true | Failed _ => false end.
Definition is_ParseError (r : ParseResult) : bool :=
  match r with Parsed _ => false | Failed _ => true end.

(** Truthiness of an optional string and of a list. *)
Definition truthy_str (s : option string) : bool :=
  match s with
  | Some (String _ _) => true
  | _ => false
  end.
Definition truthy_list {A} (l : list A) : bool :=
  match l with [] => false | _ => true end.

Definition str_in (s : string) (l : list string) : bool :=
  existsb (String.eqb s) l.

Definition or_empty (s : option string) : string :=
  match s with Some x => x | None => "" end.

(** ** [semantic_release/commit_parser/util.py] *)

(** [[match.group(1) for match in (breaking_re.match(p) for p in ps) if match]],
    with [breaking_re.match(p)] followed by [.group(1)] as one function. *)
Fixpoint breaking_matches (breaking_re_match : string -> option string)
    (ps : list string) : list string :=
  match ps with
  | [] => []
  | p :: ps' =>
      match breaking_re_match p with
      | Some d => d :: breaking_matches breaking_re_match ps'
      | None => breaking_matches breaking_re_match ps'
      end
  end.

Module Util.

(** Modelled from the spec: [commit_parser/util.py] is not part of the
    sources.  "Body paragraphs are split on blank lines". *)
Definition parse_paragraphs (text : string) : list string :=
  filter (fun p => negb (String.eqb p ""))
    (py_split text (String Re.newline (String Re.newline ""))).

(** Modelled from the spec: the breaking-change trailer pattern
    [^BREAKING[ -]CHANGE: (.+)$], applied per body paragraph. *)
Definition breaking_re : Re.regex :=
  Re.Seq (Re.Lit "BREAKING")
    (Re.Seq (Re.Chr (fun c => Ascii.eqb c " " || Ascii.eqb c "-"))
       (Re.Seq (Re.Lit "CHANGE: ")
          (Re.Seq (Re.Group "1" (Re.Plus (Re.Chr Re.not_newline))) Re.Eos))).

Definition breaking_re_match (p : string) : option string :=
  match Re.re_match breaking_re p with
  | Some g => Re.group "1" g
  | None => None
  end.

End Util.

(** ** [semantic_release/commit_parser/angular.py] *)

Module AngularCommitParser.

Definition LONG_TYPE_NAMES : list (string * string) :=
  [("feat", "feature"); ("docs", "documentation"); ("perf", "performance")].

(** [LONG_TYPE_NAMES.get(parsed_type, parsed_type)] *)
Fixpoint dict_get (d : list (string * string)) (key default : string)
  : string :=
  match d with
  | [] => default
  | (k, v) :: d' => if String.eqb k key then v else dict_get d' key default
  end.

Record AngularParserOptions : Type := mkAngularParserOptions {
  allowed_tags : list string;
  minor_tags : list string;
  patch_tags : list string;
  default_bump_level : LevelBump.t
}.

Definition default_options : AngularParserOptions :=
  mkAngularParserOptions
    ["build"; "chore"; "ci"; "docs"; "feat"; "fix"; "perf"; "style";
     "refactor"; "test"]
    ["feat"] ["fix"; "perf"] NO_RELEASE.

(** The pattern compiled in [__init__] ([re.VERBOSE | re.DOTALL]), the
    allowed tags being plain words; the fifth group is the unnamed
    [(:?\n\n(?P<text>.+))]. *)
Definition re_parser (options : AngularParserOptions) : Re.regex :=
  Re.Seq (Re.Group "type" (Re.Alts (allowed_tags options)))
  (Re.Seq (Re.Opt (Re.Seq (Re.Lit "(")
             (Re.Seq (Re.Group "scope" (Re.Plus (Re.Chr Re.not_newline)))
                (Re.Lit ")"))))
  (Re.Seq (Re.Opt (Re.Group "break" (Re.Lit "!")))
  (Re.Seq (Re.Lit ":")
  (Re.Seq (Re.Plus (Re.Chr is_space))
  (Re.Seq (Re.Group "subject" (Re.Plus (Re.Chr Re.not_newline)))
    (Re.Opt (Re.Group "5"
       (Re.Seq (Re.Opt (Re.Lit ":"))
       (Re.Seq (Re.Lit (String Re.newline (String Re.newline "")))
          (Re.Group "text" (Re.Plus (Re.Chr Re.any_char)))))))))))).

Section Parse.

(** [commit_parser/util.py] is not part of the sources: [parse_paragraphs]
    and [breaking_re] are parameters of the parser. *)
Variable parse_paragraphs : string -> list string.
Variable breaking_re_match : string -> option string.
Variable options : AngularParserOptions.

(** The groups [subject] and [type] take part in every match, so
    [or_empty] never meets [None] for them. *)
Definition parse (commit : Commit) : result ParseResult :=
  (* Attempt to parse the commit message with a regular expression *)
  match py_match (re_parser options) (message commit) with
  | None =>
      Ok (Failed (ParseError.mk commit "Unable to parse commit message"))
  | Some parsed =>
      parsed_break <- py_group parsed "break" ;;
      parsed_scope <- py_group parsed "scope" ;;
      parsed_subject <- py_group parsed "subject" ;;
      parsed_text <- py_group parsed "text" ;;
      parsed_type <- py_group parsed "type" ;;
      let descriptions :=
        if truthy_str parsed_text
        then parse_paragraphs (or_empty parsed_text)
        else [] in
      (* Insert the subject before the other paragraphs *)
      let descriptions := or_empty parsed_subject :: descriptions in
      (* Look for descriptions of breaking changes *)
      let breaking_descriptions :=
        breaking_matches breaking_re_match (tl descriptions) in
      let level_bump :=
        if truthy_str parsed_break || truthy_list breaking_descriptions
        then MAJOR
        else if str_in (or_empty parsed_type) (minor_tags options) then MINOR
        else if str_in (or_empty parsed_type) (patch_tags options) then PATCH
        else default_bump_level options in
      Ok (Parsed (ParsedCommit.mk
                    level_bump
                    (dict_get LONG_TYPE_NAMES (or_empty parsed_type)
                       (or_empty parsed_type))
                    parsed_scope
                    descriptions
                    breaking_descriptions
                    commit))
  end.

End Parse.

End AngularCommitParser.

(** ** [semantic_release/commit_parser/tag.py] *)

Module TagCommitParser.

Definition re_parser : Re.regex :=
  Re.Seq (Re.Group "subject" (Re.Plus (Re.Chr Re.not_newline)))
    (Re.Opt (Re.Group "2"
       (Re.Seq (Re.Opt (Re.Lit ":"))
       (Re.Seq (Re.Lit (String Re.newline (String Re.newline "")))
          (Re.Group "text" (Re.Plus (Re.Chr Re.any_char))))))).

Record TagParserOptions : Type := mkTagParserOptions {
  minor_tag : string;
  patch_tag : string
}.

Definition default_options : TagParserOptions :=
  mkTagParserOptions ":sparkles:" ":nut_and_bolt:".

Section Parse.

Variable parse_paragraphs : string -> list string.
Variable breaking_re_match : string -> option string.
Variable options : TagParserOptions.

(** The ParseError of [parse].  The source formats the message with [!r]
    (quoted and escaped); the error text here carries the message itself. *)
Definition unable (commit : Commit) : ParseResult :=
  Failed (ParseError.mk commit
            ("Unable to parse the given commit message: " ++ message commit)).

(** The tail of [parse] once a tag token has been found. *)
Definition finish (commit : Commit) (parsed : Match) (level : string)
    (level_bump : LevelBump.t) (subject : option string)
  : result ParseResult :=
  text <- py_group parsed "text" ;;
  let descriptions :=
    if truthy_str text then parse_paragraphs (or_empty text) else [] in
  subject_stripped <-
    match subject with
    | Some s => Ok (py_strip s)
    | None => Raise (AttributeError "'NoneType' object has no attribute 'strip'")
    end ;;
  let descriptions := subject_stripped :: descriptions in
  (* Look for descriptions of breaking changes *)
  let breaking_descriptions :=
    breaking_matches breaking_re_match (tl descriptions) in
  let '(level, level_bump) :=
    if truthy_list breaking_descriptions then ("breaking", MAJOR)
    else (level, level_bump) in
  Ok (Parsed (ParsedCommit.mk level_bump level None descriptions
                breaking_descriptions commit)).

Definition parse (commit : Commit) : result ParseResult :=
  let message := message commit in
  (* Attempt to parse the commit message with a regular expression *)
  match py_match re_parser message with
  | None => Ok (unable commit)
  | Some parsed =>
      subject <- py_group parsed "subject" ;;
      (* Check tags for minor or patch *)
      if py_str_in (minor_tag options) message then
        finish commit parsed "feature" MINOR
          (if truthy_str subject
           then option_map (fun s => py_replace s (minor_tag options) "") subject
           else subject)
      else if py_str_in (patch_tag options) message then
        finish commit parsed "fix" PATCH
          (if truthy_str subject
           then option_map (fun s => py_replace s (patch_tag options) "") subject
           else subject)
      else
        (* We did not find any tags in the commit message *)
        Ok (unable commit)
  end.

End Parse.

End TagCommitParser.

(** ** [semantic_release/version/translator.py] *)

(** The translator as the capability the algorithm consumes:
    [from_tag(tag_str) -> Version?], [from_string(s) -> Version],
    [str_to_tag(version) -> string] and the configured prerelease token. *)
Record VersionTranslator : Type := mkVersionTranslator {
  from_tag : string -> option Version;
  from_string : string -> result Version;
  str_to_tag : Version -> string;
  translator_prerelease_token : string
}.

Module Translator.

Definition is_digit (c : ascii) : bool :=
  let n := nat_of_ascii c in ((48 <=? n) && (n <=? 57))%nat.

Definition is_token_char (c : ascii) : bool :=
  let n := nat_of_ascii c in
  ((65 <=? n) && (n <=? 90) || (97 <=? n) && (n <=? 122) || (n =? 45))%nat.

Fixpoint N_of_digits (acc : N) (s : string) : N :=
  match s with
  | EmptyString => acc
  | String c s' =>
      N_of_digits (acc * 10 + N.of_nat (nat_of_ascii c - 48)) s'
  end.

Definition number : Re.regex :=
  Re.Alt
    (Re.Seq (Re.Chr (fun c => is_digit c && negb (Ascii.eqb c "0")))
       (Re.Star (Re.Chr is_digit)))
    (Re.Lit "0").

(** Modelled from the spec: [translator.py] is not part of the sources.
    A version string is [X.Y.Z], optionally followed by [-token.N] and by
    [+build], and nothing else. *)
Definition version_re : Re.regex :=
  Re.Seq (Re.Group "major" number)
  (Re.Seq (Re.Lit ".")
  (Re.Seq (Re.Group "minor" number)
  (Re.Seq (Re.Lit ".")
  (Re.Seq (Re.Group "patch" number)
  (Re.Seq (Re.Opt (Re.Seq (Re.Lit "-")
             (Re.Seq (Re.Group "token" (Re.Plus (Re.Chr is_token_char)))
             (Re.Seq (Re.Lit ".") (Re.Group "revision" number)))))
  (Re.Seq (Re.Opt (Re.Seq (Re.Lit "+")
             (Re.Group "build" (Re.Plus (Re.Chr Re.not_newline)))))
          Re.Eos)))))).

Definition parse_version (s : string) : option Version :=
  match Re.re_match version_re s with
  | None => None
  | Some g =>
      let num name := N_of_digits 0 (or_empty (Re.group name g)) in
      Some (mkVersion (num "major") (num "minor") (num "patch")
              (Re.group "token" g)
              (option_map (N_of_digits 0) (Re.group "revision" g))
              (Re.group "build" g))
  end.

Fixpoint ends_with (suffix s : string) : bool :=
  String.eqb suffix s
  || match s with
     | EmptyString => false
     | String _ s' => ends_with suffix s'
     end.

(** Modelled from the spec: "[from_tag(tag_str)]: strip format, parse;
    [None] if the tag is not a version tag", with a [tag_format] of the
    shape [prefix{version}suffix]. *)
Definition make (prefix suffix token : string) : VersionTranslator :=
  mkVersionTranslator
    (fun tag =>
       if String.prefix prefix tag
          && ends_with suffix (drop_str (String.length prefix) tag)
       then
         parse_version
           (String.substring (String.length prefix)
              (String.length tag - String.length prefix
               - String.length suffix) tag)
       else None)
    (fun s =>
       match parse_version s with
       | Some v => Ok v
       | None => Raise (ValueError "not a valid version")
       end)
    (fun v => (prefix ++ version_str v ++ suffix)%string)
    token.

(** The default [tag_format], [v{version}]. *)
Definition default : VersionTranslator := make "v" "" "rc".

End Translator.

(** ** [semantic_release/version/algorithm.py] *)

(** *** [sorted(..., reverse=True, key=...)] *)

(** A stable sort is determined by its comparison, and sorting a list of
    two or more elements compares each of them at least once: an insertion
    sort over fallible comparisons returns what [sorted] returns and raises
    when [sorted] raises. *)

Section Sorted.

Context {A K : Type}.
Variable key : A -> K.
Variable lt : K -> K -> result bool.

(** One step of the insertion sort: [x], later in the input than all of
    [l], goes behind every element that is not above it. *)
Fixpoint insort (x : A) (l : list A) : result (list A) :=
  match l with
  | [] => Ok [x]
  | y :: l' =>
      b <- lt (key x) (key y) ;;
      if b then Ok (x :: y :: l')
      else (r <- insort x l' ;; Ok (y :: r))
  end.

Fixpoint sort_from (acc : list A) (l : list A) : result (list A) :=
  match l with
  | [] => Ok acc
  | x :: l' => acc' <- insort x acc ;; sort_from acc' l'
  end.

(** Stable ascending sort; an exception raised by a comparison leaves it. *)
Definition py_sorted (l : list A) : result (list A) := sort_from [] l.

(** [reverse=True] reverses the list before and after sorting, which
    keeps elements with equal keys in their original order. *)
Definition py_sorted_reverse (l : list A) : result (list A) :=
  r <- py_sorted (rev l) ;; Ok (rev r).

End Sorted.

(** [<] between sort keys: a [Version] against [None] (or [None] against
    [None]) is a [TypeError]. *)
Definition key_lt (a b : option Version) : result bool :=
  match a, b with
  | Some x, Some y => Ok (version_ltb x y)
  | _, _ => Raise (TypeError "'<' not supported between instances")
  end.

Definition tags_and_versions (tags : list Tag.t) (translator : VersionTranslator)
  : result (list (Tag.t * option Version)) :=
  py_sorted_reverse snd key_lt
    (map (fun t => (t, from_tag translator (Tag.name t))) tags).

(** *** [_bfs_for_latest_version_in_history] *)

(** [for tag, version in full_release_tags_and_versions: if tag.commit == node] *)
Fixpoint first_tag_at {V : Type} (tvs : list (Tag.t * V)) (node : Commit)
  : option V :=
  match tvs with
  | [] => None
  | (tag, version) :: tvs' =>
      if commit_eqb (Tag.commit tag) node then Some version
      else first_tag_at tvs' node
  end.

(** The inner [bfs(visited, q)]; the outer [None] is a recursion that did
    not finish within [fuel] calls. *)
Fixpoint bfs (full_release_tags_and_versions : list (Tag.t * Version))
    (fuel : nat) (visited : list Commit) (q : list Commit)
  : option (option Version) :=
  match fuel with
  | O => None
  | S fuel' =>
      match q with
      | [] => Some None
      | node :: q' =>
          if existsb (commit_eqb node) visited then Some None
          else
            match first_tag_at full_release_tags_and_versions node with
            | Some version => Some (Some version)
            | None =>
                bfs full_release_tags_and_versions fuel'
                  (node :: visited) (q' ++ parents node)
            end
      end
  end.

(** Number of commit nodes below (and including) a commit, with
    multiplicity: a bound on the number of [bfs] calls. *)
Fixpoint commit_size (c : Commit) : nat :=
  match c with
  | mkCommit _ _ _ _ _ ps =>
      S ((fix sizes (l : list Commit) : nat :=
            match l with
            | [] => 0
            | p :: l' => commit_size p + sizes l'
            end) ps)
  end.


(** The recursion is given as many calls as there are commit nodes below
    the merge base, which always suffices; the interpreter's recursion
    limit is left out. *)
Definition _bfs_for_latest_version_in_history (merge_base : Commit)
    (full_release_tags_and_versions : list (Tag.t * Version))
  : option Version :=
  match bfs full_release_tags_and_versions (S (commit_size merge_base))
          [] [merge_base] with
  | Some r => r
  | None => None
  end.

(** *** [_increment_version] *)

(** [latest_version.prerelease_token] *)
Definition token_of (v : Version) : option string := prerelease_token v.

(** [latest_version.prerelease_revision or 0] *)
Definition revision_or_0 (v : Version) : N :=
  match prerelease_revision v with
  | Some r => r
  | None => 0
  end.

Definition _increment_version
    (latest_version latest_full_version latest_full_version_in_history : Version)
    (level_bump : LevelBump.t) (prerelease : bool) (prerelease_token : string)
    (major_on_zero : bool) : Version :=
  let level_bump :=
    if negb major_on_zero && N.eqb (major latest_version) 0
    then LevelBump.min level_bump MINOR
    else level_bump in
  if prerelease then
    let target_final_version := finalize_version latest_full_version in
    let diff_with_last_released_version :=
      version_sub latest_version latest_full_version_in_history in
    (* 6a i) if the level_bump > the level bump introduced by any
       prerelease tag before *)
    if LevelBump.ltb diff_with_last_released_version level_bump then
      to_prerelease (bump target_final_version level_bump)
        prerelease_token None
    else
      (* 6a ii) if level_bump <= the level bump introduced by prerelease tag *)
      to_prerelease latest_version prerelease_token
        (Some (if negb (option_eqb String.eqb
                          (token_of latest_version) (Some prerelease_token))
               then 1%N
               else (revision_or_0 latest_version + 1)%N))
  else
    (* 6b. i) if there's been a prerelease *)
    if is_prerelease latest_version then
      let diff_with_last_released_version :=
        version_sub latest_version latest_full_version_in_history in
      if LevelBump.ltb diff_with_last_released_version level_bump then
        finalize_version (bump latest_version level_bump)
      else finalize_version latest_version
    else
      (* 6b. ii) If there's been no prerelease *)
      bump latest_version level_bump.

(** *** The [Repo] capability *)

(** What the core consumes from Git: the tags, the active branch,
    [merge_base(a, b)] (zero, one or more commits) and [iter_commits(rev)],
    the commits of a revision range newest first ([None]: everything
    reachable from the head). *)
Record Repo : Type := mkRepo {
  tags : list Tag.t;
  active_branch : string;
  merge_base : string -> string -> list (option Commit);
  iter_commits : option string -> list Commit
}.

(** [[(t, v) for t, v in tvs if not v.is_prerelease]]: evaluating
    [v.is_prerelease] on a tag that did not translate raises. *)
Fixpoint full_releases (tvs : list (Tag.t * option Version))
  : result (list (Tag.t * Version)) :=
  match tvs with
  | [] => Ok []
  | (t, None) :: _ =>
      Raise (AttributeError "'NoneType' object has no attribute 'is_prerelease'")
  | (t, Some v) :: tvs' =>
      r <- full_releases tvs' ;;
      Ok (if negb (is_prerelease v) then (t, v) :: r else r)
  end.

(** Once every [v.is_prerelease] has been evaluated, each pair carries a
    version. *)
Fixpoint with_versions (tvs : list (Tag.t * option Version))
  : list (Tag.t * Version) :=
  match tvs with
  | [] => []
  | (t, Some v) :: tvs' => (t, v) :: with_versions tvs'
  | (t, None) :: tvs' => with_versions tvs'
  end.

(** [parsed_levels.add(level)] on a set. *)
Definition set_add (l : LevelBump.t) (s : list LevelBump.t)
  : list LevelBump.t :=
  if existsb (LevelBump.eqb l) s then s else s ++ [l].

Section NextVersion.

Variable repo : Repo.
Variable translator : VersionTranslator.
Variable commit_parser : Commit -> result ParseResult.
Variable prerelease : bool.
Variable major_on_zero : bool.

(** The loop over [commits_since_last_full_release]: the levels parsed so
    far and the latest version; the first commit a qualifying tag points
    at ends the walk. *)
Fixpoint walk_commits (all_git_tags_as_versions : list (Tag.t * Version))
    (commits : list Commit) (parsed_levels : list LevelBump.t)
    (latest_version : Version) : result (list LevelBump.t * Version) :=
  match commits with
  | [] => Ok (parsed_levels, latest_version)
  | commit :: commits' =>
      parse_result <- commit_parser commit ;;
      let parsed_levels :=
        match parse_result with
        | Parsed p => set_add (ParsedCommit.bump p) parsed_levels
        | Failed _ => parsed_levels
        end in
      match
        first_tag_at
          (filter (fun tv => prerelease || negb (is_prerelease (snd tv)))
             all_git_tags_as_versions)
          commit
      with
      | Some version => Ok (parsed_levels, version)
      | None =>
          walk_commits all_git_tags_as_versions commits' parsed_levels
            latest_version
      end
  end.

Definition next_version : result Version :=
  (* Step 1. All tags, sorted descending by semver ordering rules *)
  all_git_tags_as_versions <- tags_and_versions (tags repo) translator ;;
  all_full_release_tags_and_versions <- full_releases all_git_tags_as_versions ;;
  (* Default initial version of 0.0.0 *)
  default <- from_string translator "0.0.0" ;;
  let '(latest_full_release_tag, latest_full_release_version) :=
    match all_full_release_tags_and_versions with
    | (t, v) :: _ => (Some t, v)
    | [] => (None, default)
    end in
  let merge_bases :=
    match latest_full_release_tag with
    | None => merge_base repo (active_branch repo) (active_branch repo)
    | Some tag => merge_base repo (Tag.name tag) (active_branch repo)
    end in
  if (1 <? List.length merge_bases)%nat then
    Raise (NotImplementedError
             "This branch has more than one merge-base with the latest version, which is not yet supported")
  else
    match merge_bases with
    | [] => Raise (IndexError "list index out of range")
    | None :: _ => Raise (ValueError "The merge_base found is None")
    | Some merge_base :: _ =>
        let latest_full_version_in_history :=
          _bfs_for_latest_version_in_history merge_base
            all_full_release_tags_and_versions in
        let commits_since_last_full_release :=
          match latest_full_version_in_history with
          | None => iter_commits repo None
          | Some v => iter_commits repo (Some (str_to_tag translator v ++ "...")%string)
          end in
        (* Step 4. Parse each commit since the last release and find any
           tags that have been added since then. *)
        let latest_version :=
          match latest_full_version_in_history with
          | Some v => v
          | None => Version_init 0 0 0 (translator_prerelease_token translator)
          end in
        '(parsed_levels, latest_version) <-
          walk_commits (with_versions all_git_tags_as_versions)
            commits_since_last_full_release [] latest_version ;;
        let level_bump := LevelBump.max_default parsed_levels NO_RELEASE in
        if LevelBump.eqb level_bump NO_RELEASE then Ok latest_version
        else
          Ok (_increment_version
                latest_version
                latest_full_release_version
                match latest_full_version_in_history with
                | Some v => v
                | None =>
                    Version_init 0 0 0 (translator_prerelease_token translator)
                end
                level_bump prerelease
                (translator_prerelease_token translator)
                major_on_zero)
    end.

End NextVersion.

(** ** [semantic_release/changelog/release_history.py] *)

(** [datetime.fromtimestamp(ts, tz=timezone(timedelta(seconds=offset)))] *)
Record datetime : Type := mkDatetime {
  timestamp : Z;
  utcoffset : Z
}.

(** [timezone] accepts offsets strictly between -24h and 24h only. *)
Definition fromtimestamp (ts offset : Z) : result datetime :=
  if ((-86400 <? offset) && (offset <? 86400))%Z
  then Ok (mkDatetime ts offset)
  else Raise (ValueError "offset must be a timedelta strictly between -timedelta(hours=24) and timedelta(hours=24)").

(** [dict[str, list[ParseResult]]] built through [defaultdict(list)];
    Python dictionaries keep insertion order. *)
Definition elements_t : Type := list (string * list ParseResult).

Module Release.
Record t : Type := mk {
  tagger : Actor;
  committer : Actor;
  tagged_date : datetime;
  elements : elements_t
}.
End Release.

Record ReleaseHistory : Type := mkReleaseHistory {
  unreleased : elements_t;
  released : list (Version * Release.t)
}.

(** [d[commit_type].append(parse_result)] on a [defaultdict(list)] *)
Fixpoint bucket_append (commit_type : string) (parse_result : ParseResult)
    (d : elements_t) : elements_t :=
  match d with
  | [] => [(commit_type, [parse_result])]
  | (k, l) :: d' =>
      if String.eqb k commit_type then (k, l ++ [parse_result]) :: d'
      else (k, l) :: bucket_append commit_type parse_result d'
  end.

(** [released.setdefault(the_version, release)] *)
Fixpoint setdefault (the_version : Version) (release : Release.t)
    (released : list (Version * Release.t)) : list (Version * Release.t) :=
  match released with
  | [] => [(the_version, release)]
  | (v, r) :: released' =>
      if version_eqb v the_version then (v, r) :: released'
      else (v, r) :: setdefault the_version release released'
  end.

(** [released[the_version]["elements"][commit_type].append(parse_result)] *)
Fixpoint released_append (the_version : Version) (commit_type : string)
    (parse_result : ParseResult) (released : list (Version * Release.t))
  : result (list (Version * Release.t)) :=
  match released with
  | [] => Raise (KeyError "the_version")
  | (v, r) :: released' =>
      if version_eqb v the_version then
        Ok ((v, Release.mk (Release.tagger r) (Release.committer r)
                  (Release.tagged_date r)
                  (bucket_append commit_type parse_result (Release.elements r)))
            :: released')
      else
        (rest <- released_append the_version commit_type parse_result released' ;;
         Ok ((v, r) :: rest))
  end.

(** [for tag, version in tvs: if tag.commit == commit: ...; break] *)
Fixpoint first_tag_and_version {V : Type} (tvs : list (Tag.t * V))
    (commit : Commit) : option (Tag.t * V) :=
  match tvs with
  | [] => None
  | (tag, version) :: tvs' =>
      if commit_eqb (Tag.commit tag) commit then Some (tag, version)
      else first_tag_and_version tvs' commit
  end.

Definition commit_type_of (parse_result : ParseResult) : string :=
  match parse_result with
  | Failed _ => "unknown"
  | Parsed p => ParsedCommit.type p
  end.

Section ReleaseHistory.

(** [Actor.committer()]: the committer of the Git configuration. *)
Variable configured_committer : Actor.
Variable translator : VersionTranslator.
Variable commit_parser : Commit -> result ParseResult.

(** The [Release] entry created for a tag. *)
Definition new_release (tag : Tag.t) : result Release.t :=
  match Tag.object tag with
  | TagObject tagger tagger_tz_offset tagged_date _ =>
      d <- fromtimestamp tagged_date tagger_tz_offset ;;
      Ok (Release.mk tagger configured_committer d [])
  | CommitObject c =>
      (* For some reason, sometimes tag.object is a Commit *)
      d <- fromtimestamp (committed_date c) (author_tz_offset c) ;;
      Ok (Release.mk (author c) (author c) d [])
  end.

(** The loop over [repo.iter_commits()], with its four variables. *)
Fixpoint history_loop (all_git_tags_and_versions : list (Tag.t * option Version))
    (commits : list Commit) (is_commit_released : bool)
    (the_version : option Version)
    (unreleased : elements_t) (released : list (Version * Release.t))
  : result ReleaseHistory :=
  match commits with
  | [] => Ok (mkReleaseHistory unreleased released)
  | commit :: commits' =>
      parse_result <- commit_parser commit ;;
      let commit_type := commit_type_of parse_result in
      '(is_commit_released, the_version, released) <-
        match first_tag_and_version all_git_tags_and_versions commit with
        | Some (tag, version) =>
            (* we have found the latest commit introduced by this tag
               so we create a new Release entry *)
            release <- new_release tag ;;
            match version with
            | Some v => Ok (true, Some v, setdefault v release released)
            | None => Raise (RuntimeError "expected a version to be found")
            end
        | None => Ok (is_commit_released, the_version, released)
        end ;;
      if negb is_commit_released then
        history_loop all_git_tags_and_versions commits' is_commit_released
          the_version (bucket_append commit_type parse_result unreleased)
          released
      else
        match the_version with
        | None => Raise (RuntimeError "expected a version to be found")
        | Some v =>
            released <- released_append v commit_type parse_result released ;;
            history_loop all_git_tags_and_versions commits'
              is_commit_released the_version unreleased released
        end
  end.

Definition release_history (repo : Repo) : result ReleaseHistory :=
  all_git_tags_and_versions <- tags_and_versions (tags repo) translator ;;
  history_loop all_git_tags_and_versions (iter_commits repo None)
    false None [] [].

End ReleaseHistory.

(** ** [semantic_release/hvcs/_base.py] and [gitlab.py] *)

(** Values the HVCS operations return. *)
Inductive py_value : Type :=
| PyNone
| PyBool (b : bool)
| PyInt (z : Z)
| PyStr (s : string).

(** An operation's outcome: the value returned and the warnings issued
    through [warnings.warn]. *)
Definition outcome : Type := (py_value * list string)%type.

(** The decorator: whatever the wrapped method and its arguments, warn
    and return [True]. *)
Definition _not_supported (method_name : string) (self_qualname : string)
  : outcome :=
  (PyBool true,
   [(method_name ++ " is not supported by " ++ self_qualname)%string]).

(** The optional operations of [HvcsBase]. *)
Inductive operation : Type :=
| Op_compare_url | Op_check_build_status | Op_upload_dists | Op_create_release
| Op_get_release_id_by_tag | Op_edit_release_changelog
| Op_create_or_update_release | Op_asset_upload_url | Op_upload_asset
| Op_remote_url | Op_commit_hash_url | Op_pull_request_url.

(** [method.__name__] *)
Definition operation_name (op : operation) : string :=
  match op with
  | Op_compare_url => "compare_url"
  | Op_check_build_status => "check_build_status"
  | Op_upload_dists => "upload_dists"
  | Op_create_release => "create_release"
  | Op_get_release_id_by_tag => "get_release_id_by_tag"
  | Op_edit_release_changelog => "edit_release_changelog"
  | Op_create_or_update_release => "create_or_update_release"
  | Op_asset_upload_url => "asset_upload_url"
  | Op_upload_asset => "upload_asset"
  | Op_remote_url => "remote_url"
  | Op_commit_hash_url => "commit_hash_url"
  | Op_pull_request_url => "pull_request_url"
  end.

Module HvcsBase.

(** Every optional operation of the base class is decorated with
    [@_not_supported]; [qualname] is [type(self).__qualname__]. *)
Definition call (qualname : string) (op : operation) : outcome :=
  _not_supported (operation_name op) qualname.

End HvcsBase.

Module Gitlab.

Record t : Type := mk {
  _remote_url : string;
  hvcs_domain : string;
  token : option string;
  owner : string;
  repo_name : string
}.

(** A pipeline job as [check_build_status] reads it. *)
Record job : Type := mkJob {
  job_name : string;
  status : string;
  allow_failure : bool
}.

(** [check_build_status], on the statuses the remote lists for the
    commit: [False] at the first pending job or failed job that may not
    fail, [True] otherwise. *)
Fixpoint check_build_status (jobs : list job) : bool :=
  match jobs with
  | [] => true
  | j :: jobs' =>
      if String.eqb (status j) "pending" then false
      else if String.eqb (status j) "failed" && negb (allow_failure j)
      then false
      else check_build_status jobs'
  end.

(** [create_release]: [True] when the remote created the release,
    [False] on [GitlabCreateError]. *)
Definition create_release (created : bool) : bool :=
  if created then true else false.

Definition remote_url (self : t) (use_token : bool) : string :=
  if negb (truthy_str (token self) && use_token) then _remote_url self
  else ("https://gitlab-ci-token:" ++ or_empty (token self) ++ "@"
        ++ hvcs_domain self ++ "/" ++ owner self ++ "/" ++ repo_name self
        ++ ".git")%string.

Definition commit_hash_url (self : t) (commit_hash : string) : string :=
  ("https://" ++ hvcs_domain self ++ "/" ++ owner self ++ "/"
   ++ repo_name self ++ "/-/commit/" ++ commit_hash)%string.

Definition pull_request_url (self : t) (pr_number : string) : string :=
  ("https://" ++ hvcs_domain self ++ "/" ++ owner self ++ "/"
   ++ repo_name self ++ "/-/issues/" ++ pr_number)%string.

(** What the remote answers, and the argument of the call. *)
Record request : Type := mkRequest {
  jobs : list job;
  created : bool;
  use_token : bool;
  arg : string
}.

(** The client: five operations are overridden, the others are the
    decorated ones inherited from the base class. *)
Definition call (self : t) (rq : request) (op : operation) : outcome :=
  match op with
  | Op_check_build_status => (PyBool (check_build_status (jobs rq)), [])
  | Op_create_release => (PyBool (create_release (created rq)), [])
  | Op_remote_url => (PyStr (remote_url self (use_token rq)), [])
  | Op_commit_hash_url => (PyStr (commit_hash_url self (arg rq)), [])
  | Op_pull_request_url => (PyStr (pull_request_url self (arg rq)), [])
  | _ => HvcsBase.call "Gitlab" op
  end.

End Gitlab.

(** ** [semantic_release/errors.py] and [semantic_release/cli/config.py] *)

(** The exceptions the configuration code raises: [InvalidConfiguration]
    and [NotAReleaseBranch] of [errors.py], and the
    [ImproperConfigurationError] that [repository.py] imports from the
    package.  [NotAReleaseBranch] carries the branch its message is built
    from ([branch ... isn't in any release groups; no release will be
    made]).  Logging is not modelled. *)
Inductive config_error : Type :=
| InvalidConfiguration (msg : string)
| NotAReleaseBranch (active_branch : string)
| ImproperConfigurationError (msg : string).

Module BranchConfig.

(** [match] is the compiled pattern of the configured string. *)
Record t : Type := mk {
  match_ : Re.regex;
  prerelease_token : string;
  prerelease : bool
}.

(** [BranchConfig()]: [match = "(main|master)"]. *)
Definition default : t :=
  mk (Re.Group "1" (Re.Alts ["main"; "master"])) "rc" false.

End BranchConfig.

(** [RuntimeContext.select_branch_options]: [choices] is the dictionary
    of release groups in insertion order. *)
Fixpoint select_branch_options (choices : list (string * BranchConfig.t))
    (active_branch : string) : BranchConfig.t + config_error :=
  match choices with
  | [] => inr (NotAReleaseBranch active_branch)
  | (group, options) :: choices' =>
      match Re.re_match (BranchConfig.match_ options) active_branch with
      | Some _ => inl options
      | None => select_branch_options choices' active_branch
      end
  end.

(** ** [semantic_release/repository.py] *)

Module ArtifactRepo.

Record t : Type := mk {
  repository_name : string;
  repository_url : option string;
  repository_url_var : option string;
  username : option string;
  password : option string;
  dists : list string;
  dist_glob_patterns : string
}.

Section Init.

(** [os.getenv], whether [~/.pypirc] exists, and
    [str(dist_path.joinpath(pattern))]. *)
Variable getenv : string -> option string.
Variable pypirc_exists : bool.
Variable joinpath : string -> string -> string.

Definition _handle_credentials_init (self : t) : t + config_error :=
  if truthy_str (username self) && truthy_str (password self) then inl self
  else if truthy_str (password self) && negb (truthy_str (username self)) then
    inl (mk (repository_name self) (repository_url self)
           (repository_url_var self)
           (if truthy_str (username self) then username self
            else Some "__token__")
           (password self) (dists self) (dist_glob_patterns self))
  (* neither username nor password provided, check for ~/.pypirc file *)
  else if negb pypirc_exists then
    inr (ImproperConfigurationError
           "Missing credentials for uploading to artifact repository")
  else inl self.

Definition _handle_glob_patterns (self : t) (dist_path : string) : t :=
  let glob_patterns := py_split (dist_glob_patterns self) "," in
  mk (repository_name self) (repository_url self) (repository_url_var self)
    (username self) (password self)
    (map (joinpath dist_path) glob_patterns) (dist_glob_patterns self).

Definition _handle_repository_config (self : t)
    (repository_url_var repository_url : option string) (repository : string)
  : t :=
  if negb (truthy_str repository_url) && truthy_str repository_url_var then
    mk (repository_name self) (getenv (or_empty repository_url_var))
      (ArtifactRepo.repository_url_var self) (username self) (password self)
      (dists self) (dist_glob_patterns self)
  else if truthy_str (Some repository) then
    mk repository (ArtifactRepo.repository_url self)
      (ArtifactRepo.repository_url_var self) (username self) (password self)
      (dists self) (dist_glob_patterns self)
  else self.

Definition __post_init__ (self : t) (dist_path : string) : t + config_error :=
  match _handle_credentials_init self with
  | inr e => inr e
  | inl self =>
      let self :=
        _handle_repository_config self (repository_url_var self)
          (repository_url self) (repository_name self) in
      inl (_handle_glob_patterns self dist_path)
  end.

(** [upload_enabled(upload_to_repository, upload_to_pypi)] *)
Definition upload_enabled (upload_to_repository upload_to_pypi : bool) : bool :=
  upload_to_repository && upload_to_pypi.

End Init.

End ArtifactRepo.

(** ** The scenarios of the specification *)

Module Scenario.

Definition nl2 : string := String Re.newline (String Re.newline "").

Definition commit (sha msg : string) (ps : list Commit) : Commit :=
  mkCommit sha msg "dev" 0 0 ps.

Definition lightweight (name : string) (c : Commit) : Tag.t :=
  Tag.mk name (CommitObject c).

Definition angular : Commit -> result ParseResult :=
  AngularCommitParser.parse Util.parse_paragraphs Util.breaking_re_match
    AngularCommitParser.default_options.

(** A linear history on branch [main]: [history] lists its commits newest
    first, [tagged] is the commit the latest full release [tag] points at
    (an ancestor of the head, hence the merge base of the two) and [since]
    are the commits of the range [tag...], those after [tagged]. *)
Definition linear_repo (all_tags : list Tag.t) (tag : string)
    (tagged : Commit) (history since : list Commit) : Repo :=
  mkRepo all_tags "main"
    (fun a b =>
       if String.eqb a tag && String.eqb b "main" then [Some tagged]
       else if String.eqb a "main" && String.eqb b "main"
       then [hd None (map Some history)]
       else [])
    (fun rev =>
       match rev with
       | None => history
       | Some r => if String.eqb r (tag ++ "...") then since else []
       end).

(** Scenario 1: [feat: A], [fix: B], [feat!: C] on top of [v1.2.3]. *)
Definition s1_base : Commit := commit "c0" "chore: release 1.2.3" [].
Definition s1_a : Commit := commit "c1" "feat: A" [s1_base].
Definition s1_b : Commit := commit "c2" "fix: B" [s1_a].
Definition s1_c : Commit := commit "c3" "feat!: C" [s1_b].
Definition s1_repo : Repo :=
  linear_repo [lightweight "v1.2.3" s1_base] "v1.2.3" s1_base
    [s1_c; s1_b; s1_a; s1_base] [s1_c; s1_b; s1_a].

(** Scenario 4: prerelease branch (token [rc]) at [v1.2.4-rc.1], the last
    full release being [v1.2.3]; then one more commit. *)
Definition s4_base : Commit := commit "d0" "chore: release 1.2.3" [].
Definition s4_rc : Commit := commit "d1" "fix: P" [s4_base].
Definition s4_next (msg : string) : Commit := commit "d2" msg [s4_rc].
Definition s4_repo (msg : string) : Repo :=
  linear_repo
    [lightweight "v1.2.3" s4_base; lightweight "v1.2.4-rc.1" s4_rc]
    "v1.2.3" s4_base
    [s4_next msg; s4_rc; s4_base] [s4_next msg; s4_rc].


(** A history with a merge: [m0] merges [m1] and [m2], which both grew
    from [m3], the child of the released [m4]. *)
Definition m4 : Commit := commit "m4" "chore: release 1.0.0" [].
Definition m3 : Commit := commit "m3" "fix: base" [m4].
Definition m2 : Commit := commit "m2" "fix: right" [m3].
Definition m1 : Commit := commit "m1" "feat: left" [m3].
Definition m0 : Commit := commit "m0" "Merge branch" [m1; m2].
Definition merge_tags : list (Tag.t * Version) :=
  [(lightweight "v1.0.0" m4, full_version 1 0 0)].

(** Scenario 6: [feat: a], [fix: b], [docs: c] between [v1.0.0] and
    [v1.1.0], then [feat: d]. *)
Definition s6_0 : Commit := commit "f0" "chore: first" [].
Definition s6_a : Commit := commit "f1" "feat: a" [s6_0].
Definition s6_b : Commit := commit "f2" "fix: b" [s6_a].
Definition s6_c : Commit := commit "f3" "docs: c" [s6_b].
Definition s6_d : Commit := commit "f4" "feat: d" [s6_c].
Definition s6_repo : Repo :=
  linear_repo [lightweight "v1.0.0" s6_0; lightweight "v1.1.0" s6_c]
    "v1.1.0" s6_c [s6_d; s6_c; s6_b; s6_a; s6_0] [s6_d].

(** The history [release_history] computes for scenario 6. *)
Definition s6_history : ReleaseHistory :=
  Eval vm_compute in
    match release_history "release-bot" Translator.default angular s6_repo with
    | Ok h => h
    | Raise _ => mkReleaseHistory [] []
    end.

(** The buckets of a dictionary as types and commit messages. *)
Definition summary (d : elements_t) : list (string * list string) :=
  map (fun kv =>
         (fst kv,
          map (fun r => match r with
                        | Parsed p => message (ParsedCommit.commit p)
                        | Failed e => message (ParseError.commit e)
                        end) (snd kv))) d.

End Scenario.

(** Further cases the properties below are run on. *)
Module Cases.

(** A release without release-worthy commits after it. *)
Definition d1 : Commit :=
  Scenario.commit "g1" "docs: readme" [Scenario.s6_0].
Definition docs_repo : Repo :=
  Scenario.linear_repo [Scenario.lightweight "v1.0.0" Scenario.s6_0] "v1.0.0"
    Scenario.s6_0 [d1; Scenario.s6_0] [d1].


(** A repository whose only tag is not a version tag. *)
Definition nightly_repo : Repo :=
  Scenario.linear_repo [Scenario.lightweight "nightly" Scenario.m0] "nightly"
    Scenario.m0 [Scenario.m0] [].

(** A commit in the style of the legacy tag parser. *)
Definition sparkles : Commit :=
  Scenario.commit "t1" ":sparkles: add parser" [].

(** The three commits of scenario 1 made in the other order: the breaking
    change first, the feature last. *)
Definition o_c : Commit := Scenario.commit "o1" "feat!: C" [Scenario.s1_base].
Definition o_b : Commit := Scenario.commit "o2" "fix: B" [o_c].
Definition o_a : Commit := Scenario.commit "o3" "feat: A" [o_b].

(** Commits with a body. *)
Definition with_trailer : Commit :=
  Scenario.commit "w1"
    ("fix: drop the old API" ++ Scenario.nl2
     ++ "BREAKING CHANGE: no more v1")%string [].
Definition sparkles_with_trailer : Commit :=
  Scenario.commit "w2"
    (":sparkles: new api" ++ Scenario.nl2
     ++ "BREAKING CHANGE: old api removed")%string [].

End Cases.

(** ** Specification predicates *)

(** [a] is [c] or one of its ancestors. *)
Inductive ancestor_or_self (a : Commit) : Commit -> Prop :=
| aos_self : ancestor_or_self a a
| aos_parent (p c : Commit) :
    In p (parents c) -> ancestor_or_self a p -> ancestor_or_self a c.

(** [needle] occurs in [s]. *)
Definition contains (needle s : string) : Prop :=
  exists a b : string, s = (a ++ needle ++ b)%string.

(** The parse results held by a dictionary of buckets, by a dictionary
    of releases, and by a whole history. *)
Definition entries (d : elements_t) : list ParseResult := flat_map snd d.

Definition released_entries (released : list (Version * Release.t))
  : list ParseResult :=
  flat_map (fun vr => entries (Release.elements (snd vr))) released.

Definition all_entries (h : ReleaseHistory) : list ParseResult :=
  entries (unreleased h) ++ released_entries (released h).

(** Bucket keys are distinct and every result sits under its own type. *)
Definition good_elements (d : elements_t) : Prop :=
  NoDup (map fst d)
  /\ forall k l x, In (k, l) d -> In x l -> commit_type_of x = k.

Definition good_released (released : list (Version * Release.t)) : Prop :=
  NoDup (map fst released)
  /\ forall v r, In (v, r) released -> good_elements (Release.elements r).

(** The commits the walk meets before the first commit a tag points at. *)
Fixpoint before_first_tag {V : Type} (tvs : list (Tag.t * V))
    (commits : list Commit) : list Commit :=
  match commits with
  | [] => []
  | c :: commits' =>
      match first_tag_and_version tvs c with
      | Some _ => []
      | None => c :: before_first_tag tvs commits'
      end
  end.

(** A three-way comparison that behaves as a total preorder. *)
Definition good_cmp {A : Type} (cmp : A -> A -> comparison) : Prop :=
  (forall a b, cmp b a = CompOpp (cmp a b))
  /\ (forall a b c, cmp a b = Lt -> cmp b c = Lt -> cmp a c = Lt)
  /\ (forall a b c, cmp a b = Eq -> cmp a c = cmp b c).

(** The pair carries a version. *)
Definition has_version (tv : Tag.t * option Version) : Prop :=
  snd tv <> None.

(** [p] is not below [q] in precedence. *)
Definition not_below (p q : Tag.t * option Version) : Prop :=
  match snd p, snd q with
  | Some x, Some y => version_ltb x y = false
  | _, _ => False
  end.

Definition descending (l : list (Tag.t * option Version)) : Prop :=
  StronglySorted not_below l.

Definition ascending (l : list (Tag.t * option Version)) : Prop :=
  StronglySorted (fun p q => not_below q p) l.

(** *** Predicates of the further properties *)




(** The version the walk of [next_version] starts from or stops at: the
    initial [0.0.0-token], or the version of one of the repository's tags. *)
Definition known_version (repo : Repo) (translator : VersionTranslator)
    (v : Version) : Prop :=
  v = Version_init 0 0 0 (translator_prerelease_token translator)
  \/ exists tag, In tag (tags repo)
       /\ from_tag translator (Tag.name tag) = Some v.

(** The levels of the commits that parsed. *)
Definition parsed_bumps (results : list ParseResult) : list LevelBump.t :=
  flat_map (fun r => match r with
                     | Parsed p => [ParsedCommit.bump p]
                     | Failed _ => []
                     end) results.

(** The release was created for a tag that carries version [v] and points
    at one of [commits]: its tagger, committer and date are those
    [new_release] reads off the tag. *)
Definition release_of_tag (configured_committer : Actor)
    (tvs : list (Tag.t * option Version)) (commits : list Commit)
    (v : Version) (r : Release.t) : Prop :=
  exists tag c r0,
    In (tag, Some v) tvs /\ In c commits
    /\ commit_eqb (Tag.commit tag) c = true
    /\ new_release configured_committer tag = Ok r0
    /\ Release.tagger r = Release.tagger r0
    /\ Release.committer r = Release.committer r0
    /\ Release.tagged_date r = Release.tagged_date r0.

(** Every character of the string satisfies [p]. *)
Fixpoint string_forall (p : ascii -> bool) (s : string) : bool :=
  match s with
  | EmptyString => true
  | String c s' => p c && string_forall p s'
  end.

(** The pattern matches a front of the string. *)
Definition matches_front_of (r : Re.regex) (s : string) : Prop :=
  exists s' g', Re.matches r s [] s' g'.

(** * Properties *)

(** ** LevelBump *)

Lemma rank_inj a b : LevelBump.rank a = LevelBump.rank b -> a = b.
Proof. destruct a, b; simpl; congruence. Qed.

Lemma LevelBump_eqb_eq a b : LevelBump.eqb a b = true <-> a = b.
Proof.
  unfold LevelBump.eqb. rewrite Nat.eqb_eq.
  split; [apply rank_inj | now intros ->].
Qed.


(** ** Version.bump *)

Lemma compare_core_bump_major v : compare_core (bump_major v) v = Gt.
Proof.
  unfold compare_core, bump_major; simpl.
  replace (major v + 1 ?= major v)%N with Gt; [reflexivity|].
  symmetry; apply N.compare_gt_iff; lia.
Qed.

Lemma compare_core_bump_minor v : compare_core (bump_minor v) v = Gt.
Proof.
  unfold compare_core, bump_minor; simpl.
  rewrite N.compare_refl; simpl.
  replace (minor v + 1 ?= minor v)%N with Gt; [reflexivity|].
  symmetry; apply N.compare_gt_iff; lia.
Qed.

Lemma compare_core_bump_patch v : compare_core (bump_patch v) v = Gt.
Proof.
  unfold compare_core, bump_patch; simpl.
  rewrite !N.compare_refl; simpl.
  apply N.compare_gt_iff; lia.
Qed.

Lemma bump_unfold v level :
  bump v level =
  match level with
  | NO_RELEASE => v
  | PATCH => bump_patch v
  | MINOR => bump_minor v
  | MAJOR => bump_major v
  end.
Proof.
  unfold bump, bump_full. rewrite andb_false_r. now destruct level.
Qed.

(** C8: bumping by a level above NO_RELEASE gives a version strictly above
    the original in SemVer precedence, and bumping by NO_RELEASE gives back
    an equal version. *)
Theorem bump_increases (v : Version) (level : LevelBump.t) :
  (LevelBump.ltb NO_RELEASE level = true ->
   version_compare (bump v level) v = Gt /\ version_gtb (bump v level) v = true)
  /\ bump v NO_RELEASE = v.
Proof.
  split; [|reflexivity].
  intros Hlevel. unfold version_gtb, version_compare.
  rewrite bump_unfold.
  destruct level; try discriminate Hlevel.
  - now rewrite compare_core_bump_patch.
  - now rewrite compare_core_bump_minor.
  - now rewrite compare_core_bump_major.
Qed.

Lemma bump_increases_witness :
  LevelBump.ltb NO_RELEASE MINOR = true
  /\ version_compare (bump (full_version 1 2 3) MINOR) (full_version 1 2 3) = Gt.
Proof.
  split; [reflexivity|].
  apply (proj1 (bump_increases (full_version 1 2 3) MINOR)). reflexivity.
Defined.

(** ** _increment_version *)

Lemma option_eqb_string_eq (a b : option string) :
  option_eqb String.eqb a b = true <-> a = b.
Proof.
  destruct a as [x|], b as [y|]; simpl; try (split; congruence).
  rewrite String.eqb_eq. split; congruence.
Qed.



(** C4: prerelease mode.  With [eff] the level after the major_on_zero
    clamp and [diff] the difference between the latest version and the
    latest full version in history: when [eff] does not exceed [diff] the
    core of the latest version is kept, the token becomes the configured
    one, and the revision is 1 when the latest version's token differs from
    the configured one and the previous revision plus 1 otherwise; when
    [eff] exceeds [diff] the result is the finalized latest full version
    bumped by [eff], with the configured token at revision 1.  From
    v1.2.4-rc.1 a fix gives 1.2.4-rc.2 and a feat 1.3.0-rc.1. *)
Theorem prerelease_increment
    (lv lf lfh : Version) (lb : LevelBump.t) (tok : string) (moz : bool) :
  let eff :=
    if negb moz && N.eqb (major lv) 0 then LevelBump.min lb MINOR else lb in
  let diff := version_sub lv lfh in
  let r := _increment_version lv lf lfh lb true tok moz in
  (LevelBump.ltb diff eff = false ->
   (major r, minor r, patch r) = (major lv, minor lv, patch lv)
   /\ prerelease_token r = Some tok
   /\ (prerelease_token lv <> Some tok -> prerelease_revision r = Some 1%N)
   /\ (prerelease_token lv = Some tok ->
       prerelease_revision r = Some (revision_or_0 lv + 1)%N)
   /\ (forall n, prerelease_token lv = Some tok ->
       prerelease_revision lv = Some n ->
       prerelease_revision r = Some (n + 1)%N))
  /\ (LevelBump.ltb diff eff = true ->
      r = to_prerelease (bump (finalize_version lf) eff) tok (Some 1%N)
      /\ (major r, minor r, patch r) =
         match eff with
         | MAJOR => (major lf + 1, 0, 0)%N
         | MINOR => (major lf, minor lf + 1, 0)%N
         | PATCH => (major lf, minor lf, patch lf + 1)%N
         | NO_RELEASE => (major lf, minor lf, patch lf)
         end
      /\ prerelease_token r = Some tok
      /\ prerelease_revision r = Some 1%N)
  /\ next_version (Scenario.s4_repo "fix: Q") Translator.default
       Scenario.angular true true
     = Ok (mkVersion 1 2 4 (Some "rc") (Some 2%N) None)
  /\ next_version (Scenario.s4_repo "feat: Q") Translator.default
       Scenario.angular true true
     = Ok (mkVersion 1 3 0 (Some "rc") (Some 1%N) None).
Proof.
  intros eff diff r.
  split; [|split; [|split; reflexivity]].
  - intros Hle. subst r. unfold _increment_version.
    fold eff. fold diff. rewrite Hle. unfold token_of. simpl.
    split; [reflexivity|]. split; [reflexivity|].
    destruct (option_eqb String.eqb (prerelease_token lv) (Some tok)) eqn:E.
    + apply option_eqb_string_eq in E. simpl.
      split; [congruence|]. split; [reflexivity|].
      intros n _ Hn. unfold revision_or_0. now rewrite Hn.
    + simpl. split; [reflexivity|].
      assert (prerelease_token lv <> Some tok) as Hne.
      { intros H. apply option_eqb_string_eq in H. congruence. }
      split; [congruence|]. intros n H. congruence.
  - intros Hgt. subst r. unfold _increment_version.
    fold eff. fold diff. rewrite Hgt.
    split; [reflexivity|].
    rewrite bump_unfold. destruct eff; simpl; repeat split; reflexivity.
Qed.

Lemma prerelease_increment_witness :
  (LevelBump.ltb
     (version_sub (mkVersion 1 2 4 (Some "rc") (Some 1%N) None)
        (full_version 1 2 3)) PATCH = false
   /\ prerelease_revision
        (_increment_version (mkVersion 1 2 4 (Some "rc") (Some 1%N) None)
           (full_version 1 2 3) (full_version 1 2 3) PATCH true "rc" true)
      = Some 2%N)
  /\ (LevelBump.ltb
        (version_sub (mkVersion 1 2 4 (Some "rc") (Some 1%N) None)
           (full_version 1 2 3)) MINOR = true
      /\ _increment_version (mkVersion 1 2 4 (Some "rc") (Some 1%N) None)
           (full_version 1 2 3) (full_version 1 2 3) MINOR true "rc" true
         = mkVersion 1 3 0 (Some "rc") (Some 1%N) None).
Proof.
  split; (split; [reflexivity|]).
  - destruct (proj1 (prerelease_increment
                       (mkVersion 1 2 4 (Some "rc") (Some 1%N) None)
                       (full_version 1 2 3) (full_version 1 2 3)
                       PATCH "rc" true)
                eq_refl) as (_ & _ & _ & _ & H).
    apply (H 1%N); reflexivity.
  - apply (proj1 (proj1 (proj2 (prerelease_increment
                    (mkVersion 1 2 4 (Some "rc") (Some 1%N) None)
                    (full_version 1 2 3) (full_version 1 2 3)
                    MINOR "rc" true))
             eq_refl)).
Defined.

(** ** next_version *)

Lemma rank_max a b :
  LevelBump.rank (LevelBump.max a b)
  = Nat.max (LevelBump.rank a) (LevelBump.rank b).
Proof. now destruct a, b. Qed.

Lemma max_default_fold_ge (ls : list LevelBump.t) (l0 : LevelBump.t) :
  (LevelBump.rank l0 <= LevelBump.rank (fold_left LevelBump.max ls l0))%nat
  /\ forall l, In l ls ->
     (LevelBump.rank l <= LevelBump.rank (fold_left LevelBump.max ls l0))%nat.
Proof.
  revert l0. induction ls as [|x ls IH]; intros l0; simpl.
  - split; [lia | intros l []].
  - destruct (IH (LevelBump.max l0 x)) as [H1 H2].
    rewrite rank_max in H1. split; [lia|].
    intros l [<-|Hin]; [lia | now apply H2].
Qed.

(** [max(parsed_levels, default=...)] is an upper bound of the levels. *)
Lemma max_default_ge (levels : list LevelBump.t) (d l : LevelBump.t) :
  In l levels -> LevelBump.leb l (LevelBump.max_default levels d) = true.
Proof.
  destruct levels as [|l0 ls]; [intros []|]. simpl.
  destruct (max_default_fold_ge ls l0) as [H1 H2].
  unfold LevelBump.leb. rewrite Nat.leb_le.
  intros [<-|Hin]; auto.
Qed.

Lemma bfs_at_tagged tag v rest fuel :
  bfs ((tag, v) :: rest) (S fuel) [] [Tag.commit tag] = Some (Some v).
Proof.
  simpl. unfold commit_eqb. now rewrite String.eqb_refl.
Qed.

Lemma set_add_in l s x : In x (set_add l s) -> x = l \/ In x s.
Proof.
  unfold set_add. destruct (existsb _ s); [now right|].
  intros H. apply in_app_or in H. destruct H as [H|[<-|[]]]; auto.
Qed.

Lemma set_add_iff l s x : In x (set_add l s) <-> x = l \/ In x s.
Proof.
  split; [apply set_add_in|]. unfold set_add.
  destruct (existsb (LevelBump.eqb l) s) eqn:E.
  - intros [->|H]; [|exact H]. apply existsb_exists in E.
    destruct E as (y & Hy & Hly). apply LevelBump_eqb_eq in Hly. now subst.
  - intros [->|H]; apply in_or_app; [right; now left | now left].
Qed.

Lemma max_default_in levels d :
  levels <> [] -> In (LevelBump.max_default levels d) levels.
Proof.
  destruct levels as [|l0 ls]; [congruence|]. intros _. cbn [max_default].
  revert l0. induction ls as [|x ls IH]; intros l0; cbn [fold_left].
  - now left.
  - destruct (IH (LevelBump.max l0 x)) as [H|H].
    + unfold LevelBump.max in H at 1. destruct (LevelBump.ltb l0 x).
      * right. left. exact H.
      * left. exact H.
    + right. right. exact H.
Qed.

Lemma max_default_same_elements (xs ys : list LevelBump.t) d :
  (forall l, In l xs <-> In l ys) ->
  LevelBump.max_default xs d = LevelBump.max_default ys d.
Proof.
  intros H.
  destruct xs as [|a xs'] eqn:E1; destruct ys as [|b ys'] eqn:E2.
  - reflexivity.
  - exfalso. apply (proj2 (H b)). now left.
  - exfalso. apply (proj1 (H a)). now left.
  - rewrite <- E1, <- E2 in *.
    assert (N1 : xs <> []) by (rewrite E1; discriminate).
    assert (N2 : ys <> []) by (rewrite E2; discriminate).
    apply rank_inj. apply Nat.le_antisymm.
    + pose proof (max_default_in xs d N1) as Hin. apply H in Hin.
      apply (max_default_ge _ d) in Hin. unfold LevelBump.leb in Hin.
      now apply Nat.leb_le in Hin.
    + pose proof (max_default_in ys d N2) as Hin. apply H in Hin.
      apply (max_default_ge _ d) in Hin. unfold LevelBump.leb in Hin.
      now apply Nat.leb_le in Hin.
Qed.

(** The walk over commits none of which a counted tag points at: every
    commit is parsed, the latest version stays and the levels collected
    are those of the commits that parsed. *)
Lemma walk_commits_untagged commit_parser prerelease tvs commits :
  forall results levels lv,
  (forall c, In c commits ->
     first_tag_at
       (filter (fun tv => prerelease || negb (is_prerelease (snd tv))) tvs) c
     = None) ->
  Forall2 (fun c r => commit_parser c = Ok r) commits results ->
  exists levels',
    walk_commits commit_parser prerelease tvs commits levels lv
    = Ok (levels', lv)
    /\ forall l, In l levels' <-> In l levels \/ In l (parsed_bumps results).
Proof.
  induction commits as [|c commits IH]; intros results levels lv Hn HF;
    inversion HF as [|? r ? results' Hc HF']; subst; cbn [walk_commits].
  - exists levels. split; [reflexivity|]. cbn. tauto.
  - rewrite Hc. cbn [bind]. rewrite (Hn c (or_introl eq_refl)).
    destruct (IH results'
                match r with
                | Parsed p => set_add (ParsedCommit.bump p) levels
                | Failed _ => levels
                end lv (fun c' H => Hn c' (or_intror H)) HF')
      as (levels' & -> & Hl).
    exists levels'. split; [reflexivity|]. intros l. rewrite Hl.
    destruct r as [p|e]; cbn [parsed_bumps flat_map app].
    + rewrite set_add_iff. cbn [In]. intuition congruence.
    + tauto.
Qed.

(** C1: a repository whose only tag is the full release v1.2.3, on a
    non-prerelease branch with major_on_zero on, and any commits on top of
    the tag, in any order, whatever they parse to.  The level of the
    release is the maximum of the parsed levels: it is one of them (or
    NO_RELEASE when there is none) and none of them is above it; the next
    version is v1.2.3 bumped by that level.  So whenever one of the commits
    parses to MAJOR, as for MINOR, PATCH and MAJOR in any order, the level
    is MAJOR and the next version is 2.0.0. *)
Theorem next_version_major_bump
    (commit_parser : Commit -> result ParseResult)
    (base : Commit) (since : list Commit) (results : list ParseResult) :
  (forall c, In c since -> commit_eqb base c = false) ->
  Forall2 (fun c r => commit_parser c = Ok r) since results ->
  let level := LevelBump.max_default (parsed_bumps results) NO_RELEASE in
  let next :=
    next_version
      (Scenario.linear_repo [Scenario.lightweight "v1.2.3" base] "v1.2.3"
         base (since ++ [base]) since)
      Translator.default commit_parser false true in
  (forall l, In l (parsed_bumps results) -> LevelBump.leb l level = true)
  /\ (parsed_bumps results = [] -> level = NO_RELEASE)
  /\ (parsed_bumps results <> [] -> In level (parsed_bumps results))
  /\ next = Ok (bump (full_version 1 2 3) level)
  /\ (In MAJOR (parsed_bumps results) ->
      level = MAJOR /\ next = Ok (full_version 2 0 0)).
Proof.
  intros Hbase HF level next.
  assert (Hge : forall l, In l (parsed_bumps results) ->
                  LevelBump.leb l level = true)
    by (intros l; apply max_default_ge).
  assert (Hnext : next = Ok (bump (full_version 1 2 3) level)).
  { subst next. unfold next_version, Scenario.linear_repo.
    cbn [tags active_branch merge_base iter_commits].
    replace (tags_and_versions [Scenario.lightweight "v1.2.3" base]
               Translator.default)
      with (Ok [(Scenario.lightweight "v1.2.3" base,
                 Some (full_version 1 2 3))])
      by (vm_compute; reflexivity).
    cbn [bind full_releases is_prerelease prerelease_token full_version negb].
    replace (from_string Translator.default "0.0.0")
      with (Ok (full_version 0 0 0)) by (vm_compute; reflexivity).
    cbn [bind Tag.name Scenario.lightweight].
    change (("v1.2.3" =? "v1.2.3")%string && ("main" =? "main")%string)
      with true.
    cbv iota. cbn [List.length Nat.ltb Nat.leb].
    assert (_bfs_for_latest_version_in_history base
              [(Scenario.lightweight "v1.2.3" base, full_version 1 2 3)]
            = Some (full_version 1 2 3)) as Hbfs.
    { unfold _bfs_for_latest_version_in_history.
      change base with (Tag.commit (Scenario.lightweight "v1.2.3" base)) at 2.
      now rewrite bfs_at_tagged. }
    rewrite Hbfs.
    change (str_to_tag Translator.default (full_version 1 2 3) ++ "..."
            =? "v1.2.3" ++ "...")%string with true.
    cbv iota. cbn [with_versions].
    destruct (walk_commits_untagged commit_parser false
                [(Scenario.lightweight "v1.2.3" base, full_version 1 2 3)]
                since results [] (full_version 1 2 3)) as (levels & -> & Hl);
      [|exact HF|].
    { intros c Hc.
      cbn [filter snd orb is_prerelease prerelease_token full_version negb
           first_tag_at Tag.commit Tag.object Scenario.lightweight].
      now rewrite (Hbase c Hc). }
    cbn [bind].
    rewrite (max_default_same_elements levels (parsed_bumps results)
               NO_RELEASE)
      by (intros l; rewrite Hl; cbn; tauto).
    fold level. rewrite bump_unfold.
    destruct level; reflexivity. }
  split; [exact Hge|]. split; [|split; [|split; [exact Hnext|]]].
  - intros E. subst level. now rewrite E.
  - apply max_default_in.
  - intros HM. assert (E : level = MAJOR).
    { specialize (Hge MAJOR HM). unfold LevelBump.leb in Hge.
      apply Nat.leb_le in Hge. apply rank_inj.
      destruct level; cbn in *; lia. }
    split; [exact E|]. rewrite Hnext, E. reflexivity.
Qed.

Lemma next_version_major_bump_witness :
  next_version Scenario.s1_repo Translator.default Scenario.angular false true
  = Ok (full_version 2 0 0)
  /\ next_version
       (Scenario.linear_repo
          [Scenario.lightweight "v1.2.3" Scenario.s1_base] "v1.2.3"
          Scenario.s1_base
          ([Cases.o_a; Cases.o_b; Cases.o_c] ++ [Scenario.s1_base])
          [Cases.o_a; Cases.o_b; Cases.o_c])
       Translator.default Scenario.angular false true
     = Ok (full_version 2 0 0).
Proof.
  split.
  - refine (proj2 (proj2 (proj2 (proj2 (proj2
             (next_version_major_bump Scenario.angular Scenario.s1_base
                [Scenario.s1_c; Scenario.s1_b; Scenario.s1_a]
                [Parsed (ParsedCommit.mk MAJOR "feature" None ["C"] []
                           Scenario.s1_c);
                 Parsed (ParsedCommit.mk PATCH "fix" None ["B"] []
                           Scenario.s1_b);
                 Parsed (ParsedCommit.mk MINOR "feature" None ["A"] []
                           Scenario.s1_a)] _ _)))) _)).
    + intros c [<-|[<-|[<-|[]]]]; reflexivity.
    + repeat constructor.
    + left. reflexivity.
  - refine (proj2 (proj2 (proj2 (proj2 (proj2
             (next_version_major_bump Scenario.angular Scenario.s1_base
                [Cases.o_a; Cases.o_b; Cases.o_c]
                [Parsed (ParsedCommit.mk MINOR "feature" None ["A"] []
                           Cases.o_a);
                 Parsed (ParsedCommit.mk PATCH "fix" None ["B"] []
                           Cases.o_b);
                 Parsed (ParsedCommit.mk MAJOR "feature" None ["C"] []
                           Cases.o_c)] _ _)))) _)).
    + intros c [<-|[<-|[<-|[]]]]; reflexivity.
    + repeat constructor.
    + right. right. left. reflexivity.
Defined.

(** ** _bfs_for_latest_version_in_history *)




Lemma first_tag_at_in {V} (tvs : list (Tag.t * V)) node v :
  first_tag_at tvs node = Some v ->
  exists tag, In (tag, v) tvs /\ commit_eqb (Tag.commit tag) node = true.
Proof.
  induction tvs as [|[tag w] tvs IH]; simpl; [discriminate|].
  destruct (commit_eqb (Tag.commit tag) node) eqn:E.
  - intros [= ->]. exists tag. auto.
  - intros H. destruct (IH H) as (t & Hin & Ht). exists t. auto.
Qed.

(** What the search does return is the version of a full-release tag on
    the merge base or one of its ancestors. *)
Lemma bfs_sound tvs fuel :
  forall visited q v, bfs tvs fuel visited q = Some (Some v) ->
  exists tag c c0,
    In c0 q /\ ancestor_or_self c c0
    /\ In (tag, v) tvs /\ commit_eqb (Tag.commit tag) c = true.
Proof.
  induction fuel as [|fuel IH]; intros visited q v; simpl; [discriminate|].
  destruct q as [|node q']; [discriminate|].
  destruct (existsb (commit_eqb node) visited); [discriminate|].
  destruct (first_tag_at tvs node) as [w|] eqn:E.
  - intros [= ->]. destruct (first_tag_at_in _ _ _ E) as (tag & Hin & Ht).
    exists tag, node, node. repeat split; auto using aos_self. now left.
  - intros H. destruct (IH _ _ _ H) as (tag & c & c0 & Hq & Hanc & Hin & Ht).
    apply in_app_or in Hq. destruct Hq as [Hq|Hq].
    + exists tag, c, c0. repeat split; auto. now right.
    + exists tag, c, node. repeat split; auto.
      * now left.
      * eapply aos_parent; eauto.
Qed.

(** C2: in a history with a merge the search gives up at the commit it
    reaches for the second time: from the merge [m0] it returns [None]
    although the ancestor [m4] carries the full release 1.0.0. *)
Theorem bfs_gives_up_at_revisited_commit :
  bfs Scenario.merge_tags (S (commit_size Scenario.m0)) [] [Scenario.m0]
  = Some None
  /\ _bfs_for_latest_version_in_history Scenario.m0 Scenario.merge_tags = None
  /\ ancestor_or_self Scenario.m4 Scenario.m0
  /\ first_tag_at Scenario.merge_tags Scenario.m4 = Some (full_version 1 0 0).
Proof.
  split; [reflexivity|]. split; [reflexivity|]. split; [|reflexivity].
  apply aos_parent with (p := Scenario.m1); [now left|].
  apply aos_parent with (p := Scenario.m3); [now left|].
  apply aos_parent with (p := Scenario.m4); [now left|].
  apply aos_self.
Qed.

(** ** tags_and_versions *)

Lemma good_compat_r {A} (cmp : A -> A -> comparison) :
  good_cmp cmp -> forall a b c, cmp b c = Eq -> cmp a b = cmp a c.
Proof.
  intros (H1 & _ & H3) a b c E.
  rewrite (H1 b a), (H1 c a). f_equal. symmetry. apply H3.
  now rewrite H1, E.
Qed.

Lemma good_N : good_cmp N.compare.
Proof.
  repeat split.
  - intros a b. apply N.compare_antisym.
  - intros a b c. rewrite !N.compare_lt_iff. lia.
  - intros a b c H. apply N.compare_eq_iff in H. now subst.
Qed.

Lemma good_ascii : good_cmp Ascii.compare.
Proof.
  unfold Ascii.compare. repeat split.
  - intros a b. apply N.compare_antisym.
  - intros a b c. rewrite !N.compare_lt_iff. lia.
  - intros a b c H. apply N.compare_eq_iff in H. now rewrite H.
Qed.

Lemma good_string : good_cmp String.compare.
Proof.
  pose proof good_ascii as GA. destruct GA as (A1 & A2 & A3). repeat split.
  - intros a b. apply String.compare_antisym.
  - intros a. induction a as [|x a IH]; intros [|y b] [|z c]; simpl;
      try discriminate; try reflexivity.
    destruct (Ascii.compare x y) eqn:Exy; try discriminate;
      destruct (Ascii.compare y z) eqn:Eyz; try discriminate; intros H1 H2.
    + rewrite (A3 _ _ z Exy), Eyz. eauto.
    + now rewrite (A3 _ _ z Exy), Eyz.
    + now rewrite <- (good_compat_r _ good_ascii x y z Eyz), Exy.
    + now rewrite (A2 _ _ _ Exy Eyz).
  - intros a b c H. apply String.compare_eq_iff in H. now subst.
Qed.

Lemma good_pullback {A B} (f : A -> B) (cmp : B -> B -> comparison) :
  good_cmp cmp -> good_cmp (fun a b => cmp (f a) (f b)).
Proof. intros (H1 & H2 & H3). repeat split; intros; eauto. Qed.

Lemma good_lex {A} (c1 c2 : A -> A -> comparison) :
  good_cmp c1 -> good_cmp c2 -> good_cmp (fun a b => lex (c1 a b) (c2 a b)).
Proof.
  intros G1 G2. pose proof (good_compat_r _ G1) as R1.
  destruct G1 as (A1 & T1 & E1), G2 as (A2 & T2 & E2). repeat split.
  - intros a b. rewrite (A1 a b), (A2 a b).
    now destruct (c1 a b), (c2 a b).
  - intros a b c. unfold lex.
    destruct (c1 a b) eqn:Eab; try discriminate;
      destruct (c1 b c) eqn:Ebc; try discriminate; intros H1 H2.
    + rewrite (E1 _ _ c Eab), Ebc. eauto.
    + now rewrite (E1 _ _ c Eab), Ebc.
    + now rewrite <- (R1 a b c Ebc), Eab.
    + now rewrite (T1 _ _ _ Eab Ebc).
  - intros a b c. unfold lex.
    destruct (c1 a b) eqn:Eab; try discriminate. intros H.
    rewrite (E1 _ _ c Eab). destruct (c1 b c); auto.
Qed.

Lemma good_option_N : good_cmp compare_option_N.
Proof.
  destruct good_N as (A1 & T1 & E1). repeat split.
  - intros [a|] [b|]; simpl; auto.
  - intros [a|] [b|] [c|]; simpl; try discriminate; eauto.
  - intros [a|] [b|] [c|]; simpl; try discriminate; eauto.
Qed.

Lemma good_compare_core : good_cmp compare_core.
Proof.
  unfold compare_core.
  apply (good_lex (fun a b => N.compare (major a) (major b))
           (fun a b => lex (N.compare (minor a) (minor b))
                         (N.compare (patch a) (patch b)))).
  - apply (good_pullback major), good_N.
  - apply (good_lex (fun a b => N.compare (minor a) (minor b))
             (fun a b => N.compare (patch a) (patch b)));
      [apply (good_pullback minor) | apply (good_pullback patch)];
      apply good_N.
Qed.

Lemma good_suffix :
  good_cmp (fun x y : string * option N =>
              lex (String.compare (fst x) (fst y))
                (compare_option_N (snd x) (snd y))).
Proof.
  apply (good_lex (fun x y : string * option N => String.compare (fst x) (fst y))
           (fun x y : string * option N => compare_option_N (snd x) (snd y))).
  - apply (good_pullback fst), good_string.
  - apply (good_pullback snd), good_option_N.
Qed.

Lemma good_compare_prerelease : good_cmp compare_prerelease.
Proof.
  destruct good_suffix as (A1 & T1 & E1). unfold compare_prerelease.
  repeat split.
  - intros a b. destruct (prerelease_token a) as [ta|],
      (prerelease_token b) as [tb|]; try reflexivity.
    apply (A1 (ta, prerelease_revision a) (tb, prerelease_revision b)).
  - intros a b c. destruct (prerelease_token a) as [ta|],
      (prerelease_token b) as [tb|], (prerelease_token c) as [tc|];
      try discriminate; try reflexivity.
    apply (T1 (ta, prerelease_revision a) (tb, prerelease_revision b)
             (tc, prerelease_revision c)).
  - intros a b c. destruct (prerelease_token a) as [ta|],
      (prerelease_token b) as [tb|], (prerelease_token c) as [tc|];
      try discriminate; try reflexivity.
    apply (E1 (ta, prerelease_revision a) (tb, prerelease_revision b)
             (tc, prerelease_revision c)).
Qed.

(** SemVer precedence, as modelled, is a total preorder. *)
Lemma good_version_compare : good_cmp version_compare.
Proof.
  apply (good_lex compare_core compare_prerelease);
    [apply good_compare_core | apply good_compare_prerelease].
Qed.

Lemma version_ltb_asym a b : version_ltb a b = true -> version_ltb b a = false.
Proof.
  unfold version_ltb. destruct good_version_compare as (A1 & _).
  rewrite (A1 a b). now destruct (version_compare a b).
Qed.

Lemma version_ltb_trans a b c :
  version_ltb a b = true -> version_ltb b c = true -> version_ltb a c = true.
Proof.
  unfold version_ltb. destruct good_version_compare as (_ & T1 & _).
  destruct (version_compare a b) eqn:E1; try discriminate.
  destruct (version_compare b c) eqn:E2; try discriminate.
  now rewrite (T1 _ _ _ E1 E2).
Qed.

Lemma version_ltb_between a b c :
  version_ltb a b = true -> version_ltb c b = false -> version_ltb c a = false.
Proof.
  intros H1 H2. destruct (version_ltb c a) eqn:E; [|reflexivity].
  now rewrite (version_ltb_trans _ _ _ E H1) in H2.
Qed.

Lemma insort_ascending x l :
  has_version x -> Forall has_version l -> ascending l ->
  exists l',
    insort snd key_lt x l = Ok l' /\ Permutation (x :: l) l' /\ ascending l'.
Proof.
  intros Hx. induction l as [|y l IH]; intros Hl Hs.
  - exists [x]. repeat split; auto. repeat constructor.
  - inversion Hl as [|? ? Hy Hl']; subst.
    inversion Hs as [|? ? Hs' Hall]; subst.
    destruct x as [tx [vx|]]; [|now elim Hx].
    destruct y as [ty [vy|]]; [|now elim Hy].
    cbn [insort snd key_lt bind].
    destruct (version_ltb vx vy) eqn:E.
    + eexists. repeat split; [reflexivity|].
      constructor; [assumption|]. constructor.
      * unfold not_below. cbn. now apply version_ltb_asym.
      * rewrite Forall_forall in *. intros [tz [vz|]] Hz.
        -- specialize (Hall _ Hz). unfold not_below in *. cbn in *.
           eapply version_ltb_between; eauto.
        -- now elim (Hl' _ Hz).
    + destruct (IH Hl' Hs') as (l' & -> & P & S). cbn [bind].
      eexists. repeat split.
      * rewrite perm_swap. now apply perm_skip.
      * constructor; [assumption|].
        apply (Permutation_Forall P). constructor; [|assumption].
        unfold not_below. cbn. exact E.
Qed.

Lemma sort_from_ascending l :
  forall acc,
  Forall has_version l -> Forall has_version acc -> ascending acc ->
  exists r,
    sort_from snd key_lt acc l = Ok r
    /\ Permutation (l ++ acc) r /\ ascending r.
Proof.
  induction l as [|x l IH]; intros acc Hl Ha Hs.
  - exists acc. repeat split; auto.
  - inversion Hl as [|? ? Hx Hl']; subst.
    destruct (insort_ascending x acc Hx Ha Hs) as (acc' & E & P & S).
    cbn [sort_from]. rewrite E. cbn [bind].
    destruct (IH acc' Hl') as (r & -> & P' & S'); auto.
    + apply (Permutation_Forall P). now constructor.
    + exists r. repeat split; auto.
      rewrite <- P'. cbn. rewrite <- P. apply Permutation_middle.
Qed.

Lemma sorted_snoc {A} (R : A -> A -> Prop) l a :
  StronglySorted R l -> Forall (fun p => R p a) l ->
  StronglySorted R (l ++ [a]).
Proof.
  induction 1 as [|b l Hs IH Hb]; intros Hf; cbn.
  - repeat constructor.
  - inversion Hf; subst. constructor; [now apply IH|].
    apply Forall_app. split; [assumption | now repeat constructor].
Qed.

Lemma ascending_rev l : ascending l -> descending (rev l).
Proof.
  induction 1 as [|a l Hs IH Ha]; cbn; [constructor|].
  apply sorted_snoc; [exact IH | now apply Forall_rev].
Qed.

(** When every tag translates, [tags_and_versions] returns all the pairs,
    highest precedence first. *)
Lemma tags_and_versions_descending tags translator :
  (forall t, In t tags -> from_tag translator (Tag.name t) <> None) ->
  exists l,
    tags_and_versions tags translator = Ok l
    /\ Permutation (map (fun t => (t, from_tag translator (Tag.name t))) tags) l
    /\ descending l.
Proof.
  intros H. unfold tags_and_versions, py_sorted_reverse, py_sorted.
  set (pairs := map (fun t => (t, from_tag translator (Tag.name t))) tags).
  assert (Forall has_version (rev pairs)) as Hp.
  { apply Forall_rev. subst pairs. apply Forall_forall.
    intros p Hin. apply in_map_iff in Hin. destruct Hin as (t & <- & Hin).
    now apply H. }
  destruct (sort_from_ascending (rev pairs) [] Hp) as (r & -> & P & S);
    [constructor | constructor |].
  cbn [bind]. exists (rev r). repeat split.
  - rewrite app_nil_r in P. rewrite <- (Permutation_rev r), <- P.
    apply Permutation_rev.
  - now apply ascending_rev.
Qed.

(** C3: a tag that does not translate is not left out: alone it is
    returned paired with no version, and next to another tag the sort
    raises [TypeError]. *)
Theorem tags_and_versions_keeps_untranslated_tag :
  from_tag Translator.default "nightly" = None
  /\ tags_and_versions [Scenario.lightweight "nightly" Scenario.m0]
       Translator.default
     = Ok [(Scenario.lightweight "nightly" Scenario.m0, None)]
  /\ tags_and_versions
       [Scenario.lightweight "v1.0.0" Scenario.m4;
        Scenario.lightweight "nightly" Scenario.m0]
       Translator.default
     = Raise (TypeError "'<' not supported between instances").
Proof. repeat split. Qed.

(** ** The matcher against the meaning of patterns *)

(** Whatever the backtracking matcher finds is a match. *)
Lemma exec_sound {A} (r : Re.regex) :
  forall s g (k : string -> Re.groups -> option A) a,
  Re.exec r s g k = Some a ->
  exists s' g', Re.matches r s g s' g' /\ k s' g' = Some a.
Proof.
  induction r as [|p|r1 IH1 r2 IH2|r1 IH1 r2 IH2|r1 IH1|name r1 IH1|];
    intros s g k a; cbn [Re.exec].
  - intros H. exists s, g. split; [constructor | exact H].
  - destruct s as [|c s]; [discriminate|].
    destruct (p c) eqn:E; [|discriminate].
    intros H. exists s, g. split; [now constructor | exact H].
  - intros H. apply IH1 in H. destruct H as (s1 & g1 & M1 & H).
    apply IH2 in H. destruct H as (s2 & g2 & M2 & H).
    exists s2, g2. split; [econstructor; eauto | exact H].
  - destruct (Re.exec r1 s g k) eqn:E.
    + intros [= ->]. apply IH1 in E. destruct E as (s' & g' & M & H).
      exists s', g'. split; [now apply Re.m_alt_l | exact H].
    + intros H. apply IH2 in H. destruct H as (s' & g' & M & H).
      exists s', g'. split; [now apply Re.m_alt_r | exact H].
  - generalize (String.length s). intros n. revert s g.
    induction n as [|n IHn]; intros s g.
    + intros H. exists s, g. split; [constructor | exact H].
    + match goal with
      | |- match ?e with _ => _ end = _ -> _ => destruct e eqn:E
      end.
      * intros [= ->]. apply IH1 in E. destruct E as (s1 & g1 & M1 & H).
        destruct (String.length s1 <? String.length s)%nat eqn:L;
          [|discriminate].
        apply Nat.ltb_lt in L. apply IHn in H.
        destruct H as (s2 & g2 & M2 & H).
        exists s2, g2. split; [eapply Re.m_star_round; eauto | exact H].
      * intros H. exists s, g. split; [constructor | exact H].
  - intros H. apply IH1 in H. destruct H as (s' & g' & M & H).
    eexists _, _. split; [apply Re.m_group; exact M | exact H].
  - destruct s as [|c [|c' s]]; try discriminate.
    + intros H. exists "", g. split; [constructor | exact H].
    + destruct (Ascii.eqb c Re.newline) eqn:E; [|discriminate].
      apply Ascii.eqb_eq in E. subst c.
      intros H. eexists _, g. split; [constructor | exact H].
Qed.

(** The matcher fails only when no match satisfies the continuation. *)
Lemma exec_complete {A} (r : Re.regex) :
  forall s g (k : string -> Re.groups -> option A),
  Re.exec r s g k = None ->
  forall s' g', Re.matches r s g s' g' -> k s' g' = None.
Proof.
  induction r as [|p|r1 IH1 r2 IH2|r1 IH1 r2 IH2|r1 IH1|name r1 IH1|];
    intros s g k; cbn [Re.exec].
  - intros H s' g' M. inversion M; subst. exact H.
  - intros H s' g' M. inversion M; subst.
    match goal with E : p _ = true |- _ => rewrite E in H end. exact H.
  - intros H s' g' M. inversion M; subst.
    eapply IH2; [|eassumption]. eapply IH1 in H; [|eassumption]. exact H.
  - destruct (Re.exec r1 s g k) eqn:E; [discriminate|].
    intros H s' g' M. inversion M; subst; eauto.
  - assert (forall n s0 g0, (String.length s0 <= n)%nat ->
              (fix star (fuel : nat) (s0 : string) (g0 : Re.groups) {struct fuel}
                 : option A :=
                 match fuel with
                 | O => k s0 g0
                 | S fuel' =>
                     match
                       Re.exec r1 s0 g0
                         (fun s' g' =>
                            if (String.length s' <? String.length s0)%nat
                            then star fuel' s' g' else None)
                     with
                     | Some a => Some a
                     | None => k s0 g0
                     end
                 end) n s0 g0 = None ->
              forall s' g', Re.matches (Re.Star r1) s0 g0 s' g' ->
                            k s' g' = None) as Hstar.
    { induction n as [|n IHn]; intros s0 g0 Hlen.
      - intros H s' g' M. inversion M; subst; [exact H | lia].
      - match goal with
        | |- match ?e with _ => _ end = _ -> _ => destruct e eqn:E
        end; [discriminate|].
        intros H s' g' M. inversion M; subst; [exact H|].
        match goal with
        | M1 : Re.matches r1 _ _ ?s1 ?g1 |- _ =>
            pose proof (IH1 _ _ _ E _ _ M1) as K
        end.
        cbv beta in K.
        match goal with
        | L : (String.length _ < String.length _)%nat |- _ =>
            pose proof L as L'; apply Nat.ltb_lt in L'; rewrite L' in K
        end.
        eapply IHn; [|exact K|eassumption]. lia. }
    intros H. eapply Hstar; [|exact H]. lia.
  - intros H s' g' M. inversion M; subst.
    eapply IH1 in H; [|eassumption]. exact H.
  - intros H s' g' M. inversion M; subst; [exact H|].
    cbn in H. exact H.
Qed.

(** [pattern.match(s)] answers [None] exactly when no front of [s]
    matches the pattern. *)
Lemma re_match_None (r : Re.regex) (s : string) :
  Re.re_match r s = None <-> forall s' g', ~ Re.matches r s [] s' g'.
Proof.
  unfold Re.re_match. split.
  - intros H s' g' M. now apply (exec_complete r _ _ _ H) in M.
  - intros H. destruct (Re.exec r s [] (fun _ g => Some g)) as [g|] eqn:E;
      [|reflexivity].
    apply exec_sound in E. destruct E as (s' & g' & M & _).
    now apply H in M.
Qed.

Lemma re_match_Some (r : Re.regex) (s : string) (g : Re.groups) :
  Re.re_match r s = Some g -> exists s', Re.matches r s [] s' g.
Proof.
  unfold Re.re_match. intros H. apply exec_sound in H.
  destruct H as (s' & g' & M & [= ->]). now exists s'.
Qed.

(** ** Facts about matches *)

Local Open Scope string_scope.

Lemma length_app (a b : string) :
  String.length (a ++ b) = (String.length a + String.length b)%nat.
Proof. induction a as [|c a IH]; simpl; [reflexivity | now rewrite IH]. Qed.

Lemma substring_front (a b : string) :
  String.substring 0 (String.length (a ++ b) - String.length b) (a ++ b) = a.
Proof.
  rewrite length_app.
  replace (String.length a + String.length b - String.length b)%nat
    with (String.length a) by lia.
  induction a as [|c a IH]; simpl.
  - now destruct b.
  - now rewrite IH.
Qed.

Lemma app_assoc_str (a b c : string) : ((a ++ b) ++ c = a ++ (b ++ c))%string.
Proof. induction a as [|x a IH]; simpl; [reflexivity | now rewrite IH]. Qed.

(** A match consumes a front of the input. *)
Lemma matches_front r s g s' g' :
  Re.matches r s g s' g' -> exists pre, s = pre ++ s'.
Proof.
  induction 1.
  - now exists "".
  - now exists (String c "").
  - destruct IHmatches1 as (p1 & ->), IHmatches2 as (p2 & ->).
    exists (p1 ++ p2). now rewrite app_assoc_str.
  - assumption.
  - assumption.
  - now exists "".
  - destruct IHmatches1 as (p1 & ->), IHmatches2 as (p2 & ->).
    exists (p1 ++ p2). now rewrite app_assoc_str.
  - assumption.
  - now exists "".
  - now exists "".
Qed.

(** A pattern without groups leaves the captures alone. *)
Lemma matches_no_groups r s g s' g' :
  Re.matches r s g s' g' -> group_names r = [] -> g' = g.
Proof.
  induction 1; cbn [group_names]; intros Hn; try reflexivity;
    try discriminate; auto.
  - apply app_eq_nil in Hn. destruct Hn. rewrite IHmatches2; auto.
  - apply app_eq_nil in Hn. destruct Hn. auto.
  - apply app_eq_nil in Hn. destruct Hn. auto.
  - rewrite IHmatches2; auto.
Qed.

Lemma matches_Lit l s g s' g' :
  Re.matches (Re.Lit l) s g s' g' -> s = l ++ s' /\ g' = g.
Proof.
  revert s g. induction l as [|c l IH]; intros s g M; cbn [Re.Lit] in M.
  - inversion M; subst. auto.
  - inversion M; subst.
    match goal with
    | M1 : Re.matches (Re.Chr _) _ _ _ _ |- _ => inversion M1; subst
    end.
    match goal with
    | E : Ascii.eqb _ _ = true |- _ => apply Ascii.eqb_eq in E; subst
    end.
    match goal with
    | M2 : Re.matches (Re.Lit l) _ _ _ _ |- _ => apply IH in M2; destruct M2
    end.
    subst. auto.
Qed.

Lemma matches_Alts_cons l : forall t s g s' g',
  Re.matches (Re.Alts (t :: l)) s g s' g' ->
  g' = g /\ exists u, In u (t :: l) /\ s = u ++ s'.
Proof.
  induction l as [|t' l IH]; intros t s g s' g' M.
  - apply matches_Lit in M. destruct M as [-> ->].
    split; [reflexivity|]. exists t. split; [now left | reflexivity].
  - change (Re.Alts (t :: t' :: l))
      with (Re.Alt (Re.Lit t) (Re.Alts (t' :: l))) in M.
    inversion M as [| | |? ? ? ? ? ? M1|? ? ? ? ? ? M1| | | | |]; subst.
    + apply matches_Lit in M1. destruct M1 as [-> ->].
      split; [reflexivity|]. exists t. split; [now left | reflexivity].
    + apply IH in M1. destruct M1 as [-> (u & Hin & ->)].
      split; [reflexivity|]. exists u. split; [now right | reflexivity].
Qed.

Lemma matches_Alts l s g s' g' :
  Re.matches (Re.Alts l) s g s' g' ->
  g' = g /\ ((l = [] /\ s = s') \/ exists t, In t l /\ s = t ++ s').
Proof.
  destruct l as [|t l]; intros M.
  - inversion M; subst. auto.
  - apply matches_Alts_cons in M. destruct M as [-> H]. auto.
Qed.

Lemma matches_Plus_Chr p s g s' g' :
  Re.matches (Re.Plus (Re.Chr p)) s g s' g' ->
  g' = g /\ exists c pre, s = String c pre ++ s'.
Proof.
  intros M. split.
  - eapply matches_no_groups; [exact M | reflexivity].
  - unfold Re.Plus in M. inversion M; subst.
    match goal with
    | M1 : Re.matches (Re.Chr _) _ _ _ _ |- _ => inversion M1; subst
    end.
    match goal with
    | M2 : Re.matches (Re.Star _) _ _ _ _ |- _ =>
        apply matches_front in M2; destruct M2 as (pre & ->)
    end.
    eexists _, _. reflexivity.
Qed.

Ltac inv H := inversion H; subst; clear H.

Lemma app_inv_tail_str (a b s : string) : a ++ s = b ++ s -> a = b.
Proof.
  revert b. induction a as [|c a IH]; intros [|c' b]; simpl; intros H.
  - reflexivity.
  - exfalso. apply (f_equal String.length) in H. simpl in H.
    rewrite length_app in H. lia.
  - exfalso. apply (f_equal String.length) in H. simpl in H.
    rewrite length_app in H. lia.
  - injection H as -> H. f_equal. now apply IH.
Qed.

(** A group captures the front its pattern consumed. *)
Lemma matches_Group name r s g s' g' :
  Re.matches (Re.Group name r) s g s' g' ->
  exists pre g0,
    s = pre ++ s' /\ Re.matches r (pre ++ s') g s' g0 /\ g' = (name, pre) :: g0.
Proof.
  intros M. inv M.
  match goal with
  | M1 : Re.matches r _ _ _ _ |- _ =>
      destruct (matches_front _ _ _ _ _ M1) as (pre & ->);
      exists pre; eexists; repeat split; [exact M1|]
  end.
  now rewrite substring_front.
Qed.

Lemma matches_Plus_Chr_front p pre s' g g' :
  Re.matches (Re.Plus (Re.Chr p)) (pre ++ s') g s' g' ->
  g' = g /\ exists c pre', pre = String c pre'.
Proof.
  intros M. apply matches_Plus_Chr in M. destruct M as [-> (c & pre' & E)].
  split; [reflexivity|]. exists c, pre'. now apply app_inv_tail_str in E.
Qed.

Lemma matches_Lit_front l pre s' g g' :
  Re.matches (Re.Lit l) (pre ++ s') g s' g' -> pre = l /\ g' = g.
Proof.
  intros M. apply matches_Lit in M. destruct M as [E ->].
  split; [now apply app_inv_tail_str in E | reflexivity].
Qed.

Ltac no_groups H :=
  apply matches_no_groups in H; [subst | reflexivity].

Ltac crunch :=
  repeat match goal with
  | H : Re.matches Re.Eps _ _ _ _ |- _ => inv H
  | H : Re.matches (Re.Group "break" _) _ _ _ _ |- _ =>
      apply matches_Group in H; destruct H as (? & ? & ? & H & ?); subst;
      apply (matches_Lit_front "!") in H; destruct H; subst
  | H : Re.matches (Re.Group _ (Re.Plus (Re.Chr _))) _ _ _ _ |- _ =>
      apply matches_Group in H; destruct H as (? & ? & ? & H & ?); subst;
      apply matches_Plus_Chr_front in H; destruct H as (? & ? & ? & ?); subst
  | H : Re.matches (Re.Group _ _) _ _ _ _ |- _ =>
      apply matches_Group in H; destruct H as (? & ? & ? & H & ?); subst
  | H : Re.matches (Re.Seq _ _) _ _ _ _ |- _ => first [no_groups H | inv H]
  | H : Re.matches (Re.Alt _ _) _ _ _ _ |- _ => first [no_groups H | inv H]
  | H : Re.matches (Re.Plus _) _ _ _ _ |- _ => no_groups H
  end.

Local Open Scope list_scope.

(** ** Commit parsers *)

Lemma group_names_Lit s : group_names (Re.Lit s) = [].
Proof. induction s as [|c s IH]; simpl; auto. Qed.

Lemma group_names_Alts l : group_names (Re.Alts l) = [].
Proof.
  induction l as [|s l IH]; [reflexivity|].
  destruct l as [|s' l]; [apply group_names_Lit|].
  change (group_names (Re.Lit s) ++ group_names (Re.Alts (s' :: l)) = []).
  now rewrite group_names_Lit, IH.
Qed.

Lemma group_names_angular options :
  group_names (AngularCommitParser.re_parser options)
  = ["type"; "scope"; "break"; "subject"; "5"; "text"].
Proof.
  unfold AngularCommitParser.re_parser.
  cbn [group_names]. rewrite group_names_Alts. reflexivity.
Qed.

Lemma str_in_In s l : str_in s l = true <-> In s l.
Proof.
  unfold str_in. rewrite existsb_exists. split.
  - intros (x & Hin & Hx). apply String.eqb_eq in Hx. now subst.
  - intros Hin. exists s. split; [assumption | apply String.eqb_refl].
Qed.

Lemma breaking_matches_nonempty brm ps :
  truthy_list (breaking_matches brm ps) = true
  <-> exists para d, In para ps /\ brm para = Some d.
Proof.
  induction ps as [|p ps IH]; simpl.
  - split; [discriminate | intros (? & ? & [] & _)].
  - destruct (brm p) as [d|] eqn:E; simpl.
    + split; [|reflexivity]. intros _. exists p, d. auto.
    + rewrite IH. split.
      * intros (para & d & Hin & H). exists para, d. auto.
      * intros (para & d & [<-|Hin] & H); [congruence|]. exists para, d. auto.
Qed.

(** What a match of the Angular pattern captures: a type among the
    allowed ones, a non-empty subject, [!] or nothing as the break marker,
    and a non-empty body if any. *)
Lemma angular_match_groups options msg g :
  Re.re_match (AngularCommitParser.re_parser options) msg = Some g ->
  (exists ty, Re.group "type" g = Some ty
              /\ (In ty (AngularCommitParser.allowed_tags options)
                  \/ (AngularCommitParser.allowed_tags options = [] /\ ty = "")))
  /\ (exists c subject, Re.group "subject" g = Some (String c subject))
  /\ (Re.group "break" g = None \/ Re.group "break" g = Some "!")
  /\ (Re.group "text" g = None
      \/ exists c text, Re.group "text" g = Some (String c text)).
Proof.
  intros H. apply re_match_Some in H. destruct H as (s' & M).
  unfold AngularCommitParser.re_parser, Re.Opt in M.
  inv M.
  match goal with
  | M1 : Re.matches (Re.Group "type" _) _ _ _ _ |- _ =>
      apply matches_Group in M1; destruct M1 as (ty & g0 & -> & M1 & ->);
      apply matches_Alts in M1; destruct M1 as [-> Hty]
  end.
  assert (In ty (AngularCommitParser.allowed_tags options)
          \/ AngularCommitParser.allowed_tags options = [] /\ ty = "")
    as Htype.
  { destruct Hty as [[Hnil Heq]|(t & Hin & Heq)].
    - right. split; [assumption|].
      match type of Heq with (_ ++ ?s1)%string = _ =>
        apply (app_inv_tail_str ty "" s1); exact Heq end.
    - left. apply app_inv_tail_str in Heq. now subst. }
  clear Hty.
  crunch; cbn; repeat split; eauto.
Qed.

(** The parser case by case, on the match object. *)
Lemma angular_parse_cases
    (parse_paragraphs : string -> list string)
    (breaking_re_match : string -> option string)
    (options : AngularCommitParser.AngularParserOptions) (commit : Commit) :
  (exists r,
     AngularCommitParser.parse parse_paragraphs breaking_re_match options commit
     = Ok r
     /\ match py_match (AngularCommitParser.re_parser options) (message commit)
        with
        | None =>
            r = Failed (ParseError.mk commit "Unable to parse commit message")
        | Some m =>
            exists p, r = Parsed p
            /\ ParsedCommit.commit p = commit
            /\ let breaking :=
                 truthy_str (Re.group "break" (match_groups m)) = true
                 \/ exists para d,
                      In para (tl (ParsedCommit.descriptions p))
                      /\ breaking_re_match para = Some d in
               let type := or_empty (Re.group "type" (match_groups m)) in
               let minor := In type (AngularCommitParser.minor_tags options) in
               let patch := In type (AngularCommitParser.patch_tags options) in
               (breaking -> ParsedCommit.bump p = MAJOR)
               /\ (~ breaking -> minor -> ParsedCommit.bump p = MINOR)
               /\ (~ breaking -> ~ minor -> patch ->
                   ParsedCommit.bump p = PATCH)
               /\ (~ breaking -> ~ minor -> ~ patch ->
                   ParsedCommit.bump p
                   = AngularCommitParser.default_bump_level options)
        end)
  /\ forall (A : Type) (e : ParseError.t),
       @ParseError.raise_error A e = Raise (CommitParseError (ParseError.error e)).
Proof.
  split; [|reflexivity].
  unfold AngularCommitParser.parse, py_match.
  destruct (Re.re_match (AngularCommitParser.re_parser options)
              (message commit)) as [g|]; cbn [option_map];
    [|eexists; split; reflexivity].
  unfold py_group. cbn [match_re match_groups].
  rewrite group_names_angular. cbn [existsb String.eqb Ascii.eqb Bool.eqb orb
                                    bind].
  eexists. split; [reflexivity|].
  eexists. split; [reflexivity|]. cbn [ParsedCommit.commit ParsedCommit.bump
                                       ParsedCommit.descriptions tl].
  split; [reflexivity|].
  set (body := if truthy_str (Re.group "text" g)
               then parse_paragraphs (or_empty (Re.group "text" g)) else []).
  set (ty := or_empty (Re.group "type" g)).
  pose proof (breaking_matches_nonempty breaking_re_match body) as Hbm.
  pose proof (str_in_In ty (AngularCommitParser.minor_tags options)) as Hmi.
  pose proof (str_in_In ty (AngularCommitParser.patch_tags options)) as Hpa.
  destruct (truthy_str (Re.group "break" g));
    destruct (truthy_list (breaking_matches breaking_re_match body));
    destruct (str_in ty (AngularCommitParser.minor_tags options));
    destruct (str_in ty (AngularCommitParser.patch_tags options));
    cbn [orb]; intuition congruence.
Qed.

(** On a match, the result read off the captured groups. *)
Lemma angular_parse_on_match
    (parse_paragraphs : string -> list string)
    (breaking_re_match : string -> option string)
    (options : AngularCommitParser.AngularParserOptions) (commit : Commit) g :
  Re.re_match (AngularCommitParser.re_parser options) (message commit)
  = Some g ->
  AngularCommitParser.parse parse_paragraphs breaking_re_match options commit
  = let type := or_empty (Re.group "type" g) in
    let body :=
      if truthy_str (Re.group "text" g)
      then parse_paragraphs (or_empty (Re.group "text" g)) else [] in
    let breaking_descriptions := breaking_matches breaking_re_match body in
    Ok (Parsed
          (ParsedCommit.mk
             (if truthy_str (Re.group "break" g)
                 || truthy_list breaking_descriptions
              then MAJOR
              else if str_in type (AngularCommitParser.minor_tags options)
              then MINOR
              else if str_in type (AngularCommitParser.patch_tags options)
              then PATCH
              else AngularCommitParser.default_bump_level options)
             (AngularCommitParser.dict_get AngularCommitParser.LONG_TYPE_NAMES
                type type)
             (Re.group "scope" g)
             (or_empty (Re.group "subject" g) :: body)
             breaking_descriptions commit)).
Proof.
  intros E. unfold AngularCommitParser.parse, py_match. rewrite E.
  cbn [option_map]. unfold py_group. cbn [match_re match_groups].
  rewrite group_names_angular.
  cbn [existsb String.eqb Ascii.eqb Bool.eqb orb bind]. reflexivity.
Qed.

(** The body paragraphs of a match: [parse_paragraphs] of the text group
    when the message has a body. *)
Lemma angular_body options msg g (parse_paragraphs : string -> list string) :
  Re.re_match (AngularCommitParser.re_parser options) msg = Some g ->
  (if truthy_str (Re.group "text" g)
   then parse_paragraphs (or_empty (Re.group "text" g)) else [])
  = match Re.group "text" g with
    | Some text => parse_paragraphs text
    | None => []
    end.
Proof.
  intros E. destruct (angular_match_groups _ _ _ E) as (_ & _ & _ & [-> | H]).
  - reflexivity.
  - destruct H as (c & text & ->). reflexivity.
Qed.

(** C7: the Angular parser always returns.  When no front of the message
    matches the pattern the result is a ParseError for the commit;
    otherwise it is a ParsedCommit whose descriptions are the subject
    followed by the paragraphs of the body, [parse_paragraphs] of the text
    the pattern captures, whose breaking descriptions are the matches of
    the breaking-change pattern among these paragraphs, and whose bump is
    MAJOR when the [!] marker was captured or a paragraph of the body
    matches the breaking-change pattern, else MINOR for a type in
    minor_tags, else PATCH for a type in patch_tags, else the default
    level.  Only [raise_error] turns a ParseError into an exception. *)
Theorem angular_parse_never_raises
    (parse_paragraphs : string -> list string)
    (breaking_re_match : string -> option string)
    (options : AngularCommitParser.AngularParserOptions) (commit : Commit) :
  let pattern := AngularCommitParser.re_parser options in
  let parse :=
    AngularCommitParser.parse parse_paragraphs breaking_re_match options in
  ((forall s' g', ~ Re.matches pattern (message commit) [] s' g') ->
   parse commit
   = Ok (Failed (ParseError.mk commit "Unable to parse commit message")))
  /\ ((exists s' g', Re.matches pattern (message commit) [] s' g') ->
      exists p g type subject,
        parse commit = Ok (Parsed p)
        /\ Re.re_match pattern (message commit) = Some g
        /\ Re.group "type" g = Some type
        /\ Re.group "subject" g = Some subject
        /\ ParsedCommit.commit p = commit
        /\ let body :=
             match Re.group "text" g with
             | Some text => parse_paragraphs text
             | None => []
             end in
           ParsedCommit.descriptions p = subject :: body
           /\ ParsedCommit.breaking_descriptions p
              = breaking_matches breaking_re_match body
           /\ let breaking :=
                Re.group "break" g = Some "!"
                \/ exists para d,
                     In para body /\ breaking_re_match para = Some d in
              let minor := In type (AngularCommitParser.minor_tags options) in
              let patch := In type (AngularCommitParser.patch_tags options) in
              (breaking -> ParsedCommit.bump p = MAJOR)
              /\ (~ breaking -> minor -> ParsedCommit.bump p = MINOR)
              /\ (~ breaking -> ~ minor -> patch ->
                  ParsedCommit.bump p = PATCH)
              /\ (~ breaking -> ~ minor -> ~ patch ->
                  ParsedCommit.bump p
                  = AngularCommitParser.default_bump_level options))
  /\ forall (A : Type) (e : ParseError.t),
       @ParseError.raise_error A e = Raise (CommitParseError (ParseError.error e)).
Proof.
  intros pattern parse. split; [|split; [|reflexivity]].
  - intros Hno. apply re_match_None in Hno.
    destruct (proj1 (angular_parse_cases parse_paragraphs breaking_re_match
                       options commit)) as (r & Hr & Hm).
    unfold py_match in Hm. fold pattern in Hm. rewrite Hno in Hm.
    cbn [option_map] in Hm. subst r. exact Hr.
  - intros (s' & g' & M).
    destruct (Re.re_match pattern (message commit)) as [g|] eqn:E;
      [|now apply (proj1 (re_match_None _ _) E) in M].
    destruct (angular_match_groups _ _ _ E)
      as ((ty & Hty & _) & (c & subject & Hsub) & Hbreak & _).
    destruct (proj1 (angular_parse_cases parse_paragraphs breaking_re_match
                       options commit)) as (r & Hr & Hm).
    unfold py_match in Hm. fold pattern in Hm. rewrite E in Hm.
    cbn [option_map match_groups] in Hm.
    destruct Hm as (p & -> & Hc & H1 & H2 & H3 & H4).
    rewrite Hty in H2, H3, H4. cbn [or_empty] in H2, H3, H4.
    pose proof (angular_parse_on_match parse_paragraphs breaking_re_match
                  options commit g E) as Hp.
    cbv zeta in Hp. rewrite (angular_body _ _ _ parse_paragraphs E) in Hp.
    rewrite Hsub in Hp. cbn [or_empty] in Hp.
    rewrite Hr in Hp. injection Hp as Hp.
    assert (Hd : ParsedCommit.descriptions p
                 = String c subject
                   :: match Re.group "text" g with
                      | Some text => parse_paragraphs text
                      | None => []
                      end) by now rewrite Hp.
    assert (Hbd : ParsedCommit.breaking_descriptions p
                  = breaking_matches breaking_re_match
                      match Re.group "text" g with
                      | Some text => parse_paragraphs text
                      | None => []
                      end) by now rewrite Hp.
    rewrite Hd in H1, H2, H3, H4. cbn [tl] in H1, H2, H3, H4.
    exists p, g, ty, (String c subject).
    split; [exact Hr|]. split; [reflexivity|].
    split; [exact Hty|]. split; [exact Hsub|]. split; [exact Hc|].
    cbv zeta. split; [exact Hd|]. split; [exact Hbd|].
    assert (truthy_str (Re.group "break" g) = true
            <-> Re.group "break" g = Some "!") as Hb.
    { destruct Hbreak as [-> | ->]; cbn; split; congruence. }
    rewrite <- Hb. auto.
Qed.

Lemma angular_parse_never_raises_witness :
  exists p,
    AngularCommitParser.parse Util.parse_paragraphs Util.breaking_re_match
      AngularCommitParser.default_options Cases.with_trailer = Ok (Parsed p)
    /\ ParsedCommit.descriptions p
       = ["drop the old API"; "BREAKING CHANGE: no more v1"]
    /\ ParsedCommit.breaking_descriptions p = ["no more v1"]
    /\ ParsedCommit.bump p = MAJOR.
Proof.
  destruct (proj1 (proj2 (angular_parse_never_raises Util.parse_paragraphs
                            Util.breaking_re_match
                            AngularCommitParser.default_options
                            Cases.with_trailer)))
    as (p & g & ty & subject & Hp & Hg & _ & Hs & _ & Hd & Hb & Hmajor & _).
  - assert (exists g,
              Re.re_match
                (AngularCommitParser.re_parser
                   AngularCommitParser.default_options)
                (message Cases.with_trailer) = Some g) as (g & Hg)
      by (eexists; vm_compute; reflexivity).
    destruct (re_match_Some _ _ _ Hg) as (s' & M).
    eexists _, _. exact M.
  - vm_compute in Hg. injection Hg as <-.
    vm_compute in Hs. injection Hs as <-.
    exists p. split; [exact Hp|].
    split; [rewrite Hd; vm_compute; reflexivity|].
    split; [rewrite Hb; vm_compute; reflexivity|].
    apply Hmajor. right. exists "BREAKING CHANGE: no more v1", "no more v1".
    split; [vm_compute; auto | vm_compute; reflexivity].
Defined.

Lemma prefix_app (n s : string) :
  String.prefix n s = true <-> exists b, s = (n ++ b)%string.
Proof.
  revert s. induction n as [|c n IH]; intros s.
  - destruct s; simpl; (split; [intros _; eexists; reflexivity | reflexivity]).
  - destruct s as [|c' s]; simpl.
    + split; [discriminate | intros (b & H); discriminate].
    + destruct (Ascii.ascii_dec c c') as [->|Hne].
      * rewrite IH. split; intros (b & H); exists b; congruence.
      * split; [discriminate | intros (b & H); congruence].
Qed.

(** [needle in s] decides whether [needle] occurs in [s]. *)
Lemma py_str_in_contains (needle s : string) :
  py_str_in needle s = true <-> contains needle s.
Proof.
  unfold py_str_in, contains. induction s as [|c s IH].
  - rewrite orb_false_r, prefix_app. split.
    + intros (b & H). exists ""%string, b. exact H.
    + intros (a & b & H). destruct a; [now exists b|discriminate].
  - rewrite orb_true_iff, prefix_app, IH. split.
    + intros [(b & H)|(a & b & H)].
      * exists ""%string, b. exact H.
      * exists (String c a), b. simpl. now rewrite H.
    + intros (a & b & H). destruct a as [|c' a].
      * left. now exists b.
      * right. exists a, b. simpl in H. congruence.
Qed.

(** A match of the legacy pattern captures a non-empty subject. *)
Lemma tag_match_groups msg g :
  Re.re_match TagCommitParser.re_parser msg = Some g ->
  exists c subject, Re.group "subject" g = Some (String c subject).
Proof.
  intros H. apply re_match_Some in H. destruct H as (s' & M).
  unfold TagCommitParser.re_parser, Re.Opt in M.
  crunch; cbn; eauto.
Qed.

(** The legacy parser returns for every message as well. *)
Lemma tag_parse_never_raises
    (parse_paragraphs : string -> list string)
    (breaking_re_match : string -> option string)
    (options : TagCommitParser.TagParserOptions) (commit : Commit) :
  exists r,
    TagCommitParser.parse parse_paragraphs breaking_re_match options commit
    = Ok r.
Proof.
  unfold TagCommitParser.parse, py_match.
  destruct (Re.re_match TagCommitParser.re_parser (message commit)) as [g|]
    eqn:E; cbn [option_map]; [|eexists; reflexivity].
  destruct (tag_match_groups _ _ E) as (c & subject & Hs).
  unfold py_group at 1. cbn [match_re match_groups].
  change (existsb (String.eqb "subject")
            (group_names TagCommitParser.re_parser)) with true.
  cbv iota. rewrite Hs. cbn [bind truthy_str option_map].
  unfold TagCommitParser.finish, py_group. cbn [match_re match_groups].
  change (existsb (String.eqb "text")
            (group_names TagCommitParser.re_parser)) with true.
  cbv iota. cbn [bind].
  destruct (py_str_in (TagCommitParser.minor_tag options) (message commit));
    [|destruct (py_str_in (TagCommitParser.patch_tag options)
                  (message commit))];
    cbn [bind];
    try match goal with
        | |- context [truthy_list ?l] => destruct (truthy_list l)
        end;
    eexists; reflexivity.
Qed.

(** C10: the legacy tag parser answers a message that contains neither
    the minor nor the patch tag with a ParseError, also when a body
    paragraph matches the breaking-change pattern; a ParsedCommit, and with
    it the upgrade to MAJOR, only comes from a message in which one of the
    two tags occurs. *)
Theorem tag_parse_needs_a_tag
    (parse_paragraphs : string -> list string)
    (breaking_re_match : string -> option string)
    (options : TagCommitParser.TagParserOptions) (commit : Commit) :
  (~ contains (TagCommitParser.minor_tag options) (message commit) ->
   ~ contains (TagCommitParser.patch_tag options) (message commit) ->
   TagCommitParser.parse parse_paragraphs breaking_re_match options commit
   = Ok (TagCommitParser.unable commit))
  /\ (forall p,
        TagCommitParser.parse parse_paragraphs breaking_re_match options commit
        = Ok (Parsed p) ->
        contains (TagCommitParser.minor_tag options) (message commit)
        \/ contains (TagCommitParser.patch_tag options) (message commit))
  /\ (let commit :=
        Scenario.commit "b0"
          ("drop the old API" ++ Scenario.nl2 ++ "BREAKING CHANGE: no more v1")
          [] in
      Util.breaking_re_match "BREAKING CHANGE: no more v1" = Some "no more v1"
      /\ TagCommitParser.parse Util.parse_paragraphs Util.breaking_re_match
           TagCommitParser.default_options commit
         = Ok (TagCommitParser.unable commit)).
Proof.
  split; [|split; [|split; reflexivity]].
  - intros Hminor Hpatch. unfold TagCommitParser.parse, py_match.
    destruct (Re.re_match TagCommitParser.re_parser (message commit)) as [g|];
      cbn [option_map]; [|reflexivity].
    unfold py_group at 1. cbn [match_re match_groups].
    change (existsb (String.eqb "subject")
              (group_names TagCommitParser.re_parser)) with true.
    cbv iota. cbn [bind].
    destruct (py_str_in (TagCommitParser.minor_tag options) (message commit))
      eqn:E1; [apply py_str_in_contains in E1; contradiction|].
    destruct (py_str_in (TagCommitParser.patch_tag options) (message commit))
      eqn:E2; [apply py_str_in_contains in E2; contradiction|].
    reflexivity.
  - intros p. unfold TagCommitParser.parse, py_match.
    destruct (Re.re_match TagCommitParser.re_parser (message commit)) as [g|];
      cbn [option_map]; [|discriminate].
    unfold py_group at 1. cbn [match_re match_groups].
    change (existsb (String.eqb "subject")
              (group_names TagCommitParser.re_parser)) with true.
    cbv iota. cbn [bind].
    destruct (py_str_in (TagCommitParser.minor_tag options) (message commit))
      eqn:E1; [left; now apply py_str_in_contains|].
    destruct (py_str_in (TagCommitParser.patch_tag options) (message commit))
      eqn:E2; [right; now apply py_str_in_contains|].
    discriminate.
Qed.

Lemma tag_parse_needs_a_tag_witness :
  let commit :=
    Scenario.commit "b0"
      ("drop the old API" ++ Scenario.nl2 ++ "BREAKING CHANGE: no more v1") [] in
  TagCommitParser.parse Util.parse_paragraphs Util.breaking_re_match
    TagCommitParser.default_options commit
  = Ok (TagCommitParser.unable commit).
Proof.
  intros commit.
  apply (proj1 (tag_parse_needs_a_tag Util.parse_paragraphs
                  Util.breaking_re_match TagCommitParser.default_options
                  commit)).
  - intros H. apply py_str_in_contains in H. vm_compute in H. discriminate H.
  - intros H. apply py_str_in_contains in H. vm_compute in H. discriminate H.
Defined.

(** ** HVCS: operations a client does not support *)

(** C9 as stated fails: what the base class returns for the unsupported
    [check_build_status] is the very value the Gitlab client returns for a
    successful build (and for a created release). *)
Lemma not_supported_equals_success :
  fst (HvcsBase.call "HvcsBase" Op_check_build_status)
  = fst (Gitlab.call
           (Gitlab.mk "git@gitlab.com:owner/repo.git" "gitlab.com" None
              "owner" "repo")
           (Gitlab.mkRequest [Gitlab.mkJob "test" "success" false] true false
              "abc123")
           Op_check_build_status)
  /\ fst (HvcsBase.call "HvcsBase" Op_create_release) = PyBool true
  /\ Gitlab.create_release true = true
  /\ ~ (forall op : operation,
          fst (HvcsBase.call "HvcsBase" op) <> PyBool true).
Proof.
  repeat split. intros H. now apply (H Op_check_build_status).
Qed.

(** C9, amended: an operation the client does not support never raises;
    it returns [True] and issues exactly one warning, which names the
    operation and the class of the client.  The warning is the signal: the
    value is [True] for every operation, the inherited ones of the Gitlab
    client included; it differs from what a supporting client returns only
    for the operations that return a URL. *)
Theorem not_supported_warns_and_returns_true
    (qualname : string) (op : operation) (self : Gitlab.t)
    (rq : Gitlab.request) :
  HvcsBase.call qualname op
  = (PyBool true,
     [(operation_name op ++ " is not supported by " ++ qualname)%string])
  /\ (match op with
      | Op_check_build_status | Op_create_release | Op_remote_url
      | Op_commit_hash_url | Op_pull_request_url =>
          snd (Gitlab.call self rq op) = []
      | _ =>
          Gitlab.call self rq op
          = (PyBool true,
             [(operation_name op ++ " is not supported by Gitlab")%string])
      end)
  /\ (match op with
      | Op_remote_url | Op_commit_hash_url | Op_pull_request_url =>
          fst (HvcsBase.call qualname op) <> fst (Gitlab.call self rq op)
      | _ => True
      end).
Proof.
  split; [reflexivity|]. split; destruct op; try reflexivity; try exact I;
    discriminate.
Qed.

(** ** release_history *)

Lemma version_eqb_eq (a b : Version) : version_eqb a b = true <-> a = b.
Proof.
  unfold version_eqb. split.
  - intros H.
    destruct a as [a1 a2 a3 a4 a5 a6], b as [b1 b2 b3 b4 b5 b6]; simpl in *.
    repeat (apply andb_prop in H; destruct H as [H ?]).
    repeat match goal with
           | H : N.eqb _ _ = true |- _ => apply N.eqb_eq in H; subst
           | H : option_eqb String.eqb _ _ = true |- _ =>
               apply option_eqb_string_eq in H; subst
           end.
    destruct a5 as [x|], b5 as [y|]; simpl in *; try discriminate;
      [|reflexivity].
    match goal with
    | H : N.eqb _ _ = true |- _ => apply N.eqb_eq in H; now subst
    end.
  - intros ->. destruct b as [b1 b2 b3 b4 b5 b6]; simpl.
    rewrite !N.eqb_refl.
    replace (option_eqb String.eqb b4 b4) with true
      by (symmetry; now apply option_eqb_string_eq).
    replace (option_eqb String.eqb b6 b6) with true
      by (symmetry; now apply option_eqb_string_eq).
    destruct b5; simpl; [now rewrite N.eqb_refl | reflexivity].
Qed.

Lemma entries_bucket_append k x d :
  Permutation (entries (bucket_append k x d)) (entries d ++ [x]).
Proof.
  unfold entries. induction d as [|[k' l] d IH]; simpl; [reflexivity|].
  destruct (String.eqb k' k); simpl.
  - rewrite <- !app_assoc. apply Permutation_app_head.
    apply Permutation_app_comm.
  - rewrite <- app_assoc. now apply Permutation_app_head.
Qed.

Lemma released_entries_append v k x released released' :
  released_append v k x released = Ok released' ->
  Permutation (released_entries released') (released_entries released ++ [x]).
Proof.
  unfold released_entries. revert released'.
  induction released as [|[w r] released IH]; intros released'; simpl;
    [discriminate|].
  destruct (version_eqb w v).
  - intros [= <-]. simpl.
    rewrite (entries_bucket_append k x (Release.elements r)).
    rewrite <- !app_assoc. apply Permutation_app_head.
    apply Permutation_app_comm.
  - destruct (released_append v k x released) as [rest|e]; simpl;
      [|discriminate].
    intros [= <-]. simpl. rewrite <- app_assoc.
    apply Permutation_app_head. now apply IH.
Qed.

Lemma released_entries_setdefault v release released :
  Release.elements release = [] ->
  released_entries (setdefault v release released) = released_entries released.
Proof.
  intros He. unfold released_entries.
  induction released as [|[w r] released IH]; simpl.
  - now rewrite He.
  - destruct (version_eqb w v); simpl; [reflexivity | now rewrite IH].
Qed.

Section HistoryLoop.

Variable committer : Actor.
Variable parser : Commit -> result ParseResult.
Variable tvs : list (Tag.t * option Version).

Lemma new_release_elements tag release :
  new_release committer tag = Ok release -> Release.elements release = [].
Proof.
  unfold new_release. destruct (Tag.object tag) as [a o d c|c].
  - destruct (fromtimestamp d o); simpl; [|discriminate]. now intros [= <-].
  - destruct (fromtimestamp _ _); simpl; [|discriminate]. now intros [= <-].
Qed.

Lemma history_loop_entries commits :
  forall flag tv unrel rel h,
  history_loop committer parser tvs commits flag tv unrel rel = Ok h ->
  exists results,
    Forall2 (fun c r => parser c = Ok r) commits results
    /\ let n := if flag then 0%nat
                else List.length (before_first_tag tvs commits) in
       Permutation (entries (unreleased h)) (entries unrel ++ firstn n results)
       /\ Permutation (released_entries (released h))
            (released_entries rel ++ skipn n results).
Proof.
  induction commits as [|commit commits IH]; intros flag tv unrel rel h.
  - simpl. intros [= <-]. exists []. split; [constructor|].
    destruct flag; simpl; rewrite !app_nil_r; split; reflexivity.
  - cbn [history_loop].
    destruct (parser commit) as [pr|e] eqn:Hp; [|discriminate].
    cbn [bind before_first_tag].
    destruct (first_tag_and_version tvs commit) as [[tag version]|].
    + destruct (new_release committer tag) as [release|e] eqn:Hr;
        [|discriminate].
      cbn [bind]. destruct version as [v|]; [|discriminate].
      cbn [bind negb].
      destruct (released_append v (commit_type_of pr) pr
                  (setdefault v release rel)) as [rel'|e] eqn:Ha;
        [|discriminate].
      cbn [bind]. intros H. destruct (IH _ _ _ _ _ H) as (results & F & P1 & P2).
      exists (pr :: results). split; [now constructor|].
      assert ((if flag then 0%nat else @List.length Commit []) = 0%nat) as ->
        by now destruct flag.
      cbn [firstn skipn] in *. split; [exact P1|].
      rewrite P2. apply released_entries_append in Ha.
      rewrite Ha, released_entries_setdefault
        by (eapply new_release_elements; eauto).
      rewrite <- app_assoc. reflexivity.
    + cbn [bind]. destruct flag; cbn [negb].
      * destruct tv as [v|]; [|discriminate].
        destruct (released_append v (commit_type_of pr) pr rel)
          as [rel'|e] eqn:Ha; [|discriminate].
        cbn [bind]. intros H.
        destruct (IH _ _ _ _ _ H) as (results & F & P1 & P2).
        exists (pr :: results). split; [now constructor|].
        cbn [firstn skipn] in *. split; [exact P1|].
        rewrite P2. apply released_entries_append in Ha. rewrite Ha.
        rewrite <- app_assoc. reflexivity.
      * intros H. destruct (IH _ _ _ _ _ H) as (results & F & P1 & P2).
        exists (pr :: results). split; [now constructor|].
        cbn [List.length firstn skipn] in *. split; [|exact P2].
        rewrite P1, entries_bucket_append, <- app_assoc. reflexivity.
Qed.

Lemma bucket_append_keys k x d k' :
  In k' (map fst (bucket_append k x d)) <-> k' = k \/ In k' (map fst d).
Proof.
  induction d as [|[k0 l0] d IH]; simpl.
  - intuition.
  - destruct (String.eqb k0 k) eqn:E; simpl.
    + apply String.eqb_eq in E. subst. intuition.
    + rewrite IH. intuition.
Qed.

Lemma good_bucket_append x d :
  good_elements d -> good_elements (bucket_append (commit_type_of x) x d).
Proof.
  unfold good_elements. induction d as [|[k0 l0] d IH]; simpl.
  - intros _. split; [repeat constructor; intros []|].
    intros k l y [[= <- <-]|[]] [<-|[]]. reflexivity.
  - intros [Hnd Hk]. inversion Hnd as [|? ? Hnotin Hnd']; subst.
    destruct (String.eqb k0 (commit_type_of x)) eqn:E; simpl.
    + apply String.eqb_eq in E. split; [assumption|].
      intros k l y [[= <- <-]|Hin] Hy.
      * apply in_app_or in Hy. destruct Hy as [Hy|[<-|[]]]; eauto.
      * eauto.
    + destruct IH as [IH1 IH2].
      { split; [assumption|]. intros; eauto. }
      split.
      * constructor; [|assumption]. rewrite bucket_append_keys.
        intros [->|Hin]; [|contradiction].
        now rewrite String.eqb_refl in E.
      * intros k l y [[= <- <-]|Hin] Hy; eauto.
Qed.

Lemma setdefault_keys v release rel w :
  In w (map fst (setdefault v release rel)) <-> w = v \/ In w (map fst rel).
Proof.
  induction rel as [|[v0 r0] rel IH]; simpl.
  - intuition.
  - destruct (version_eqb v0 v) eqn:E; simpl.
    + apply version_eqb_eq in E. subst. intuition.
    + rewrite IH. intuition.
Qed.

Lemma good_setdefault v release rel :
  Release.elements release = [] ->
  good_released rel -> good_released (setdefault v release rel).
Proof.
  intros He. unfold good_released. induction rel as [|[v0 r0] rel IH]; simpl.
  - intros _. split; [repeat constructor; intros []|].
    intros w r [[= <- <-]|[]]. rewrite He. split; [constructor|intros ? ? ? []].
  - intros [Hnd Hk]. inversion Hnd as [|? ? Hnotin Hnd']; subst.
    destruct (version_eqb v0 v) eqn:E; simpl.
    + split; [assumption|]. intros; eauto.
    + destruct IH as [IH1 IH2].
      { split; [assumption|]. intros; eauto. }
      split.
      * constructor; [|assumption]. rewrite setdefault_keys.
        intros [->|Hin]; [|contradiction].
        assert (version_eqb v v = true) by now apply version_eqb_eq.
        congruence.
      * intros w r [[= <- <-]|Hin]; eauto.
Qed.

Lemma good_released_append v x rel rel' :
  released_append v (commit_type_of x) x rel = Ok rel' ->
  good_released rel -> good_released rel'.
Proof.
  unfold good_released. revert rel'.
  induction rel as [|[v0 r0] rel IH]; intros rel'; simpl; [discriminate|].
  destruct (version_eqb v0 v) eqn:E.
  - intros [= <-] [Hnd Hk]. simpl. split; [assumption|].
    intros w r [[= <- <-]|Hin]; [|eauto]. simpl.
    apply good_bucket_append. eauto.
  - destruct (released_append v (commit_type_of x) x rel) as [rest|e] eqn:Ha;
      simpl; [|discriminate].
    intros [= <-] [Hnd Hk]. inversion Hnd as [|? ? Hnotin Hnd']; subst.
    destruct (IH _ eq_refl) as [IH1 IH2].
    { split; [assumption|]. intros; eauto. }
    assert (map fst rest = map fst rel) as Hkeys.
    { clear -Ha. revert rest Ha.
      induction rel as [|[v1 r1] rel IH]; intros rest; simpl; [discriminate|].
      destruct (version_eqb v1 v); [now intros [= <-]|].
      destruct (released_append v (commit_type_of x) x rel) as [rest'|e];
        simpl; [|discriminate].
      intros [= <-]. simpl. f_equal. now apply IH. }
    simpl. split.
    + constructor; [now rewrite Hkeys | assumption].
    + intros w r [[= <- <-]|Hin]; eauto.
Qed.

Lemma history_loop_good commits :
  forall flag tv unrel rel h,
  history_loop committer parser tvs commits flag tv unrel rel = Ok h ->
  good_elements unrel -> good_released rel ->
  good_elements (unreleased h) /\ good_released (released h).
Proof.
  induction commits as [|commit commits IH]; intros flag tv unrel rel h.
  - simpl. intros [= <-]. auto.
  - cbn [history_loop].
    destruct (parser commit) as [pr|e] eqn:Hp; [|discriminate].
    cbn [bind].
    destruct (first_tag_and_version tvs commit) as [[tag version]|].
    + destruct (new_release committer tag) as [release|e] eqn:Hr;
        [|discriminate].
      cbn [bind]. destruct version as [v|]; [|discriminate].
      cbn [bind negb].
      destruct (released_append v (commit_type_of pr) pr
                  (setdefault v release rel)) as [rel'|e] eqn:Ha;
        [|discriminate].
      cbn [bind]. intros H Hu Hrl. apply (IH _ _ _ _ _ H); [assumption|].
      eapply good_released_append; [eassumption|].
      apply good_setdefault; [eapply new_release_elements; eauto | assumption].
    + cbn [bind]. destruct flag; cbn [negb].
      * destruct tv as [v|]; [|discriminate].
        destruct (released_append v (commit_type_of pr) pr rel)
          as [rel'|e] eqn:Ha; [|discriminate].
        cbn [bind]. intros H Hu Hrl. apply (IH _ _ _ _ _ H); [assumption|].
        eapply good_released_append; eassumption.
      * intros H Hu Hrl. apply (IH _ _ _ _ _ H); [|assumption].
        now apply good_bucket_append.
Qed.




End HistoryLoop.


(** C6: when [release_history] returns a history, every walked commit was
    parsed and its result sits in exactly one bucket: all buckets together
    are a rearrangement of the parse results of the walk, the unreleased
    buckets hold exactly the results of the commits met before the first
    tagged commit and the releases' buckets hold the rest; within each
    dictionary the keys are distinct (so each result lies under one version
    and one type) and every result lies under its own type, ["unknown"] for
    a ParseError and the parsed type otherwise. *)
Theorem release_history_partitions_commits
    (configured_committer : Actor) (translator : VersionTranslator)
    (commit_parser : Commit -> result ParseResult) (repo : Repo)
    (h : ReleaseHistory) :
  release_history configured_committer translator commit_parser repo = Ok h ->
  exists tvs results,
    tags_and_versions (tags repo) translator = Ok tvs
    /\ Forall2 (fun c r => commit_parser c = Ok r)
         (iter_commits repo None) results
    /\ Permutation (all_entries h) results
    /\ (let n := List.length (before_first_tag tvs (iter_commits repo None)) in
        Permutation (entries (unreleased h)) (firstn n results)
        /\ Permutation (released_entries (released h)) (skipn n results))
    /\ good_elements (unreleased h)
    /\ good_released (released h)
    /\ (forall e, commit_type_of (Failed e) = "unknown")
    /\ (forall p, commit_type_of (Parsed p) = ParsedCommit.type p).
Proof.
  unfold release_history. intros H.
  destruct (tags_and_versions (tags repo) translator) as [tvs|e];
    [|discriminate].
  cbn [bind] in H.
  destruct (history_loop_entries _ _ _ _ _ _ _ _ _ H) as (results & F & P1 & P2).
  cbn [entries released_entries flat_map app] in P1, P2.
  exists tvs, results. split; [reflexivity|]. split; [exact F|].
  split; [|split; [split; assumption|]].
  - unfold all_entries. rewrite P1, P2. now rewrite firstn_skipn.
  - destruct (history_loop_good _ _ _ _ _ _ _ _ _ H) as [G1 G2].
    + split; [constructor | intros ? ? ? []].
    + split; [constructor | intros ? ? []].
    + split; [exact G1|]. split; [exact G2|]. split; reflexivity.
Qed.

Lemma release_history_partitions_commits_witness :
  release_history "release-bot" Translator.default Scenario.angular
    Scenario.s6_repo = Ok Scenario.s6_history
  /\ Scenario.summary (unreleased Scenario.s6_history)
     = [("feature", ["feat: d"])]
  /\ map (fun vr => (version_str (fst vr),
                     Scenario.summary (Release.elements (snd vr))))
       (released Scenario.s6_history)
     = [("1.1.0", [("documentation", ["docs: c"]); ("fix", ["fix: b"]);
                   ("feature", ["feat: a"])]);
        ("1.0.0", [("chore", ["chore: first"])])]
  /\ List.length (all_entries Scenario.s6_history) = 5%nat.
Proof.
  assert (release_history "release-bot" Translator.default Scenario.angular
            Scenario.s6_repo = Ok Scenario.s6_history) as H
    by (vm_compute; reflexivity).
  destruct (release_history_partitions_commits _ _ _ _ _ H)
    as (tvs & results & _ & F & P & _).
  split; [exact H|]. split; [reflexivity|]. split; [reflexivity|].
  rewrite (Permutation_length P).
  rewrite <- (Forall2_length F). reflexivity.
Defined.

(** * Further properties *)

(** ** The search for the latest release in the history *)



(** X1: whatever [_bfs_for_latest_version_in_history] returns is the
    version of one of the given full-release tags, and that tag points at
    the merge base or at one of its ancestors. *)
Theorem bfs_result_is_a_release_in_history
    (merge_base : Commit) (tvs : list (Tag.t * Version)) (v : Version) :
  _bfs_for_latest_version_in_history merge_base tvs = Some v ->
  exists tag c,
    ancestor_or_self c merge_base
    /\ In (tag, v) tvs
    /\ commit_eqb (Tag.commit tag) c = true.
Proof.
  unfold _bfs_for_latest_version_in_history.
  destruct (bfs tvs (S (commit_size merge_base)) [] [merge_base])
    as [r|] eqn:E; [|discriminate].
  intros ->. apply bfs_sound in E.
  destruct E as (tag & c & c0 & [<-|[]] & Hanc & Hin & Ht).
  exists tag, c. auto.
Qed.

Lemma bfs_result_is_a_release_in_history_witness :
  exists tag c,
    ancestor_or_self c Scenario.s1_c
    /\ In (tag, full_version 1 2 3)
         [(Scenario.lightweight "v1.2.3" Scenario.s1_base, full_version 1 2 3)]
    /\ commit_eqb (Tag.commit tag) c = true.
Proof.
  apply bfs_result_is_a_release_in_history. reflexivity.
Defined.



(** ** Sorting the tags *)

Lemma insort_versions x l :
  has_version x -> Forall has_version l ->
  exists l', insort snd key_lt x l = Ok l' /\ Permutation (x :: l) l'.
Proof.
  intros Hx. induction l as [|y l IH]; intros Hl.
  - exists [x]. auto.
  - inversion Hl as [|? ? Hy Hl']; subst.
    destruct x as [tx [vx|]]; [|now elim Hx].
    destruct y as [ty [vy|]]; [|now elim Hy].
    cbn [insort snd key_lt bind].
    destruct (version_ltb vx vy).
    + eexists. split; reflexivity.
    + destruct (IH Hl') as (l' & -> & P). cbn [bind].
      eexists. split; [reflexivity|].
      rewrite perm_swap. now apply perm_skip.
Qed.

Lemma insort_none (x y : Tag.t * option Version) l :
  snd x = None \/ snd y = None ->
  insort snd key_lt x (y :: l)
  = Raise (TypeError "'<' not supported between instances").
Proof.
  destruct x as [tx [vx|]], y as [ty [vy|]]; cbn; intros [H|H];
    try discriminate; reflexivity.
Qed.

Lemma sort_from_none l :
  forall acc,
  acc <> [] -> Forall has_version acc ->
  Exists (fun tv => snd tv = None) l ->
  sort_from snd key_lt acc l
  = Raise (TypeError "'<' not supported between instances").
Proof.
  induction l as [|x l IH]; intros acc Hne Hacc Hex; [inversion Hex|].
  cbn [sort_from].
  destruct (snd x) as [vx|] eqn:Ex.
  - assert (has_version x) as Hx by (unfold has_version; congruence).
    destruct (insort_versions x acc Hx Hacc) as (acc' & -> & P). cbn [bind].
    apply IH.
    + intros ->. apply Permutation_sym, Permutation_nil in P. discriminate.
    + apply (Permutation_Forall P). now constructor.
    + inversion Hex; subst; [congruence | assumption].
  - destruct acc as [|y acc]; [congruence|].
    rewrite insort_none by auto. reflexivity.
Qed.

Lemma py_sorted_none (l : list (Tag.t * option Version)) :
  (2 <= List.length l)%nat ->
  Exists (fun tv => snd tv = None) l ->
  py_sorted snd key_lt l
  = Raise (TypeError "'<' not supported between instances").
Proof.
  unfold py_sorted. destruct l as [|x [|y l]]; cbn [List.length]; try lia.
  intros _ Hex.
  change (sort_from snd key_lt [] (x :: y :: l))
    with (sort_from snd key_lt [x] (y :: l)).
  destruct (snd x) as [vx|] eqn:Ex.
  - apply sort_from_none.
    + discriminate.
    + repeat constructor. unfold has_version. congruence.
    + inversion Hex; subst; [congruence | assumption].
  - change (sort_from snd key_lt [x] (y :: l))
      with (acc' <- insort snd key_lt y [x] ;; sort_from snd key_lt acc' l).
    rewrite insort_none by auto. reflexivity.
Qed.

(** Two tags or more, one of which does not translate: the sort compares
    a missing version and raises. *)
Lemma tags_and_versions_raises tags translator t :
  In t tags -> from_tag translator (Tag.name t) = None ->
  (2 <= List.length tags)%nat ->
  tags_and_versions tags translator
  = Raise (TypeError "'<' not supported between instances").
Proof.
  intros Hin Hnone Hlen. unfold tags_and_versions, py_sorted_reverse.
  rewrite py_sorted_none; [reflexivity | |].
  - now rewrite length_rev, length_map.
  - apply Exists_exists. exists (t, from_tag translator (Tag.name t)).
    split; [|exact Hnone]. apply -> in_rev.
    apply in_map_iff. now exists t.
Qed.

(** X3: [tags_and_versions] on any tags.  When every tag translates, the
    result holds every tag with its version, highest precedence first.
    When some tag does not translate and there are two tags or more, the
    call raises [TypeError].  With at most one tag nothing is compared and
    the tag comes back as it is, translated or not. *)
Theorem tags_and_versions_sorts_or_raises
    (tags : list Tag.t) (translator : VersionTranslator) :
  let pairs := map (fun t => (t, from_tag translator (Tag.name t))) tags in
  ((forall t, In t tags -> from_tag translator (Tag.name t) <> None) ->
   exists l,
     tags_and_versions tags translator = Ok l
     /\ Permutation pairs l /\ descending l)
  /\ ((exists t, In t tags /\ from_tag translator (Tag.name t) = None) ->
      (2 <= List.length tags)%nat ->
      tags_and_versions tags translator
      = Raise (TypeError "'<' not supported between instances"))
  /\ (List.length tags <= 1 ->
      tags_and_versions tags translator = Ok pairs)%nat.
Proof.
  intros pairs. split; [|split].
  - apply tags_and_versions_descending.
  - intros (t & Hin & Hnone) Hlen.
    now apply (tags_and_versions_raises tags translator t).
  - intros Hlen. unfold tags_and_versions. fold pairs.
    assert (List.length pairs <= 1)%nat as Hp
      by (unfold pairs; now rewrite length_map).
    destruct pairs as [|p [|q pairs']]; cbn in Hp; try lia; reflexivity.
Qed.

(** ** Incrementing a version *)

Lemma compare_core_refl v : compare_core v v = Eq.
Proof. unfold compare_core. now rewrite !N.compare_refl. Qed.

Lemma finalize_above_prerelease v :
  is_prerelease v = true -> version_compare (finalize_version v) v = Gt.
Proof.
  unfold is_prerelease, version_compare, compare_prerelease, compare_core.
  cbn. rewrite !N.compare_refl. now destruct (prerelease_token v).
Qed.

Lemma core_gt_version_gt a b :
  compare_core a b = Gt -> version_compare a b = Gt.
Proof. unfold version_compare. now intros ->. Qed.

Lemma compare_core_finalize a b :
  compare_core (finalize_version a) b = compare_core a b.
Proof. reflexivity. Qed.

Lemma bump_core_gt v level :
  level <> NO_RELEASE -> compare_core (bump v level) v = Gt.
Proof.
  intros H. rewrite bump_unfold. destruct level; [congruence| | |].
  - apply compare_core_bump_patch.
  - apply compare_core_bump_minor.
  - apply compare_core_bump_major.
Qed.

Lemma min_MINOR_not_NO_RELEASE lb :
  lb <> NO_RELEASE -> LevelBump.min lb MINOR <> NO_RELEASE.
Proof. destruct lb; cbn; congruence. Qed.

(** [_increment_version] without [prerelease]. *)
Lemma _increment_version_full
    (lv lf lfh : Version) (lb : LevelBump.t) (tok : string) (moz : bool) :
  let r := _increment_version lv lf lfh lb false tok moz in
  is_prerelease r = false
  /\ (is_prerelease lv = true -> version_compare r lv = Gt)
  /\ (lb <> NO_RELEASE -> version_compare r lv = Gt)
  /\ version_ltb r lv = false.
Proof.
  intros r. subst r. unfold _increment_version.
  set (eff := if negb moz && N.eqb (major lv) 0
              then LevelBump.min lb MINOR else lb).
  assert (lb <> NO_RELEASE -> eff <> NO_RELEASE) as Heff.
  { subst eff. destruct (negb moz && N.eqb (major lv) 0); auto.
    apply min_MINOR_not_NO_RELEASE. }
  destruct (is_prerelease lv) eqn:Hpre.
  - destruct (LevelBump.ltb (version_sub lv lfh) eff) eqn:Hlt.
    + assert (eff <> NO_RELEASE) as Hne.
      { intros E. rewrite E in Hlt. now destruct (version_sub lv lfh). }
      assert (version_compare (finalize_version (bump lv eff)) lv = Gt) as G.
      { apply core_gt_version_gt. rewrite compare_core_finalize.
        now apply bump_core_gt. }
      repeat split; auto. unfold version_ltb. now rewrite G.
    + pose proof (finalize_above_prerelease lv Hpre) as G.
      repeat split; auto. unfold version_ltb. now rewrite G.
  - split; [|split; [discriminate|split]].
    + rewrite bump_unfold. destruct eff; cbn; auto.
    + intros Hne. apply core_gt_version_gt, bump_core_gt. auto.
    + unfold version_ltb.
      destruct (LevelBump.eqb eff NO_RELEASE) eqn:E.
      * apply LevelBump_eqb_eq in E. rewrite E, bump_unfold.
        unfold version_compare. rewrite compare_core_refl.
        unfold compare_prerelease. unfold is_prerelease in Hpre.
        now destruct (prerelease_token lv).
      * assert (eff <> NO_RELEASE) as Hne
          by (intros H; rewrite H in E; discriminate).
        now rewrite (core_gt_version_gt _ _ (bump_core_gt lv eff Hne)).
Qed.

(** X4: without [prerelease], [_increment_version] returns a full release
    that is never below [latest_version]; it is strictly above it when
    [latest_version] is a prerelease or the level is not NO_RELEASE,
    whatever [major_on_zero]. *)
Theorem full_release_increment
    (lv lf lfh : Version) (lb : LevelBump.t) (tok : string) (moz : bool) :
  let r := _increment_version lv lf lfh lb false tok moz in
  is_prerelease r = false
  /\ (is_prerelease lv = true -> version_compare r lv = Gt)
  /\ (lb <> NO_RELEASE -> version_compare r lv = Gt)
  /\ version_ltb r lv = false.
Proof. exact (_increment_version_full lv lf lfh lb tok moz). Qed.

Lemma compare_core_Gt_iff a b :
  compare_core a b = Gt <->
  (major b < major a
   \/ major a = major b
      /\ (minor b < minor a
          \/ minor a = minor b /\ patch b < patch a))%N.
Proof.
  unfold compare_core, lex.
  destruct (N.compare_spec (major a) (major b));
    destruct (N.compare_spec (minor a) (minor b));
    destruct (N.compare_spec (patch a) (patch b));
    split; intros; try discriminate; try reflexivity; lia.
Qed.

Lemma compare_core_Lt_iff a b :
  compare_core a b = Lt <->
  (major a < major b
   \/ major a = major b
      /\ (minor a < minor b
          \/ minor a = minor b /\ patch a < patch b))%N.
Proof.
  unfold compare_core, lex.
  destruct (N.compare_spec (major a) (major b));
    destruct (N.compare_spec (minor a) (minor b));
    destruct (N.compare_spec (patch a) (patch b));
    split; intros; try discriminate; try reflexivity; lia.
Qed.

Lemma string_compare_refl s : String.compare s s = Eq.
Proof.
  pose proof (String.compare_antisym s s) as H.
  destruct (String.compare s s); [reflexivity | discriminate H | discriminate H].
Qed.

(** [_increment_version] with [prerelease]. *)
Lemma _increment_version_prerelease
    (lv lf lfh : Version) (lb : LevelBump.t) (tok : string) (moz : bool) :
  let r := _increment_version lv lf lfh lb true tok moz in
  prerelease_token r = Some tok
  /\ (exists n, prerelease_revision r = Some n /\ (1 <= n)%N)
  /\ (prerelease_token lv = Some tok -> compare_core lf lfh <> Lt ->
      version_compare r lv = Gt).
Proof.
  intros r. subst r. unfold _increment_version.
  set (eff := if negb moz && N.eqb (major lv) 0
              then LevelBump.min lb MINOR else lb).
  destruct (LevelBump.ltb (version_sub lv lfh) eff) eqn:Hlt.
  - split; [reflexivity|]. split; [exists 1%N; split; [reflexivity | lia]|].
    intros _ Hge. apply core_gt_version_gt.
    change (compare_core (bump (finalize_version lf) eff) lv = Gt).
    rewrite compare_core_Lt_iff in Hge. apply compare_core_Gt_iff.
    rewrite bump_unfold. unfold version_sub in Hlt.
    destruct (N.eqb_spec (major lv) (major lfh));
      destruct (N.eqb_spec (minor lv) (minor lfh));
      destruct (N.eqb_spec (patch lv) (patch lfh));
      cbn [negb] in Hlt; destruct eff; try discriminate Hlt; cbn; lia.
  - split; [reflexivity|]. split.
    + eexists. split; [reflexivity|].
      destruct (option_eqb String.eqb (token_of lv) (Some tok)); cbn [negb]; lia.
    + intros Htok _. unfold token_of. rewrite Htok.
      replace (option_eqb String.eqb (Some tok) (Some tok)) with true
        by (symmetry; now apply option_eqb_string_eq).
      cbn [negb]. unfold version_compare, to_prerelease, compare_core,
        compare_prerelease. cbn. rewrite !N.compare_refl, Htok.
      cbn. rewrite string_compare_refl. cbn.
      unfold revision_or_0. destruct (prerelease_revision lv); cbn;
        [|reflexivity].
      apply N.compare_gt_iff. lia.
Qed.

(** X5: with [prerelease], [_increment_version] returns a prerelease that
    carries the configured token and a revision of at least 1.  When
    [latest_version] already carries that token and the latest full release
    of the repository is not below the one in the branch's history, the
    result is strictly above [latest_version]. *)
Theorem prerelease_increment_progress
    (lv lf lfh : Version) (lb : LevelBump.t) (tok : string) (moz : bool) :
  let r := _increment_version lv lf lfh lb true tok moz in
  prerelease_token r = Some tok
  /\ (exists n, prerelease_revision r = Some n /\ (1 <= n)%N)
  /\ (prerelease_token lv = Some tok -> compare_core lf lfh <> Lt ->
      version_compare r lv = Gt).
Proof. exact (_increment_version_prerelease lv lf lfh lb tok moz). Qed.

(** X10: [Version.bump] with [prerelease=True] and a level above
    NO_RELEASE, on a full release or on a prerelease with a revision,
    returns a prerelease strictly above the version.  On a prerelease it
    ignores both the level and the token passed: the core triple and the
    token stay and the revision goes up by one.  On a full release it bumps
    the core triple by the level and starts revision 1 of the token
    ([rc] for an empty token). *)
Theorem bump_to_prerelease (v : Version) (level : LevelBump.t) (tok : string) :
  level <> NO_RELEASE ->
  (prerelease_token v = None \/ prerelease_revision v <> None) ->
  let r := bump_full v level true tok in
  version_compare r v = Gt
  /\ is_prerelease r = true
  /\ (is_prerelease v = true ->
      compare_core r v = Eq
      /\ prerelease_token r = prerelease_token v
      /\ prerelease_revision r = option_map N.succ (prerelease_revision v))
  /\ (is_prerelease v = false ->
      compare_core r (bump v level) = Eq
      /\ prerelease_token r = Some (if String.eqb tok "" then "rc" else tok)
      /\ prerelease_revision r = Some 1%N).
Proof.
  intros Hl Hv r. subst r. unfold bump_full, is_prerelease.
  destruct (prerelease_token v) as [t|] eqn:Ht.
  - assert (Hr : prerelease_revision v <> None)
      by (destruct Hv as [Hv|Hv]; [discriminate Hv | exact Hv]).
    destruct (prerelease_revision v) as [n|] eqn:Hn; [|congruence].
    cbn [andb] in *.
    replace (match level with
             | NO_RELEASE => v
             | _ => bump_prerelease v "rc"
             end) with (bump_prerelease v "rc")
      by (destruct level; try reflexivity; congruence).
    unfold bump_prerelease. rewrite Ht, Hn. cbn.
    split; [|split; [reflexivity|split; [|discriminate]]].
    + unfold version_compare, compare_core, compare_prerelease. cbn.
      rewrite !N.compare_refl, Ht, Hn. cbn. rewrite string_compare_refl. cbn.
      apply N.compare_gt_iff. lia.
    + intros _. unfold compare_core. cbn. rewrite !N.compare_refl.
      repeat split.
  - cbn [andb].
    assert (Hc : compare_core (bump v level) v = Gt) by now apply bump_core_gt.
    rewrite bump_unfold in Hc.
    destruct level; [congruence| | |];
      (split; [apply core_gt_version_gt; exact Hc|];
       split; [reflexivity|]; split; [discriminate|]; intros _;
       rewrite bump_unfold; unfold compare_core; cbn;
       rewrite !N.compare_refl; repeat split).
Qed.

Lemma bump_to_prerelease_witness :
  version_compare (bump_full (full_version 1 0 0) MAJOR true "rc")
    (full_version 1 0 0) = Gt.
Proof.
  refine (proj1 (bump_to_prerelease (full_version 1 0 0) MAJOR "rc" _ _)).
  - discriminate.
  - left. reflexivity.
Defined.

(** ** [next_version] *)

Lemma insort_perm {A K} (key : A -> K) (lt : K -> K -> result bool) x l :
  forall l', insort key lt x l = Ok l' -> Permutation (x :: l) l'.
Proof.
  induction l as [|y l IH]; cbn [insort]; intros l'.
  - now intros [= <-].
  - destruct (lt (key x) (key y)) as [[|]|e]; cbn [bind]; try discriminate.
    + now intros [= <-].
    + destruct (insort key lt x l) as [r|e]; cbn [bind]; try discriminate.
      intros [= <-]. rewrite perm_swap. apply perm_skip. now apply IH.
Qed.

Lemma sort_from_perm {A K} (key : A -> K) (lt : K -> K -> result bool) l :
  forall acc r, sort_from key lt acc l = Ok r -> Permutation (acc ++ l) r.
Proof.
  induction l as [|x l IH]; cbn [sort_from]; intros acc r.
  - intros [= <-]. now rewrite app_nil_r.
  - destruct (insort key lt x acc) as [acc'|e] eqn:E; cbn [bind];
      try discriminate.
    intros H. apply IH in H. apply insort_perm in E.
    rewrite <- H, <- E. symmetry. apply Permutation_middle.
Qed.

Lemma tags_and_versions_perm tags translator l :
  tags_and_versions tags translator = Ok l ->
  Permutation (map (fun t => (t, from_tag translator (Tag.name t))) tags) l.
Proof.
  unfold tags_and_versions, py_sorted_reverse, py_sorted.
  destruct (sort_from _ _ _ _) as [r|e] eqn:E; cbn [bind]; try discriminate.
  intros [= <-]. apply sort_from_perm in E. cbn [app] in E.
  rewrite <- (Permutation_rev r), <- E. apply Permutation_rev.
Qed.

Lemma tags_and_versions_in tags translator l t v :
  tags_and_versions tags translator = Ok l -> In (t, Some v) l ->
  In t tags /\ from_tag translator (Tag.name t) = Some v.
Proof.
  intros H Hin. apply tags_and_versions_perm in H.
  apply (Permutation_in _ (Permutation_sym H)) in Hin.
  apply in_map_iff in Hin. destruct Hin as (t' & [= -> Hv] & Hin). auto.
Qed.

Lemma full_releases_in tvs :
  forall frs, full_releases tvs = Ok frs ->
  forall t v, In (t, v) frs -> In (t, Some v) tvs /\ is_prerelease v = false.
Proof.
  induction tvs as [|[t0 [v0|]] tvs IH]; cbn [full_releases]; intros frs.
  - intros [= <-] t v [].
  - destruct (full_releases tvs) as [r|e]; cbn [bind]; try discriminate.
    intros [= <-] t v Hin.
    destruct (is_prerelease v0) eqn:E; cbn [negb] in Hin.
    + destruct (IH r eq_refl t v Hin). split; [now right | assumption].
    + destruct Hin as [[= -> ->]|Hin]; [split; [now left | assumption]|].
      destruct (IH r eq_refl t v Hin). split; [now right | assumption].
  - discriminate.
Qed.

Lemma with_versions_in tvs t v :
  In (t, v) (with_versions tvs) -> In (t, Some v) tvs.
Proof.
  induction tvs as [|[t0 [v0|]] tvs IH]; cbn [with_versions]; [intros []| |].
  - intros [[= -> ->]|H]; [now left | right; auto].
  - intros H. right. auto.
Qed.

Lemma walk_commits_spec commit_parser prerelease tvs commits :
  forall levels lv levels' lv',
  walk_commits commit_parser prerelease tvs commits levels lv
  = Ok (levels', lv') ->
  (lv' = lv
   \/ exists tag, In (tag, lv') tvs
        /\ (prerelease || negb (is_prerelease lv')) = true)
  /\ forall l, In l levels' ->
       In l levels
       \/ exists c p, In c commits /\ commit_parser c = Ok (Parsed p)
            /\ ParsedCommit.bump p = l.
Proof.
  induction commits as [|c commits IH]; cbn [walk_commits];
    intros levels lv levels' lv'.
  - intros [= <- <-]. split; [now left | now left].
  - destruct (commit_parser c) as [pr|e] eqn:Ep; cbn [bind]; try discriminate.
    set (levels1 := match pr with
                    | Parsed p => set_add (ParsedCommit.bump p) levels
                    | Failed _ => levels
                    end).
    assert (Hl1 : forall l, In l levels1 ->
              In l levels
              \/ exists c0 p, In c0 (c :: commits)
                   /\ commit_parser c0 = Ok (Parsed p)
                   /\ ParsedCommit.bump p = l).
    { intros l Hin. subst levels1. destruct pr as [p|e]; [|now left].
      apply set_add_in in Hin. destruct Hin as [->|Hin]; [|now left].
      right. exists c, p. repeat split; auto. now left. }
    destruct (first_tag_at _ c) as [version|] eqn:Ef.
    + intros [= <- <-]. split; [|exact Hl1].
      right. apply first_tag_at_in in Ef. destruct Ef as (tag & Hin & _).
      apply filter_In in Hin. destruct Hin as [Hin Hf]. exists tag. auto.
    + intros H. apply IH in H. destruct H as [H1 H2]. split; [exact H1|].
      intros l Hin. apply H2 in Hin.
      destruct Hin as [Hin|(c0 & p & Hc0 & Hp & Hb)]; [now apply Hl1|].
      right. exists c0, p. repeat split; auto. now right.
Qed.

Section NextVersionFacts.

Variable repo : Repo.
Variable translator : VersionTranslator.
Variable commit_parser : Commit -> result ParseResult.
Variable prerelease : bool.
Variable major_on_zero : bool.

Lemma next_version_cases v :
  next_version repo translator commit_parser prerelease major_on_zero = Ok v ->
  exists lv levels lf lfh,
    known_version repo translator lv
    /\ (forall l, In l levels ->
          exists rev c p, In c (iter_commits repo rev)
            /\ commit_parser c = Ok (Parsed p) /\ ParsedCommit.bump p = l)
    /\ (prerelease = false -> is_prerelease lv = true ->
        lv = Version_init 0 0 0 (translator_prerelease_token translator))
    /\ let level_bump := LevelBump.max_default levels NO_RELEASE in
       if LevelBump.eqb level_bump NO_RELEASE then v = lv
       else v = _increment_version lv lf lfh level_bump prerelease
                  (translator_prerelease_token translator) major_on_zero.
Proof.
  unfold next_version.
  destruct (tags_and_versions (tags repo) translator) as [tvs|e] eqn:Etv;
    cbn [bind]; try discriminate.
  destruct (full_releases tvs) as [frs|e] eqn:Efr; cbn [bind];
    try discriminate.
  destruct (from_string translator "0.0.0") as [d|e]; cbn [bind];
    try discriminate.
  set (lt_lf := match frs with (t, v0) :: _ => (Some t, v0) | [] => (None, d) end).
  destruct lt_lf as [ltag lf].
  set (bases := match ltag with
                | None => merge_base repo (active_branch repo) (active_branch repo)
                | Some tag => merge_base repo (Tag.name tag) (active_branch repo)
                end).
  destruct (1 <? List.length bases)%nat; try discriminate.
  destruct bases as [|[mb|] ?]; try discriminate.
  set (found := _bfs_for_latest_version_in_history mb frs).
  assert (Hfound : forall w, found = Some w ->
            (exists tag, In tag (tags repo)
               /\ from_tag translator (Tag.name tag) = Some w)
            /\ is_prerelease w = false).
  { intros w Hw. subst found. unfold _bfs_for_latest_version_in_history in Hw.
    destruct (bfs frs _ [] [mb]) as [r|] eqn:Eb; [|discriminate]. subst r.
    apply bfs_sound in Eb. destruct Eb as (tag & c & c0 & _ & _ & Hin & _).
    destruct (full_releases_in _ _ Efr _ _ Hin) as [Hin' Hp]. split; [|exact Hp].
    exists tag. eapply tags_and_versions_in; eauto. }
  set (commits := match found with
                  | None => iter_commits repo None
                  | Some v0 => iter_commits repo
                                 (Some (str_to_tag translator v0 ++ "...")%string)
                  end).
  set (lv0 := match found with
              | Some v0 => v0
              | None => Version_init 0 0 0 (translator_prerelease_token translator)
              end).
  destruct (walk_commits _ _ _ commits [] lv0) as [[levels lv]|e] eqn:Ew;
    cbn [bind]; try discriminate.
  apply walk_commits_spec in Ew. destruct Ew as [Hlv Hlev].
  intros H. exists lv, levels, lf, lv0.
  split; [|split; [|split]].
  - destruct Hlv as [->|(tag & Hin & _)].
    + subst lv0. destruct found as [w|] eqn:Ef; [|now left].
      right. now apply Hfound.
    + right. exists tag. apply with_versions_in in Hin.
      eapply tags_and_versions_in; eauto.
  - intros l Hin. apply Hlev in Hin. destruct Hin as [[]|(c & p & Hc & Hp)].
    subst commits. destruct found; eauto.
  - intros -> Hpre. destruct Hlv as [->|(tag & _ & Hf)].
    + subst lv0. destruct found as [w|] eqn:Ef; [|reflexivity].
      destruct (Hfound w eq_refl) as [_ Hw]. congruence.
    + cbn [orb] in Hf. rewrite Hpre in Hf. discriminate.
  - cbv zeta. destruct (LevelBump.eqb _ NO_RELEASE); now injection H.
Qed.

(** X6: a version [next_version] returns is either a version it found (the
    version of a tag of the repository, or the initial [0.0.0]) or an
    increment of one: on a release branch a full release strictly above
    it, on a prerelease branch a prerelease with the configured token and a
    revision of at least 1. *)
Theorem next_version_result (v : Version) :
  next_version repo translator commit_parser prerelease major_on_zero = Ok v ->
  exists lv,
    known_version repo translator lv
    /\ (v = lv
        \/ if prerelease
           then prerelease_token v = Some (translator_prerelease_token translator)
                /\ exists n, prerelease_revision v = Some n /\ (1 <= n)%N
           else is_prerelease v = false /\ version_compare v lv = Gt).
Proof.
  intros H. apply next_version_cases in H.
  destruct H as (lv & levels & lf & lfh & Hk & _ & _ & H). cbv zeta in H.
  exists lv. split; [exact Hk|].
  destruct (LevelBump.eqb _ NO_RELEASE) eqn:E; [now left|]. right. subst v.
  destruct prerelease.
  - destruct (_increment_version_prerelease lv lf lfh
                (max_default levels NO_RELEASE)
                (translator_prerelease_token translator) major_on_zero)
      as (H1 & H2 & _). auto.
  - destruct (_increment_version_full lv lf lfh
                (max_default levels NO_RELEASE)
                (translator_prerelease_token translator) major_on_zero)
      as (H1 & _ & H3 & _). split; [exact H1|]. apply H3.
    intros E'. rewrite E' in E. discriminate.
Qed.

(** X7: when no commit the repository lists parses to a level above
    NO_RELEASE, [next_version] makes no new version: what it returns is
    the version of an existing tag, or the initial [0.0.0]. *)
Theorem next_version_without_bump (v : Version) :
  (forall rev c p, In c (iter_commits repo rev) ->
     commit_parser c = Ok (Parsed p) -> ParsedCommit.bump p = NO_RELEASE) ->
  next_version repo translator commit_parser prerelease major_on_zero = Ok v ->
  known_version repo translator v.
Proof.
  intros Hno H. apply next_version_cases in H.
  destruct H as (lv & levels & lf & lfh & Hk & Hl & _ & H). cbv zeta in H.
  assert (E : max_default levels NO_RELEASE = NO_RELEASE).
  { destruct levels as [|l0 ls] eqn:El; [reflexivity|]. rewrite <- El in *.
    assert (Hne : levels <> []) by (rewrite El; discriminate).
    pose proof (max_default_in levels NO_RELEASE Hne) as Hin.
    apply Hl in Hin. destruct Hin as (rev & c & p & Hc & Hp & Hb).
    rewrite <- Hb. eauto. }
  rewrite E in H. cbn in H. now subst v.
Qed.

End NextVersionFacts.

Lemma next_version_result_witness :
  exists lv,
    known_version Scenario.s1_repo Translator.default lv
    /\ (full_version 2 0 0 = lv
        \/ (is_prerelease (full_version 2 0 0) = false
            /\ version_compare (full_version 2 0 0) lv = Gt)).
Proof.
  apply (next_version_result Scenario.s1_repo Translator.default
           Scenario.angular false true (full_version 2 0 0)).
  vm_compute. reflexivity.
Defined.

Lemma next_version_without_bump_witness :
  known_version Cases.docs_repo Translator.default (full_version 1 0 0).
Proof.
  apply (next_version_without_bump Cases.docs_repo Translator.default
           Scenario.angular false true).
  - intros rev c p Hin Hp. destruct rev as [r|]; cbn in Hin.
    + destruct (String.eqb r _); cbn in Hin;
        [destruct Hin as [<-|[]] | destruct Hin];
        vm_compute in Hp; injection Hp as <-; reflexivity.
    + destruct Hin as [<-|[<-|[]]];
        vm_compute in Hp; injection Hp as <-; reflexivity.
  - vm_compute. reflexivity.
Defined.



(** X9: a single tag that does not translate makes [next_version] fail,
    whatever the commits: with [TypeError] from the sort when the repository
    has two tags or more, with [AttributeError] from [v.is_prerelease] when
    it is the only tag. *)
Theorem next_version_rejects_untranslated_tag
    (repo : Repo) (translator : VersionTranslator)
    (commit_parser : Commit -> result ParseResult)
    (prerelease major_on_zero : bool) (tag : Tag.t) :
  In tag (tags repo) ->
  from_tag translator (Tag.name tag) = None ->
  next_version repo translator commit_parser prerelease major_on_zero
  = Raise (if (2 <=? List.length (tags repo))%nat
           then TypeError "'<' not supported between instances"
           else AttributeError
                  "'NoneType' object has no attribute 'is_prerelease'").
Proof.
  intros Hin Hnone. unfold next_version.
  destruct (2 <=? List.length (tags repo))%nat eqn:E.
  - apply Nat.leb_le in E.
    now rewrite (tags_and_versions_raises (tags repo) translator tag).
  - apply Nat.leb_gt in E.
    destruct (tags repo) as [|t [|t' ts]] eqn:Et; cbn in E; try lia;
      [destruct Hin|].
    destruct Hin as [->|[]].
    unfold tags_and_versions, py_sorted_reverse, py_sorted.
    cbn [map rev app sort_from insort bind]. rewrite Hnone. reflexivity.
Qed.


Lemma next_version_rejects_untranslated_tag_witness :
  next_version Cases.nightly_repo Translator.default Scenario.angular false true
  = Raise (AttributeError "'NoneType' object has no attribute 'is_prerelease'").
Proof.
  apply (next_version_rejects_untranslated_tag Cases.nightly_repo
           Translator.default Scenario.angular false true
           (Scenario.lightweight "nightly" Scenario.m0)).
  - left. reflexivity.
  - reflexivity.
Defined.

(** X21: the walk of [next_version] stops at the first commit that a
    counted tag points at (a full-release tag, or any tag on a prerelease
    branch): the commits behind it are never parsed and do not change the
    outcome, and the latest version is the version of that tag. *)
Theorem walk_commits_stops_at_first_tag
    (commit_parser : Commit -> result ParseResult) (prerelease : bool)
    (tvs : list (Tag.t * Version))
    (newer older : list Commit) (tagged : Commit) (v : Version)
    (levels : list LevelBump.t) (lv : Version) :
  let counted :=
    filter (fun tv => prerelease || negb (is_prerelease (snd tv))) tvs in
  first_tag_at counted tagged = Some v ->
  (forall c, In c newer -> first_tag_at counted c = None) ->
  walk_commits commit_parser prerelease tvs (newer ++ tagged :: older)
    levels lv
  = walk_commits commit_parser prerelease tvs (newer ++ [tagged]) levels lv
  /\ forall levels' lv',
       walk_commits commit_parser prerelease tvs (newer ++ tagged :: older)
         levels lv = Ok (levels', lv') ->
       lv' = v.
Proof.
  intros counted Ht. revert levels.
  induction newer as [|c newer IH]; intros levels Hn; cbn [app walk_commits].
  - fold counted. rewrite Ht.
    destruct (commit_parser tagged) as [r|e]; cbn [bind].
    + split; [reflexivity|]. now intros levels' lv' [= _ <-].
    + split; [reflexivity | discriminate].
  - fold counted. rewrite (Hn c (or_introl eq_refl)).
    destruct (commit_parser c) as [r|e]; cbn [bind].
    + apply IH. intros c' Hc'. apply Hn. now right.
    + split; [reflexivity | discriminate].
Qed.

Lemma walk_commits_stops_at_first_tag_witness :
  walk_commits Scenario.angular false
    [(Scenario.lightweight "v1.2.3" Scenario.s1_base, full_version 1 2 3)]
    ([Scenario.s1_c; Scenario.s1_b; Scenario.s1_a]
     ++ Scenario.s1_base :: [Scenario.m4])
    [] (full_version 0 0 0)
  = walk_commits Scenario.angular false
      [(Scenario.lightweight "v1.2.3" Scenario.s1_base, full_version 1 2 3)]
      ([Scenario.s1_c; Scenario.s1_b; Scenario.s1_a] ++ [Scenario.s1_base])
      [] (full_version 0 0 0).
Proof.
  refine (proj1 (walk_commits_stops_at_first_tag Scenario.angular false
                   [(Scenario.lightweight "v1.2.3" Scenario.s1_base,
                     full_version 1 2 3)]
                   [Scenario.s1_c; Scenario.s1_b; Scenario.s1_a]
                   [Scenario.m4] Scenario.s1_base (full_version 1 2 3)
                   [] (full_version 0 0 0) _ _)).
  - reflexivity.
  - intros c [<-|[<-|[<-|[]]]]; reflexivity.
Defined.

(** ** The releases of a history *)

Lemma first_tag_and_version_in {V} (tvs : list (Tag.t * V)) c tag v :
  first_tag_and_version tvs c = Some (tag, v) ->
  In (tag, v) tvs /\ commit_eqb (Tag.commit tag) c = true.
Proof.
  induction tvs as [|[t w] tvs IH]; cbn [first_tag_and_version];
    [discriminate|].
  destruct (commit_eqb (Tag.commit t) c) eqn:E.
  - intros [= -> ->]. split; [now left | exact E].
  - intros H. destruct (IH H). split; [now right | assumption].
Qed.

Lemma bucket_append_nonempty k x d : bucket_append k x d <> [].
Proof.
  destruct d as [|[k0 l] d]; cbn [bucket_append]; [discriminate|].
  destruct (String.eqb k0 k); discriminate.
Qed.

Lemma setdefault_in v0 r0 rel v r :
  In (v, r) (setdefault v0 r0 rel) -> In (v, r) rel \/ (v = v0 /\ r = r0).
Proof.
  induction rel as [|[v1 r1] rel IH]; cbn [setdefault].
  - intros [[= <- <-]|[]]. now right.
  - destruct (version_eqb v1 v0); [now left|].
    intros [H|H]; [left; now left|].
    destruct (IH H) as [H'|H']; [left; now right | now right].
Qed.

Lemma released_append_in v0 ct pr rel :
  forall rel', released_append v0 ct pr rel = Ok rel' ->
  forall v r, In (v, r) rel' ->
  exists r1, In (v, r1) rel
    /\ Release.tagger r = Release.tagger r1
    /\ Release.committer r = Release.committer r1
    /\ Release.tagged_date r = Release.tagged_date r1
    /\ (Release.elements r = Release.elements r1
        \/ Release.elements r = bucket_append ct pr (Release.elements r1)).
Proof.
  induction rel as [|[v1 r1] rel IH]; cbn [released_append]; intros rel';
    [discriminate|].
  destruct (version_eqb v1 v0).
  - intros [= <-] v r [[= <- <-]|H].
    + exists r1. cbn. split; [now left|]. auto.
    + exists r. split; [now right|]. auto.
  - destruct (released_append v0 ct pr rel) as [rest|e]; cbn [bind];
      [|discriminate].
    intros [= <-] v r [[= <- <-]|H].
    + exists r1. split; [now left|]. auto.
    + destruct (IH rest eq_refl v r H) as (r2 & Hin & Hrest).
      exists r2. split; [now right | exact Hrest].
Qed.

Lemma setdefault_append_nonempty v0 r0 ct pr rel :
  forall rel',
  released_append v0 ct pr (setdefault v0 r0 rel) = Ok rel' ->
  (forall v r, In (v, r) rel -> Release.elements r <> []) ->
  forall v r, In (v, r) rel' -> Release.elements r <> [].
Proof.
  induction rel as [|[v1 r1] rel IH]; cbn [setdefault]; intros rel'.
  - cbn [released_append].
    rewrite (proj2 (version_eqb_eq v0 v0) eq_refl).
    intros [= <-] _ v r [[= <- <-]|[]]. cbn. apply bucket_append_nonempty.
  - destruct (version_eqb v1 v0) eqn:E; cbn [released_append]; rewrite E.
    + intros [= <-] Hne v r [[= <- <-]|H].
      * cbn. apply bucket_append_nonempty.
      * apply (Hne v r). now right.
    + destruct (released_append v0 ct pr (setdefault v0 r0 rel))
        as [rest|e]; cbn [bind]; [|discriminate].
      intros [= <-] Hne v r [[= -> ->]|H].
      * apply (Hne v r). now left.
      * refine (IH rest eq_refl _ v r H).
        intros v' r' H'. apply (Hne v' r'). now right.
Qed.

Lemma history_loop_releases committer parser tvs all commits :
  forall flag tv unrel rel h,
  history_loop committer parser tvs commits flag tv unrel rel = Ok h ->
  incl commits all ->
  (forall v r, In (v, r) rel ->
     release_of_tag committer tvs all v r /\ Release.elements r <> []) ->
  forall v r, In (v, r) (released h) ->
    release_of_tag committer tvs all v r /\ Release.elements r <> [].
Proof.
  induction commits as [|commit commits IH]; intros flag tv unrel rel h.
  - cbn [history_loop]. intros [= <-] _ Hrel. exact Hrel.
  - cbn [history_loop]. intros H Hincl Hrel.
    assert (Hincl' : incl commits all)
      by (intros x Hx; apply Hincl; now right).
    destruct (parser commit) as [pr|e] eqn:Hp; [|discriminate].
    cbn [bind] in H.
    destruct (first_tag_and_version tvs commit) as [[tag version]|] eqn:Ef.
    + destruct (new_release committer tag) as [release|e] eqn:Hr;
        [|discriminate].
      cbn [bind] in H. destruct version as [v0|]; [|discriminate].
      cbn [bind negb] in H.
      destruct (released_append v0 (commit_type_of pr) pr
                  (setdefault v0 release rel)) as [rel'|e] eqn:Ha;
        [|discriminate].
      cbn [bind] in H. apply (IH _ _ _ _ _ H Hincl').
      intros v r Hin. split.
      * destruct (released_append_in _ _ _ _ _ Ha v r Hin)
          as (r1 & Hin1 & Ht & Hc & Hd & _).
        apply setdefault_in in Hin1. destruct Hin1 as [Hin1|[-> ->]].
        -- destruct (proj1 (Hrel v r1 Hin1))
             as (tag' & c & r0 & H1 & H2 & H3 & H4 & H5 & H6 & H7).
           exists tag', c, r0. repeat split; auto; congruence.
        -- apply first_tag_and_version_in in Ef. destruct Ef as [E1 E2].
           exists tag, commit, release. repeat split; auto.
           apply Hincl. now left.
      * eapply setdefault_append_nonempty; eauto.
        intros v' r' H'. exact (proj2 (Hrel v' r' H')).
    + cbn [bind] in H. destruct flag; cbn [negb] in H.
      * destruct tv as [v0|]; [|discriminate].
        destruct (released_append v0 (commit_type_of pr) pr rel)
          as [rel'|e] eqn:Ha; [|discriminate].
        cbn [bind] in H. apply (IH _ _ _ _ _ H Hincl').
        intros v r Hin.
        destruct (released_append_in _ _ _ _ _ Ha v r Hin)
          as (r1 & Hin1 & Ht & Hc & Hd & He).
        destruct (Hrel v r1 Hin1) as [Hp1 Hn1]. split.
        -- destruct Hp1 as (tag' & c & r0 & H1 & H2 & H3 & H4 & H5 & H6 & H7).
           exists tag', c, r0. repeat split; auto; congruence.
        -- destruct He as [-> | ->]; [exact Hn1 | apply bucket_append_nonempty].
      * apply (IH _ _ _ _ _ H Hincl'). exact Hrel.
Qed.

(** X11: every release of the history [release_history] returns is keyed
    by the version of a tag of the repository that points at a walked
    commit, carries the tagger, committer and date read off such a tag, and
    holds at least one parse result. *)
Theorem release_history_releases_come_from_tags
    (configured_committer : Actor) (translator : VersionTranslator)
    (commit_parser : Commit -> result ParseResult) (repo : Repo)
    (h : ReleaseHistory) (v : Version) (r : Release.t) :
  release_history configured_committer translator commit_parser repo = Ok h ->
  In (v, r) (released h) ->
  Release.elements r <> []
  /\ exists tag c r0,
       In tag (tags repo) /\ from_tag translator (Tag.name tag) = Some v
       /\ In c (iter_commits repo None)
       /\ commit_eqb (Tag.commit tag) c = true
       /\ new_release configured_committer tag = Ok r0
       /\ Release.tagger r = Release.tagger r0
       /\ Release.committer r = Release.committer r0
       /\ Release.tagged_date r = Release.tagged_date r0.
Proof.
  unfold release_history. intros H Hin.
  destruct (tags_and_versions (tags repo) translator) as [tvs|e] eqn:Et;
    [|discriminate].
  cbn [bind] in H.
  destruct (history_loop_releases _ _ _ (iter_commits repo None) _ _ _ _ _ _ H
              (incl_refl _) (fun v r (F : In (v, r) []) => match F with end)
              v r Hin)
    as [(tag & c & r0 & H1 & H2 & H3 & H4 & H5 & H6 & H7) Hne].
  split; [exact Hne|].
  destruct (tags_and_versions_in _ _ _ _ _ Et H1) as [Ht Hv].
  exists tag, c, r0. repeat split; auto.
Qed.

Lemma release_history_releases_come_from_tags_witness :
  let vr :=
    hd (full_version 0 0 0, Release.mk "" "" (mkDatetime 0 0) [])
      (released Scenario.s6_history) in
  version_str (fst vr) = "1.1.0"
  /\ Release.elements (snd vr) <> []
  /\ exists tag c r0,
       In tag (tags Scenario.s6_repo)
       /\ from_tag Translator.default (Tag.name tag) = Some (fst vr)
       /\ In c (iter_commits Scenario.s6_repo None)
       /\ commit_eqb (Tag.commit tag) c = true
       /\ new_release "release-bot" tag = Ok r0
       /\ Release.tagger (snd vr) = Release.tagger r0
       /\ Release.committer (snd vr) = Release.committer r0
       /\ Release.tagged_date (snd vr) = Release.tagged_date r0.
Proof.
  intros vr. split; [reflexivity|].
  apply (release_history_releases_come_from_tags "release-bot"
           Translator.default Scenario.angular Scenario.s6_repo
           Scenario.s6_history (fst vr) (snd vr)).
  - vm_compute. reflexivity.
  - left. reflexivity.
Defined.



(** ** The shape of parsed commits *)

Lemma string_forall_app p (a b : string) :
  string_forall p (a ++ b) = string_forall p a && string_forall p b.
Proof.
  induction a as [|c a IH]; cbn; [reflexivity|].
  now rewrite IH, andb_assoc.
Qed.

Lemma matches_Star_Chr p r s g s' g' :
  Re.matches r s g s' g' -> r = Re.Star (Re.Chr p) ->
  exists pre, s = (pre ++ s')%string /\ string_forall p pre = true.
Proof.
  induction 1; intros E; try discriminate.
  - now exists "".
  - injection E as ->.
    match goal with M : Re.matches (Re.Chr p) _ _ _ _ |- _ => inv M end.
    destruct (IHmatches2 eq_refl) as (pre & -> & Hp).
    exists (String c pre). split; [reflexivity|].
    cbn. rewrite Hp. now rewrite andb_true_r.
Qed.

Lemma matches_Plus_Chr_all p pre s' g g' :
  Re.matches (Re.Plus (Re.Chr p)) (pre ++ s')%string g s' g' ->
  pre <> "" /\ string_forall p pre = true.
Proof.
  intros M. unfold Re.Plus in M. inv M.
  match goal with M : Re.matches (Re.Chr p) _ _ _ _ |- _ => inv M end.
  match goal with
  | M : Re.matches (Re.Star _) _ _ _ _ |- _ =>
      destruct (matches_Star_Chr p _ _ _ _ _ M eq_refl) as (pre' & -> & Hp)
  end.
  match goal with
  | E : String ?c (pre' ++ s')%string = (pre ++ s')%string |- _ =>
      change (String c (pre' ++ s')%string)
        with ((String c pre') ++ s')%string in E;
      apply app_inv_tail_str in E; subst pre
  end.
  split; [discriminate|]. cbn.
  match goal with E : p _ = true |- _ => rewrite E end. exact Hp.
Qed.




Lemma contains_front (x pre s : string) :
  contains x s -> contains x (pre ++ s)%string.
Proof.
  intros (a & b & ->). exists (pre ++ a)%string, b.
  now rewrite app_assoc_str.
Qed.

(** The optional body of both commit patterns, [(:?\n\n(?P<text>.+))?]:
    either it took no part in the match, or the text group holds a
    non-empty piece of the input that follows a blank line. *)
Lemma matches_body_tail n s g s' g' :
  n <> "text" ->
  Re.matches
    (Re.Opt (Re.Group n
       (Re.Seq (Re.Opt (Re.Lit ":"))
       (Re.Seq (Re.Lit (String Re.newline (String Re.newline "")))
          (Re.Group "text" (Re.Plus (Re.Chr Re.any_char)))))))
    s g s' g' ->
  g' = g
  \/ exists text,
       text <> "" /\ Re.group "text" g' = Some text
       /\ contains (String Re.newline (String Re.newline text)) s.
Proof.
  intros Hn M. unfold Re.Opt in M.
  inversion M as [| | |? ? ? ? ? ? Mg|? ? ? ? ? ? Me| | | | |]; subst.
  - right. apply matches_Group in Mg.
    destruct Mg as (pre & g0 & -> & Mg & ->).
    inversion Mg as [| |? ? ? ? sA gA ? ? Mopt M2| | | | | | |]; subst.
    inversion M2 as [| |? ? ? ? sB gB ? ? Mnl Mt| | | | | | |]; subst.
    destruct (matches_front _ _ _ _ _ Mopt) as (pA & EA).
    apply (matches_Lit (String Re.newline (String Re.newline ""))) in Mnl.
    destruct Mnl as [-> ->].
    apply matches_Group in Mt. destruct Mt as (text & g00 & -> & Mt & ->).
    pose proof (matches_Plus_Chr_all _ _ _ _ _ Mt) as [Hne _].
    exists text. split; [exact Hne|]. split.
    + cbn [Re.group]. destruct (String.eqb_spec n "text"); [contradiction|].
      reflexivity.
    + rewrite EA. exists pA, s'. reflexivity.
  - left. inversion Me; subst. reflexivity.
Qed.


Lemma tag_match_shape msg g :
  Re.re_match TagCommitParser.re_parser msg = Some g ->
  (exists c subject, Re.group "subject" g = Some (String c subject))
  /\ (Re.group "text" g = None
      \/ exists text,
           Re.group "text" g = Some text /\ text <> ""
           /\ contains (String Re.newline (String Re.newline text)) msg).
Proof.
  intros E. split; [exact (tag_match_groups _ _ E)|].
  apply re_match_Some in E. destruct E as (s' & M).
  unfold TagCommitParser.re_parser in M.
  inversion M as [| |? ? ? ? s1 g1 ? ? Msubject Mtail| | | | | | |]; subst.
  apply matches_Group in Msubject.
  destruct Msubject as (subject & g7 & -> & Msubject & ->).
  apply matches_no_groups in Msubject; [subst g7 | reflexivity].
  destruct (matches_body_tail "2" _ _ _ _ ltac:(discriminate) Mtail)
    as [-> | Hb].
  - left. reflexivity.
  - right. destruct Hb as (text & Hne & Hg & Hc). exists text.
    split; [exact Hg|]. split; [exact Hne|]. now apply contains_front.
Qed.



(** X13: what a ParsedCommit of the legacy tag parser looks like.  The
    descriptions are the stripped subject without the tag, followed by the
    paragraphs of the body, [parse_paragraphs] of the text the pattern
    captures, a non-empty piece of the message behind a blank line; the
    breaking descriptions are the matches among these paragraphs.  It has
    no scope and never the level NO_RELEASE; type and level agree:
    [breaking]/MAJOR exactly when a paragraph of the body matches the
    breaking-change pattern, else [feature]/MINOR when the minor tag occurs
    in the message, else [fix]/PATCH, the patch tag counting only when the
    minor tag is absent. *)
Theorem tag_parsed_commit_shape
    (parse_paragraphs : string -> list string)
    (breaking_re_match : string -> option string)
    (options : TagCommitParser.TagParserOptions)
    (commit : Commit) (p : ParsedCommit.t) :
  TagCommitParser.parse parse_paragraphs breaking_re_match options commit
  = Ok (Parsed p) ->
  exists g subject,
    Re.re_match TagCommitParser.re_parser (message commit) = Some g
    /\ Re.group "subject" g = Some subject
    /\ (forall text, Re.group "text" g = Some text ->
        text <> ""
        /\ contains (String Re.newline (String Re.newline text))
             (message commit))
    /\ let body :=
         match Re.group "text" g with
         | Some text => parse_paragraphs text
         | None => []
         end in
       let tag :=
         if py_str_in (TagCommitParser.minor_tag options) (message commit)
         then TagCommitParser.minor_tag options
         else TagCommitParser.patch_tag options in
       let breaking :=
         exists para d, In para body /\ breaking_re_match para = Some d in
       ParsedCommit.commit p = commit
       /\ ParsedCommit.scope p = None
       /\ ParsedCommit.bump p <> NO_RELEASE
       /\ ParsedCommit.descriptions p
          = py_strip (py_replace subject tag "") :: body
       /\ ParsedCommit.breaking_descriptions p
          = breaking_matches breaking_re_match body
       /\ ((breaking
            /\ ParsedCommit.type p = "breaking"
            /\ ParsedCommit.bump p = MAJOR)
           \/ (~ breaking
               /\ contains (TagCommitParser.minor_tag options)
                    (message commit)
               /\ ParsedCommit.type p = "feature"
               /\ ParsedCommit.bump p = MINOR)
           \/ (~ breaking
               /\ ~ contains (TagCommitParser.minor_tag options)
                      (message commit)
               /\ contains (TagCommitParser.patch_tag options)
                    (message commit)
               /\ ParsedCommit.type p = "fix"
               /\ ParsedCommit.bump p = PATCH)).
Proof.
  unfold TagCommitParser.parse, py_match.
  destruct (Re.re_match TagCommitParser.re_parser (message commit)) as [g|]
    eqn:E; cbn [option_map]; [|discriminate].
  destruct (tag_match_shape _ _ E) as ((c & subject & Hs) & Htext).
  unfold py_group at 1. cbn [match_re match_groups].
  change (existsb (String.eqb "subject")
            (group_names TagCommitParser.re_parser)) with true.
  cbv iota. rewrite Hs. cbn [bind truthy_str option_map].
  unfold TagCommitParser.finish, py_group. cbn [match_re match_groups].
  change (existsb (String.eqb "text")
            (group_names TagCommitParser.re_parser)) with true.
  cbv iota. cbn [bind].
  assert (Hbody : (if truthy_str (Re.group "text" g)
                   then parse_paragraphs (or_empty (Re.group "text" g))
                   else [])
                  = match Re.group "text" g with
                    | Some text => parse_paragraphs text
                    | None => []
                    end).
  { destruct Htext as [-> | (text & -> & Hne & _)]; [reflexivity|].
    destruct text; [congruence | reflexivity]. }
  rewrite Hbody. clear Hbody.
  set (body := match Re.group "text" g with
               | Some text => parse_paragraphs text
               | None => []
               end).
  intros Hp. exists g, (String c subject).
  split; [reflexivity|]. split; [exact Hs|]. split.
  { intros text Ht. destruct Htext as [Hn | (text0 & Hg & Hne & Hc)];
      [congruence|].
    rewrite Hg in Ht. injection Ht as <-. auto. }
  cbv zeta.
  pose proof (breaking_matches_nonempty breaking_re_match body) as Hbm.
  destruct (py_str_in (TagCommitParser.minor_tag options) (message commit))
    eqn:E1;
    [|destruct (py_str_in (TagCommitParser.patch_tag options)
                  (message commit)) eqn:E2; [|discriminate Hp]];
    cbn [bind tl] in Hp;
    destruct (truthy_list (breaking_matches breaking_re_match body)) eqn:Et;
    injection Hp as <-;
    cbn [ParsedCommit.commit ParsedCommit.scope ParsedCommit.bump
         ParsedCommit.type ParsedCommit.breaking_descriptions
         ParsedCommit.descriptions];
    (split; [reflexivity|]); (split; [reflexivity|]);
    (split; [discriminate|]); (split; [reflexivity|]);
    (split; [reflexivity|]).
  - left. split; [now apply Hbm | auto].
  - right. left. apply py_str_in_contains in E1.
    split; [|auto]. intros H. apply Hbm in H. congruence.
  - left. split; [now apply Hbm | auto].
  - right. right. apply py_str_in_contains in E2.
    split; [intros H; apply Hbm in H; congruence|].
    split; [|auto]. intros H. apply py_str_in_contains in H. congruence.
Qed.

Lemma tag_parsed_commit_shape_witness :
  let p :=
    ParsedCommit.mk MAJOR "breaking" None
      ["new api"; "BREAKING CHANGE: old api removed"] ["old api removed"]
      Cases.sparkles_with_trailer in
  ParsedCommit.type p = "breaking"
  /\ exists para d,
       In para (Util.parse_paragraphs "BREAKING CHANGE: old api removed")
       /\ Util.breaking_re_match para = Some d.
Proof.
  intros p.
  destruct (tag_parsed_commit_shape Util.parse_paragraphs
              Util.breaking_re_match TagCommitParser.default_options
              Cases.sparkles_with_trailer p eq_refl)
    as (g & subject & Hg & _ & _ & H).
  vm_compute in Hg. injection Hg as <-. cbv zeta in H.
  destruct H as (_ & _ & _ & _ & _ & [(H & _)|[(_ & _ & H & _)|(_ & _ & _ & H & _)]]).
  - split; [reflexivity | exact H].
  - discriminate H.
  - discriminate H.
Defined.

(** X19: the legacy tag parser returns for every message and never
    raises: a match always captures a subject, so [subject.strip()] is
    never called on [None].  The result is the one ParseError of the
    parser, or a ParsedCommit whose first description is a stripped
    text. *)
Theorem tag_parse_returns
    (parse_paragraphs : string -> list string)
    (breaking_re_match : string -> option string)
    (options : TagCommitParser.TagParserOptions) (commit : Commit) :
  exists r,
    TagCommitParser.parse parse_paragraphs breaking_re_match options commit
    = Ok r
    /\ (r = TagCommitParser.unable commit
        \/ exists p, r = Parsed p
             /\ exists subject paragraphs,
                  ParsedCommit.descriptions p
                  = py_strip subject :: paragraphs).
Proof.
  unfold TagCommitParser.parse, py_match.
  destruct (Re.re_match TagCommitParser.re_parser (message commit)) as [g|]
    eqn:E; cbn [option_map]; [|eexists; split; [reflexivity | now left]].
  destruct (tag_match_groups _ _ E) as (c & subject & Hs).
  unfold py_group at 1. cbn [match_re match_groups].
  change (existsb (String.eqb "subject")
            (group_names TagCommitParser.re_parser)) with true.
  cbv iota. rewrite Hs. cbn [bind truthy_str option_map].
  unfold TagCommitParser.finish, py_group. cbn [match_re match_groups].
  change (existsb (String.eqb "text")
            (group_names TagCommitParser.re_parser)) with true.
  cbv iota. cbn [bind].
  destruct (py_str_in (TagCommitParser.minor_tag options) (message commit));
    [|destruct (py_str_in (TagCommitParser.patch_tag options)
                  (message commit))];
    cbn [bind];
    try match goal with
        | |- context [truthy_list ?l] => destruct (truthy_list l)
        end;
    eexists; (split; [reflexivity|]);
    try (now left);
    right; eexists; (split; [reflexivity|]); cbn [ParsedCommit.descriptions];
    eexists _, _; reflexivity.
Qed.

(** ** The build status of a Gitlab pipeline *)

(** X14: [Gitlab.check_build_status] answers [True] exactly when no job is
    pending and every failed job is allowed to fail (any other status, such
    as [success], [skipped] or [running], is not considered); the answer
    does not depend on the order of the jobs. *)
Theorem gitlab_build_status_passes_iff (jobs : list Gitlab.job) :
  (Gitlab.check_build_status jobs = true <->
   forall j, In j jobs ->
     Gitlab.status j <> "pending"
     /\ (Gitlab.status j = "failed" -> Gitlab.allow_failure j = true))
  /\ forall jobs', Permutation jobs jobs' ->
       Gitlab.check_build_status jobs' = Gitlab.check_build_status jobs.
Proof.
  assert (Hiff : forall l,
            Gitlab.check_build_status l = true <->
            forall j, In j l ->
              Gitlab.status j <> "pending"
              /\ (Gitlab.status j = "failed" -> Gitlab.allow_failure j = true)).
  { induction l as [|j0 l IH]; cbn [Gitlab.check_build_status].
    - split; [intros _ j [] | reflexivity].
    - destruct (String.eqb_spec (Gitlab.status j0) "pending") as [Ep|Ep].
      + split; [discriminate|]. intros H.
        destruct (H j0 (or_introl eq_refl)) as [Hn _]. contradiction.
      + destruct (String.eqb_spec (Gitlab.status j0) "failed") as [Ef|Ef];
          cbn [andb].
        * destruct (Gitlab.allow_failure j0) eqn:Ea; cbn [negb].
          -- rewrite IH. split.
             ++ intros H j [<-|Hj]; [split; auto | now apply H].
             ++ intros H j Hj. apply H. now right.
          -- split; [discriminate|]. intros H.
             destruct (H j0 (or_introl eq_refl)) as [_ Hf].
             specialize (Hf Ef). congruence.
        * rewrite IH. split.
          -- intros H j [<-|Hj]; [split; [assumption | congruence] | now apply H].
          -- intros H j Hj. apply H. now right. }
  split; [apply Hiff|].
  intros jobs' P.
  destruct (Gitlab.check_build_status jobs) eqn:E.
  - apply Hiff. intros j Hj. apply (proj1 (Hiff jobs) E).
    now apply (Permutation_in _ (Permutation_sym P)).
  - destruct (Gitlab.check_build_status jobs') eqn:E'; [|reflexivity].
    rewrite <- E. symmetry. apply Hiff. intros j Hj.
    apply (proj1 (Hiff jobs') E'). now apply (Permutation_in _ P).
Qed.

(** ** Release groups *)

Lemma re_match_Some_iff r s :
  (exists g, Re.re_match r s = Some g) <-> matches_front_of r s.
Proof.
  split.
  - intros (g & H). apply re_match_Some in H. destruct H as (s' & M).
    now exists s', g.
  - intros (s' & g' & M). destruct (Re.re_match r s) as [g|] eqn:E;
      [now exists g|].
    exfalso. exact (proj1 (re_match_None r s) E s' g' M).
Qed.

(** X15: [select_branch_options] returns the options of the first release
    group, in the order of the configuration, whose pattern matches a front
    of the branch name, and raises [NotAReleaseBranch] exactly when no
    group's pattern does. *)
Theorem select_branch_options_first_match
    (choices : list (string * BranchConfig.t)) (active_branch : string) :
  (forall options,
     select_branch_options choices active_branch = inl options <->
     exists before group after,
       choices = before ++ (group, options) :: after
       /\ matches_front_of (BranchConfig.match_ options) active_branch
       /\ forall g o, In (g, o) before ->
            ~ matches_front_of (BranchConfig.match_ o) active_branch)
  /\ (forall e,
        select_branch_options choices active_branch = inr e <->
        e = NotAReleaseBranch active_branch
        /\ forall g o, In (g, o) choices ->
             ~ matches_front_of (BranchConfig.match_ o) active_branch).
Proof.
  induction choices as [|[group0 options0] choices IH];
    cbn [select_branch_options].
  - split.
    + intros options. split; [discriminate|].
      intros (before & group & after & E & _).
      destruct before; discriminate.
    + intros e. split.
      * intros [= <-]. split; [reflexivity | intros ? ? []].
      * intros [-> _]. reflexivity.
  - destruct IH as [IH1 IH2].
    destruct (Re.re_match (BranchConfig.match_ options0) active_branch)
      as [g|] eqn:E.
    + assert (M : matches_front_of (BranchConfig.match_ options0)
                    active_branch)
        by (apply re_match_Some_iff; now exists g).
      split.
      * intros options. split.
        -- intros [= <-]. exists [], group0, choices.
           split; [reflexivity|]. split; [exact M | intros ? ? []].
        -- intros (before & group & after & Ec & Hm & Hb).
           destruct before as [|[g1 o1] before]; cbn [app] in Ec.
           ++ now injection Ec as _ <- _.
           ++ injection Ec as -> -> _. exfalso.
              apply (Hb g1 o1); [now left | exact M].
      * intros e. split; [discriminate|]. intros [_ H]. exfalso.
        apply (H group0 options0); [now left | exact M].
    + assert (M : ~ matches_front_of (BranchConfig.match_ options0)
                      active_branch).
      { intros H. apply re_match_Some_iff in H. destruct H as (g & H).
        congruence. }
      split.
      * intros options. rewrite IH1. split.
        -- intros (before & group & after & -> & Hm & Hb).
           exists ((group0, options0) :: before), group, after.
           split; [reflexivity|]. split; [exact Hm|].
           intros g o [[= <- <-]|Hin]; [exact M | eapply Hb; eauto].
        -- intros (before & group & after & Ec & Hm & Hb).
           destruct before as [|[g1 o1] before]; cbn [app] in Ec.
           ++ injection Ec as _ <- _. contradiction.
           ++ injection Ec as _ _ ->. exists before, group, after.
              split; [reflexivity|]. split; [exact Hm|].
              intros g o Hin. apply (Hb g o). now right.
      * intros e. rewrite IH2. split.
        -- intros [-> H]. split; [reflexivity|].
           intros g o [[= <- <-]|Hin]; [exact M | eapply H; eauto].
        -- intros [-> H]. split; [reflexivity|].
           intros g o Hin. apply (H g o). now right.
Qed.

Lemma matches_Lit_intro l s g :
  Re.matches (Re.Lit l) (l ++ s)%string g s g.
Proof.
  induction l as [|c l IH]; cbn [Re.Lit String.append].
  - constructor.
  - econstructor; [|exact IH]. constructor. apply Ascii.eqb_refl.
Qed.

(** X16: with the default configuration, one group of pattern
    [(main|master)], a branch is a release branch exactly when its name
    starts with [main] or [master]: the pattern is not anchored at the end,
    so [maintenance] or [master-old] are release branches too. *)
Theorem default_branch_group_matches_prefixes (active_branch : string) :
  select_branch_options [("main", BranchConfig.default)] active_branch
  = inl BranchConfig.default
  <-> exists rest,
        active_branch = ("main" ++ rest)%string
        \/ active_branch = ("master" ++ rest)%string.
Proof.
  cbn [select_branch_options].
  destruct (Re.re_match (BranchConfig.match_ BranchConfig.default)
              active_branch) as [g|] eqn:E.
  - split; [intros _|reflexivity].
    apply re_match_Some in E. destruct E as (s' & M).
    cbn [BranchConfig.match_ BranchConfig.default] in M.
    apply matches_Group in M. destruct M as (pre & g0 & -> & M & _).
    apply matches_Alts in M. destruct M as [_ [[H _]|(t & Hin & Ht)]];
      [discriminate|].
    exists s'. destruct Hin as [<-|[<-|[]]]; auto.
  - split; [discriminate|]. intros (rest & H). exfalso.
    apply (proj1 (re_match_None _ _) E rest
             [("1", String.substring 0
                      (String.length active_branch - String.length rest)
                      active_branch)]).
    cbn [BranchConfig.match_ BranchConfig.default].
    constructor. change (Re.Alts ["main"; "master"])
      with (Re.Alt (Re.Lit "main") (Re.Lit "master")).
    destruct H as [-> | ->].
    + apply Re.m_alt_l. apply matches_Lit_intro.
    + apply Re.m_alt_r. apply matches_Lit_intro.
Qed.

(** ** The artifact repository *)

Lemma str_app_nil_r (a : string) : (a ++ "")%string = a.
Proof. induction a as [|c a IH]; cbn; [reflexivity | now rewrite IH]. Qed.

Lemma split_from_nonempty sep s :
  forall k acc, split_from sep k acc s <> [].
Proof.
  induction s as [|c s IH]; intros k acc; cbn [split_from]; [discriminate|].
  destruct k; [|apply IH].
  destruct (String.prefix sep (String c s)); [discriminate | apply IH].
Qed.

Lemma concat_cons sep x l :
  l <> [] ->
  String.concat sep (x :: l) = (x ++ sep ++ String.concat sep l)%string.
Proof. destruct l; [congruence | reflexivity]. Qed.

Lemma prefix_empty s : String.prefix "" s = true.
Proof. now destruct s. Qed.

(** Splitting at commas: the pieces joined by commas are the string, and
    no piece contains a comma. *)
Lemma split_from_comma s :
  forall acc,
  String.concat "," (split_from "," 0 acc s) = (acc ++ s)%string
  /\ (string_forall (fun c => negb (Ascii.eqb c ",")) acc = true ->
      Forall (fun piece =>
                string_forall (fun c => negb (Ascii.eqb c ",")) piece = true)
        (split_from "," 0 acc s)).
Proof.
  induction s as [|c s IH]; intros acc; cbn [split_from].
  - split; [cbn; now rewrite str_app_nil_r | intros H; now constructor].
  - cbn [String.prefix String.length Nat.sub].
    destruct (Ascii.ascii_dec "," c) as [<-|Hc].
    + rewrite prefix_empty. destruct (IH "") as [IH1 IH2]. split.
      * rewrite concat_cons by apply split_from_nonempty.
        now rewrite IH1.
      * intros H. constructor; [exact H | now apply IH2].
    + destruct (IH (acc ++ String c "")%string) as [IH1 IH2]. split.
      * rewrite IH1. now rewrite app_assoc_str.
      * intros H. apply IH2. rewrite string_forall_app, H. cbn.
        destruct (Ascii.eqb_spec c ","); [congruence | reflexivity].
Qed.

(** X17: constructing an [ArtifactRepo].  It raises
    [ImproperConfigurationError] exactly when there is no password and no
    [~/.pypirc], also when a username was given.  Otherwise the password is
    kept, the username is kept unless only a password was given (then it is
    [__token__]), the repository name is never changed, a non-empty
    repository URL is never replaced by the environment while an empty one
    is read from the configured variable, and there is one entry of [dists]
    per comma-separated glob pattern, hence at least one. *)
Theorem artifact_repo_post_init
    (getenv : string -> option string) (pypirc_exists : bool)
    (joinpath : string -> string -> string)
    (self : ArtifactRepo.t) (dist_path : string) :
  let r := ArtifactRepo.__post_init__ getenv pypirc_exists joinpath self
             dist_path in
  (truthy_str (ArtifactRepo.password self) = false -> pypirc_exists = false ->
   r = inr (ImproperConfigurationError
              "Missing credentials for uploading to artifact repository"))
  /\ (truthy_str (ArtifactRepo.password self) = true \/ pypirc_exists = true ->
      exists self' patterns,
        r = inl self'
        /\ ArtifactRepo.password self' = ArtifactRepo.password self
        /\ ArtifactRepo.username self'
           = (if truthy_str (ArtifactRepo.password self)
                 && negb (truthy_str (ArtifactRepo.username self))
              then Some "__token__" else ArtifactRepo.username self)
        /\ ArtifactRepo.repository_name self'
           = ArtifactRepo.repository_name self
        /\ (truthy_str (ArtifactRepo.repository_url self) = true ->
            ArtifactRepo.repository_url self'
            = ArtifactRepo.repository_url self)
        /\ (truthy_str (ArtifactRepo.repository_url self) = false ->
            forall var, ArtifactRepo.repository_url_var self
                        = Some var -> var <> "" ->
            ArtifactRepo.repository_url self' = getenv var)
        /\ patterns <> []
        /\ String.concat "," patterns = ArtifactRepo.dist_glob_patterns self
        /\ Forall (fun p =>
                     string_forall (fun c => negb (Ascii.eqb c ",")) p = true)
             patterns
        /\ ArtifactRepo.dists self' = map (joinpath dist_path) patterns).
Proof.
  intros r. subst r.
  unfold ArtifactRepo.__post_init__, ArtifactRepo._handle_credentials_init.
  destruct (split_from_comma (ArtifactRepo.dist_glob_patterns self) "")
    as [Hjoin Hall].
  specialize (Hall eq_refl). cbn [String.append] in Hjoin.
  pose proof (split_from_nonempty "," (ArtifactRepo.dist_glob_patterns self)
                0%nat "") as Hne.
  split.
  - intros Hp Hrc. rewrite Hp, Hrc. rewrite andb_false_r. reflexivity.
  - intros Hok.
    assert (Hrepo : forall s : ArtifactRepo.t,
              let s' := ArtifactRepo._handle_repository_config getenv s
                          (ArtifactRepo.repository_url_var s)
                          (ArtifactRepo.repository_url s)
                          (ArtifactRepo.repository_name s) in
              ArtifactRepo.password s' = ArtifactRepo.password s
              /\ ArtifactRepo.username s' = ArtifactRepo.username s
              /\ ArtifactRepo.repository_name s' = ArtifactRepo.repository_name s
              /\ ArtifactRepo.dist_glob_patterns s'
                 = ArtifactRepo.dist_glob_patterns s
              /\ (truthy_str (ArtifactRepo.repository_url s) = true ->
                  ArtifactRepo.repository_url s' = ArtifactRepo.repository_url s)
              /\ (truthy_str (ArtifactRepo.repository_url s) = false ->
                  forall var, ArtifactRepo.repository_url_var s = Some var ->
                  var <> "" ->
                  ArtifactRepo.repository_url s' = getenv var)).
    { intros [name url var u p d g].
      unfold ArtifactRepo._handle_repository_config.
      destruct url as [[|c1 url]|]; destruct var as [[|c2 var]|];
        destruct name as [|c3 name]; cbn; repeat split; auto;
        try discriminate; intros; congruence. }
    set (creds := if truthy_str (ArtifactRepo.username self)
                     && truthy_str (ArtifactRepo.password self)
                  then inl self
                  else if truthy_str (ArtifactRepo.password self)
                          && negb (truthy_str (ArtifactRepo.username self))
                  then inl (ArtifactRepo.mk (ArtifactRepo.repository_name self)
                              (ArtifactRepo.repository_url self)
                              (ArtifactRepo.repository_url_var self)
                              (if truthy_str (ArtifactRepo.username self)
                               then ArtifactRepo.username self
                               else Some "__token__")
                              (ArtifactRepo.password self)
                              (ArtifactRepo.dists self)
                              (ArtifactRepo.dist_glob_patterns self))
                  else if negb pypirc_exists
                  then inr (ImproperConfigurationError
                              "Missing credentials for uploading to artifact repository")
                  else inl self).
    assert (Hc : exists s1, creds = inl s1
              /\ ArtifactRepo.password s1 = ArtifactRepo.password self
              /\ ArtifactRepo.username s1
                 = (if truthy_str (ArtifactRepo.password self)
                       && negb (truthy_str (ArtifactRepo.username self))
                    then Some "__token__" else ArtifactRepo.username self)
              /\ ArtifactRepo.repository_name s1
                 = ArtifactRepo.repository_name self
              /\ ArtifactRepo.repository_url s1
                 = ArtifactRepo.repository_url self
              /\ ArtifactRepo.repository_url_var s1
                 = ArtifactRepo.repository_url_var self
              /\ ArtifactRepo.dist_glob_patterns s1
                 = ArtifactRepo.dist_glob_patterns self).
    { subst creds.
      destruct (truthy_str (ArtifactRepo.username self)) eqn:Eu;
        destruct (truthy_str (ArtifactRepo.password self)) eqn:Ep;
        cbn [andb negb];
        try (eexists; split; [reflexivity|]; cbn; repeat split; reflexivity).
      - destruct Hok as [Hok|Hok]; [discriminate|]. rewrite Hok. cbn [negb].
        eexists; split; [reflexivity|]. repeat split.
      - destruct Hok as [Hok|Hok]; [discriminate|]. rewrite Hok. cbn [negb].
        eexists; split; [reflexivity|]. repeat split. }
    destruct Hc as (s1 & -> & H1 & H2 & H3 & H4 & H5 & H6).
    destruct (Hrepo s1) as (R1 & R2 & R3 & R4 & R5 & R6).
    eexists. exists (py_split (ArtifactRepo.dist_glob_patterns self) ",").
    split; [reflexivity|].
    unfold ArtifactRepo._handle_glob_patterns.
    cbn [ArtifactRepo.password ArtifactRepo.username
         ArtifactRepo.repository_name ArtifactRepo.repository_url
         ArtifactRepo.dists].
    split; [congruence|]. split; [congruence|]. split; [congruence|].
    split.
    { intros Hu. rewrite <- H4 in Hu. rewrite (R5 Hu). exact H4. }
    split.
    { intros Hu var Hv Hn. rewrite <- H4 in Hu. rewrite <- H5 in Hv.
      exact (R6 Hu var Hv Hn). }
    split; [exact Hne|]. split; [exact Hjoin|]. split; [exact Hall|].
    rewrite R4, H6. reflexivity.
Qed.
